(* ===== verification/_CoqProject ===== *)
-Q . S2P
Prelude.v
Float32.v
Rounding.v
Float32Exact.v
RoundingOrder.v
Float64.v
Json.v
Serde.v
action.v
node.v
edge.v
Random.v
markov_chain.v
WeightedChoice.v
transition.v
ChainMap.v
tests.v
