(* ===== verification/Prelude.v ===== *)
(** * livechain-tooling / markov-generator: a verification development

    The program (Rust, [src/markov-generator/src]) is a weighted directed
    graph, the "Markov chain": nodes carry a list of actions (an id and a
    JSON payload), edges carry an [f32] weight, the chain remembers a current
    node, and [MarkovChain::next] moves the current node along one outgoing
    edge chosen at random with probability proportional to its weight.

    ** Files, in dependency order

    - [Prelude] (this file): shared vocabulary.  [u32] is [N] with the range
      predicate [u32_ok]; [Result] is Rust's [Result]; [Exec] adds the
      outcome "the call panicked"; [iter_find], [iter_any] model
      [Iterator::find] and [Iterator::any] over a [Vec] (a [list]), with the
      lemmas every component shares; the hint database [chain] and the
      tactics [chain_simpl], [case_find]; [and_then] with the notation
      [let? x := e in k] (scope [result_scope]) is the [?] operator.
    - [Float32]: [f32] as the Standard Library's [spec_float] at precision 24
      and [emax] 128, so that [+], [-], [<], [==] are the IEEE-754 binary32
      operations bit for bit (round to nearest even, signed zeros,
      infinities, NaN).  [B2Z] and [B2Q] give the value of a finite float
      (scaled by 2^149, and as a rational).
    - [Rounding]: the rounding of the Standard Library's [SpecFloat] at any
      precision: [binary_round], [binary_normalize], [SFadd] and [SFsub]
      return well-formed floats, and rounding a value that the format
      represents returns it.
    - [Float32Exact]: when [+] and [-] of binary32 do not round: the sum of
      the aligned mantissas has at most 24 bits ([f32_sub_exact],
      [f32_add_exact], Sterbenz's lemma).
    - [RoundingOrder]: rounding keeps the order with the floats of the
      format (a float below the value is below the rounded value, and the
      same above), from the definition of [binary_round_aux]; for binary32,
      a sum of numbers that are not negative is at least each term or the
      infinity ([f32_add_nonneg]) and a difference [r - w] with [w <= r] is
      a number between zero and [r] ([f32_sub_nonneg]).
    - [Float64]: [f64] (precision 53, [emax] 1024), used by the last lines
      of [test_next_edge_distribution] and by the numbers of a JSON
      document; the casts [f32_to_f64] (exact) and [f64_to_f32] (rounding),
      and that widening then narrowing is the identity.
    - [Json]: [serde_json::Value] as an inductive type (the crate is not
      under src/; the type is modelled from its documented shape).  The same
      type serves for a JSON document (members in the order of the text)
      and for the in-memory [Value], whose objects are [BTreeMap]s: the
      keys are strictly sorted ([Json.wf]); [Json.of_document] builds the
      one from the other by [Json.put], the insertion of [BTreeMap].
    - [Serde]: the traits [Serialize] and [Deserialize] as classes
      ([serialize : T -> document], [deserialize : document -> Result T
      Error]), their instances for [u32], [f32], [Option], [Vec] and
      [Value], the pieces of the code that [#[derive(Deserialize)]]
      generates ([visit_field], [take_field], [next_element], [end_seq],
      [deserialize_struct]), the law classes [RoundTrip] and
      [DeserializeWf], and Module [serde_json] ([from_str], [to_string]
      over a JSON parser that is a parameter).
    - [action], [node], [edge]: the three record types of
      [markov_chain/action.rs], [node.rs], [edge.rs], their constructors
      [new], their derived [PartialEq] ([PartialOrd] for [Edge]), their
      derived [Serialize] (an object with the fields in the order of the
      struct) and [Deserialize] ([visit_map] over the members of an object,
      [visit_seq] over the elements of an array), and [Action.from_str]
      ([impl FromStr for Action]); each in a Module of the type's name.
    - [Random]: the contract of [rand]'s [gen_range] over a half-open range
      as the class [RandomSource] (the crate is not under src/), with two
      executable instances: [Lowest] and [Scripted].
    - [markov_chain]: Module [MarkovChain], the record ([nodes], [edges],
      [current_node]) and every method of [impl MarkovChain] in
      [markov_chain/markov_chain.rs]: [new], [add_node], [add_nodes],
      [add_edge], [remove_node], [remove_edge], [get_node], [get_edge],
      [add_node_actions], [get_node_actions], [get_node_action],
      [get_edge_from], [get_edge_to], [get_node_edges], [node_exists],
      [edge_exists], [set_current_node], [get_current_node] and [next] with
      its two loops [total_weight] and [select_edge], and the derived
      [Serialize] and [Deserialize] of the chain.  A [&mut self] method
      is a function returning the new chain (and its [Result] where it has
      one); a [&self] method is a function of the chain; [next] takes the
      generator and returns it, or [Panics].
    - [WeightedChoice]: the exact-arithmetic reference of the selection (over
      [Q]) and the refinement of the [f32] loops to it on the runs in which
      no operation rounds ([exact_run], [exact_total]); the static
      condition [well_spaced] on a list of weights under which no run of
      [select_edge] rounds, whatever the draw.
    - [transition]: [next] against the class [RandomSource], branch by
      branch, the labelled step relation [step] of the API with the
      invariants of its closure [steps], the chains on which [next] can
      be called forever ([live]) and the chains on which it cannot panic
      ([panic_free], with the guard [keeps_weights] on the calls that
      change the edges).
    - [ChainMap]: the abstract specification of the container: two finite
      maps ([gmap]), the nodes by id and the edges by endpoints, each key
      bound to its first occurrence in the [Vec] ([abs]); the relation
      [graph_step] says what each call does to the maps; chains with the
      same maps are equivalent ([≡]), with [Proper] instances for the
      lookups and for every call but [next].
    - [tests]: the fixtures and the unit tests of [markov_chain.rs],
      evaluated by the kernel on the two executable generators and, for the
      tests that call [next], proved for every generator;
      [test_next_edge_distribution_asserts] is the whole of
      [test_next_edge_distribution], its two assertions computed in binary64
      ([ratio_within]); [main] is [main.rs]: the chain it builds and the
      document it serialises.

    ** What the theorems show

    - Container ([markov_chain]): lookup after insertion and removal on
      every branch, including the duplicate-id cases in which the first
      match wins; frame properties; [node_exists] / [edge_exists] agree with
      the lookups; [get_node_edges] returns exactly the outgoing edges in
      insertion order or [NodeDoesNotExistError]; [set_current_node] on both
      branches; every operation preserves [wf] (every id is a [u32], every
      weight a valid binary32).
    - The loops ([markov_chain], [WeightedChoice]): [select_edge] selects
      the first edge whose weight exceeds what remains of the draw; on a run
      without rounding it is the exact weighted choice, which takes each
      edge on an interval of draws as long as its weight and never fails on
      a draw in [0, total); with rounding it can fail
      ([transition_failed_reachable]), but over weights that are not
      negative only on a draw within [n - 1] units in the last place of the
      exact sum of the [n] weights ([select_edge_Err_near_total]).  The comparisons never round
      ([f32_comparisons_exact]); a subtraction [x - y] with
      [y <= x <= 2 y] never rounds ([f32_sub_sterbenz]); every float the
      loops compute is a well-formed binary32 ([next_floats_valid]), and
      over weights that are not negative what remains of the draw is a
      number between zero and the draw ([remaining_bounds]).
    - [next] ([transition]), for every generator that honours the range
      contract: the result on each guard, the chain unchanged on failure, a
      successful call lands on the target of an outgoing edge, a panic
      exactly when the total weight of the outgoing edges is not above zero;
      on finite weights that are not negative, one of them positive, whose
      total does not overflow, [next] neither panics nor returns a guard
      error ([next_nonneg_weights]).
    - The state machine ([transition]): the current node is never unset;
      [wf] is an invariant; "the current node exists and every edge leads to
      a node" is an invariant of the sequences of calls that keep the graph
      closed; "the edges that leave each node have sound weights" is an
      invariant of the sequences in which [add_edge] and [remove_edge]
      keep the weights of the node they touch sound, and after such a
      sequence [next] does not panic ([steps_no_panic]).
    - Refinement ([ChainMap]): the lookups of the chain are lookups in its
      maps ([lookup_refines]) and every sequence of calls is a sequence of
      map operations ([steps_refine]): insertion that keeps what is bound,
      deletion, alteration.  The maps forget the order of the edges and
      the edges hidden by an earlier edge with the same endpoints, which
      [next] still draws from.
    - Equivalence ([ChainMap]): chains with the same maps stay equivalent
      and answer alike along every sequence of calls other than [next]
      ([chain_equiv_steps]); [next] does not respect the equivalence
      ([next_not_proper]).
    - Serialisation ([action], [node], [edge], [markov_chain]): what was
      serialised deserialises to itself ([RoundTrip] instances,
      [serialize_deserialize]) provided the weights are finite, and only
      then ([edge_round_trip_iff]); whatever the document, a value that
      deserialisation returns satisfies the invariant of its type
      ([DeserializeWf] instances, [deserialize_chain_wf]);
      [Action::from_str] is characterised on objects and on arrays
      ([from_str_object], [from_str_array]).
    - The tests ([tests]): every unit test passes; [test_next] and the loop
      of [test_next_edge_distribution] for every generator; the final
      assertions hold exactly for 4501 to 5499 arrivals at node 2 out of
      10000 ([test_next_edge_distribution_asserts_spec]), which a generator
      that always draws the lower bound does not deliver; [main] returns
      the document of the specified layout.

    A theorem with hypotheses is followed by an instance on a concrete chain
    (its name ends in [_witness]).

    ** Bounds and fuel

    No definition needs fuel: every loop of the program iterates over a
    [Vec] and is structural recursion over the list.  Integers are ids only
    (no arithmetic is performed on them), so [u32] is [N] with the bound kept
    in the invariant [wf].  Floats are kept at binary32 and binary64
    exactly.  The number of rounds of [test_next_edge_distribution] is the
    10000 of the code: the loop is proved for every number of rounds, and
    the range of counts on which the binary64 assertion holds is computed by
    the kernel on each of the 10001 possible counts.

    ** Not modelled

    - The text layer of [serde_json]: printing a document and parsing a
      text, with the decimal conversion of floats, is library code outside
      the repository.  [serde_json.from_str] takes the parser as a
      parameter and [serde_json.to_string] returns the document, not its
      text.  In a document a weight is the binary64 value of the [f32], as
      [serde_json::to_value] holds it; the text shows the shortest decimal
      that reads back as the same [f32].  [serde_json] is taken with its
      default features (objects are [BTreeMap]s, numbers are [u64], [i64]
      or [f64]).
    - [println!] in [main] (I/O).
    - The entropy source and the sampling algorithm behind
      [rand::thread_rng]: only the range contract of [gen_range] is used, so
      nothing is proved of the frequencies a real run observes.
    - The derived [Clone] and [Debug]: a clone is the value itself
      ([node.clone()] in the tests is [node]); [Debug] formatting is only
      used by the messages of failed assertions.
    - [markov_chain/mod.rs]: module declarations and re-exports only
      (visibility has no counterpart here: every definition is visible). *)

From stdpp Require Import base tactics decidable option numbers list.

(** ** Machine integers

    Node and action ids are [u32]; the program only compares them. *)

Abbreviation u32 := N (only parsing).

Definition u32_MAX : N := 4294967295.

Definition u32_ok (n : N) : Prop := (n ≤ u32_MAX)%N.

#[export] Instance u32_ok_dec n : Decision (u32_ok n).
Proof. unfold u32_ok. apply _. Defined.

(** ** Results and panics *)

Inductive Result (T E : Type) : Type :=
| Ok (t : T)
| Err (e : E).

Arguments Ok {T E} t.
Arguments Err {T E} e.

#[export] Instance Result_eq_dec `{EqDecision T, EqDecision E} :
  EqDecision (Result T E).
Proof. solve_decision. Defined.

Definition is_ok {T E} (r : Result T E) : bool :=
  match r with Ok _ => true | Err _ => false end.

Definition is_err {T E} (r : Result T E) : bool := negb (is_ok r).

(** [Result::and_then]; [let? x := e in k] is [let x = e?; k]. *)
Definition and_then {T U E} (r : Result T E) (f : T → Result U E)
  : Result U E :=
  match r with Ok t => f t | Err e => Err e end.

Declare Scope result_scope.
Delimit Scope result_scope with result.
Notation "'let?' x := e 'in' k" := (and_then e (λ x, k))
  (at level 200, x pattern, e at level 200, k at level 200) : result_scope.

(** [iter().map(f).collect::<Result<Vec<_>, _>>()]: the first error stops
    the traversal. *)
Fixpoint try_map {A B E} (f : A → Result B E) (l : list A)
  : Result (list B) E :=
  match l with
  | [] => Ok []
  | x :: l =>
      match f x with
      | Ok y => match try_map f l with Ok ys => Ok (y :: ys) | Err e => Err e end
      | Err e => Err e
      end
  end.

(** The outcome of a call that may unwind: it returns or it panics. *)
Inductive Exec (A : Type) : Type :=
| Returns (a : A)
| Panics.

Arguments Returns {A} a.
Arguments Panics {A}.

#[export] Instance Exec_eq_dec `{EqDecision A} : EqDecision (Exec A).
Proof. solve_decision. Defined.

(** ** Iterator vocabulary

    [iter().find(p)], [iter().any(p)] of a [Vec]; [Vec::retain] is stdpp's
    [filter], [push] and [extend_from_slice] are [++]. *)

Section iter.
Context {A : Type} (P : A → Prop) `{!∀ x, Decision (P x)}.

Definition iter_find (l : list A) : option A := snd <$> list_find P l.

Definition iter_any (l : list A) : bool := bool_decide (Exists P l).

Lemma iter_find_nil : iter_find [] = None.
Proof. done. Qed.

Lemma iter_find_cons x l :
  iter_find (x :: l) = if decide (P x) then Some x else iter_find l.
Proof.
  unfold iter_find. cbn. case_decide; [done|].
  by destruct (list_find P l) as [[]|].
Qed.

Lemma iter_find_app l1 l2 :
  iter_find (l1 ++ l2) = from_option Some (iter_find l2) (iter_find l1).
Proof.
  induction l1 as [|x l1 IH]; [done|].
  rewrite <-app_comm_cons, !iter_find_cons. by case_decide.
Qed.

Lemma iter_find_Some l x : iter_find l = Some x → x ∈ l ∧ P x.
Proof.
  induction l as [|y l IH]; [done|]. rewrite iter_find_cons.
  case_decide; [intros [= ->]; split; [left|done]|].
  intros [??]%IH. split; [by right|done].
Qed.

Lemma iter_find_None l : iter_find l = None ↔ Forall (λ x, ¬ P x) l.
Proof.
  unfold iter_find. rewrite fmap_None. apply list_find_None.
Qed.

Lemma iter_find_is_Some l : is_Some (iter_find l) ↔ Exists P l.
Proof.
  split.
  - intros [x [??]%iter_find_Some]. apply Exists_exists. by exists x.
  - intros HE. destruct (iter_find l) eqn:E; [by eexists|].
    apply iter_find_None, Forall_Exists_neg in E. done.
Qed.

Lemma iter_any_true l : iter_any l = true ↔ Exists P l.
Proof. unfold iter_any. apply bool_decide_eq_true. Qed.

Lemma iter_any_false l : iter_any l = false ↔ Forall (λ x, ¬ P x) l.
Proof.
  unfold iter_any. rewrite bool_decide_eq_false.
  symmetry. apply Forall_Exists_neg.
Qed.

Lemma iter_any_find l : iter_any l = bool_decide (is_Some (iter_find l)).
Proof. apply bool_decide_ext. by rewrite iter_find_is_Some. Qed.

Lemma iter_any_app l1 l2 : iter_any (l1 ++ l2) = iter_any l1 || iter_any l2.
Proof.
  unfold iter_any. rewrite <-bool_decide_or. apply bool_decide_ext, Exists_app.
Qed.

Lemma iter_find_filter (Q : A → Prop) `{!∀ x, Decision (Q x)} l :
  (∀ x, P x → Q x) → iter_find (filter Q l) = iter_find l.
Proof.
  intros HPQ. induction l as [|x l IH]; [done|].
  rewrite filter_cons, (iter_find_cons x l). case_decide.
  - rewrite iter_find_cons, IH. done.
  - rewrite IH. case_decide; [|done]. naive_solver.
Qed.

Lemma iter_find_filter_None (Q : A → Prop) `{!∀ x, Decision (Q x)} l :
  (∀ x, P x → ¬ Q x) → iter_find (filter Q l) = None.
Proof.
  intros HPQ. apply iter_find_None, Forall_forall.
  intros x [??]%list_elem_of_filter. naive_solver.
Qed.

(** Replacing the element at an index, as a mutation through
    [iter_mut().find(..)] does. *)
Lemma iter_find_insert_other l i x x' :
  l !! i = Some x → ¬ P x → ¬ P x' → iter_find (<[i:=x']> l) = iter_find l.
Proof.
  revert i. induction l as [|y l IH]; intros [|i] Hi ??; simplify_eq/=;
    rewrite !iter_find_cons; repeat case_decide; try done. eauto.
Qed.

Lemma iter_find_insert_first l i x x' :
  list_find P l = Some (i, x) → P x' → iter_find (<[i:=x']> l) = Some x'.
Proof.
  intros (Hi & _ & Hlt)%list_find_Some Hx'. revert i Hi Hlt.
  induction l as [|y l IH]; intros [|i] Hi Hlt; simplify_eq/=;
    rewrite iter_find_cons.
  - by rewrite decide_True.
  - rewrite decide_False by (apply (Hlt 0); [done|lia]).
    apply IH; [done|]. intros j z ??. apply (Hlt (S j)); [done|lia].
Qed.

Lemma list_find_iter_find l i x : list_find P l = Some (i, x) → iter_find l = Some x.
Proof. unfold iter_find. by intros ->. Qed.

Lemma iter_find_list_find l x :
  iter_find l = Some x → ∃ i, list_find P l = Some (i, x).
Proof.
  unfold iter_find. destruct (list_find P l) as [[i y]|]; [|done].
  intros [= ->]. eauto.
Qed.

End iter.

Arguments iter_find : simpl never.
Arguments iter_any : simpl never.

(** [retain] keeps a vector whose elements all pass the test. *)
Lemma filter_Forall_id {A} (P : A → Prop) `{!∀ x, Decision (P x)} l :
  Forall P l → filter P l = l.
Proof.
  induction 1 as [|x l ? _ IH]; [done|].
  rewrite filter_cons_True by done. by f_equal.
Qed.

Lemma Forall_filter {A} (P Q : A → Prop) `{!∀ x, Decision (Q x)} l :
  Forall P l → Forall P (filter Q l).
Proof.
  rewrite !Forall_forall. intros HP x [_ ?]%list_elem_of_filter. auto.
Qed.

Lemma iter_find_ext {A} (P Q : A → Prop)
    `{!∀ x, Decision (P x), !∀ x, Decision (Q x)} l :
  (∀ x, P x ↔ Q x) → iter_find P l = iter_find Q l.
Proof. intros. unfold iter_find. f_equal. by apply list_find_ext. Qed.

(** ** Automation shared by the components *)

Create HintDb chain discriminated.
Create Rewrite HintDb chain.

#[export] Hint Rewrite @iter_find_nil @iter_find_cons @iter_find_app
  @iter_any_app : chain.

(** Rewrite with the shared equations and simplify. *)
Ltac chain_simpl := autorewrite with chain in *; simplify_eq/=.

(** Case analysis on the first [iter_find] of the goal. *)
Ltac case_find :=
  match goal with
  | |- context [iter_find ?P ?l] =>
      let E := fresh "Hfind" in destruct (iter_find P l) eqn:E
  end.
