(* ===== verification/Float32.v ===== *)
(** * Float32: Rust's [f32] as IEEE-754 binary32

    [f32] is the Standard Library's [spec_float] at precision 24 and maximal
    exponent 128.  The operations the program uses on edge weights ([+=],
    [-=], [<], and the [==] and [partial_cmp] of the derived instances) are
    the library's [SFadd], [SFsub], [SFltb], [SFeqb], [SFcompare] at those
    parameters: round to nearest, ties to even, with signed zeros,
    infinities and NaN.  [B2Q] is the rational a finite float denotes. *)

From Stdlib Require Import ZArith QArith SpecFloat.
From stdpp Require Import base tactics decidable option numbers list.
From S2P Require Import Prelude.

Declare Scope f32_scope.
Delimit Scope f32_scope with f32.

Abbreviation f32 := spec_float (only parsing).

Definition prec : Z := 24.
Definition emax : Z := 128.

#[export] Instance spec_float_eq_dec : EqDecision spec_float.
Proof. solve_decision. Defined.

(** A float is well formed when its mantissa and exponent are canonical
    for binary32; the comparison functions assume it. *)
Definition f32_valid (x : f32) : bool := valid_binary prec emax x.

Definition f32_is_nan (x : f32) : bool :=
  match x with S754_nan => true | _ => false end.

Definition f32_is_finite (x : f32) : bool :=
  match x with S754_zero _ | S754_finite _ _ _ => true | _ => false end.

(** The literal [0.0]. *)
Definition f32_zero : f32 := S754_zero false.

Definition f32_add (x y : f32) : f32 := SFadd prec emax x y.
Definition f32_sub (x y : f32) : f32 := SFsub prec emax x y.
Definition f32_lt (x y : f32) : bool := SFltb x y.
Definition f32_le (x y : f32) : bool := SFleb x y.
Definition f32_eq (x y : f32) : bool := SFeqb x y.
Definition f32_partial_cmp (x y : f32) : option comparison := SFcompare x y.

Arguments f32_add : simpl never.
Arguments f32_sub : simpl never.
Arguments f32_lt : simpl never.
Arguments f32_le : simpl never.
Arguments f32_eq : simpl never.
Arguments f32_partial_cmp : simpl never.

Infix "+" := f32_add : f32_scope.
Infix "-" := f32_sub : f32_scope.
Infix "<?" := f32_lt : f32_scope.
Infix "<=?" := f32_le : f32_scope.
Infix "=?" := f32_eq : f32_scope.

(** The float nearest to the integer [z], and to the ratio [n / d] of two
    integers that are themselves representable: the value of a decimal
    literal such as [0.2] is [f32_of_ratio 2 10]. *)
Definition f32_of_Z (z : Z) : f32 := binary_normalize prec emax z 0 false.

Definition f32_of_ratio (n d : Z) : f32 :=
  SFdiv prec emax (f32_of_Z n) (f32_of_Z d).

(** The least exponent of binary32, that of the subnormal numbers. *)
Definition f32_emin : Z := -149.

(** The value of a finite float in units of [2 ^ f32_emin]: an integer,
    since no well-formed float has a smaller exponent (0 for the others). *)
Definition B2Z (x : f32) : Z :=
  match x with
  | S754_finite s m e =>
      (if s then Z.neg m else Z.pos m) * 2 ^ (e - f32_emin)
  | _ => 0
  end.

(** The rational value of a finite float. *)
Definition B2Q (x : f32) : Q := B2Z x # 2 ^ 149.

(** A well-formed float that is a number: a zero or a finite float. *)
Definition f32_number (x : f32) : bool := f32_valid x && f32_is_finite x.

Definition f32_is_zero (x : f32) : bool :=
  match x with S754_zero _ => true | _ => false end.

(** ** NaN propagates and compares false *)

Lemma f32_add_nan_l y : (S754_nan + y)%f32 = S754_nan.
Proof. done. Qed.

Lemma f32_add_nan_r x : (x + S754_nan)%f32 = S754_nan.
Proof. by destruct x. Qed.

Lemma f32_sub_nan_l y : (S754_nan - y)%f32 = S754_nan.
Proof. done. Qed.

Lemma f32_sub_nan_r x : (x - S754_nan)%f32 = S754_nan.
Proof. by destruct x. Qed.

Lemma f32_lt_nan_l y : (S754_nan <? y)%f32 = false.
Proof. done. Qed.

Lemma f32_lt_nan_r x : (x <? S754_nan)%f32 = false.
Proof. by destruct x. Qed.

Lemma f32_eq_nan_l y : (S754_nan =? y)%f32 = false.
Proof. done. Qed.

Lemma f32_eq_nan_r x : (x =? S754_nan)%f32 = false.
Proof. by destruct x. Qed.

Lemma f32_is_nan_spec x : f32_is_nan x = true ↔ x = S754_nan.
Proof. by destruct x. Qed.

(** ** Adding to the literal zero *)

Lemma f32_add_zero_l x :
  (f32_zero + x)%f32 = match x with S754_zero _ => f32_zero | _ => x end.
Proof. by destruct x as [[]| | |]. Qed.

Lemma f32_add_zero_finite s m e :
  (f32_zero + S754_finite s m e)%f32 = S754_finite s m e.
Proof. done. Qed.

(** ** The comparison *)

Lemma Pos_compare_cont_Eq_antisym m1 m2 :
  Pos.compare_cont Eq m2 m1 = CompOpp (Pos.compare_cont Eq m1 m2).
Proof. by rewrite Pos.compare_cont_antisym. Qed.

Lemma f32_partial_cmp_antisym x y :
  f32_partial_cmp y x = CompOpp <$> f32_partial_cmp x y.
Proof.
  unfold f32_partial_cmp.
  destruct x as [[]|[]| |[] m1 e1], y as [[]|[]| |[] m2 e2]; try done; cbn;
    rewrite (Z.compare_antisym e1 e2), (Pos_compare_cont_Eq_antisym m1 m2);
    by destruct (e1 ?= e2)%Z, (Pos.compare_cont Eq m1 m2).
Qed.

Lemma f32_eq_sym x y : (x =? y)%f32 = (y =? x)%f32.
Proof.
  unfold f32_eq, SFeqb. change SFcompare with f32_partial_cmp.
  rewrite (f32_partial_cmp_antisym x y).
  by destruct (f32_partial_cmp x y) as [[]|].
Qed.

Lemma f32_partial_cmp_refl x :
  f32_partial_cmp x x = if f32_is_nan x then None else Some Eq.
Proof.
  unfold f32_partial_cmp.
  destruct x as [[]|[]| |[] m e]; try done; cbn;
    by rewrite Z.compare_refl, Pos.compare_cont_refl.
Qed.

Lemma f32_lt_irrefl x : (x <? x)%f32 = false.
Proof.
  unfold f32_lt, SFltb. change (SFcompare x x) with (f32_partial_cmp x x).
  rewrite f32_partial_cmp_refl. by destruct (f32_is_nan x).
Qed.

Lemma f32_eq_refl x : (x =? x)%f32 = negb (f32_is_nan x).
Proof.
  unfold f32_eq, SFeqb. change (SFcompare x x) with (f32_partial_cmp x x).
  rewrite f32_partial_cmp_refl. by destruct (f32_is_nan x).
Qed.

Lemma f32_lt_not_nan x y : (x <? y)%f32 = true → x ≠ S754_nan ∧ y ≠ S754_nan.
Proof. destruct x, y; done. Qed.

Lemma f32_eq_lt x y : (x =? y)%f32 = true → (x <? y)%f32 = false.
Proof.
  unfold f32_eq, f32_lt, SFeqb, SFltb. by destruct (SFcompare x y) as [[]|].
Qed.

Lemma f32_eq_partial_cmp x y :
  (x =? y)%f32 = true ↔ f32_partial_cmp x y = Some Eq.
Proof.
  unfold f32_eq, f32_partial_cmp, SFeqb.
  destruct (SFcompare x y) as [[]|]; naive_solver.
Qed.

(** A float above zero is a positive finite float or [+inf]. *)
Lemma f32_lt_zero_cases x :
  (f32_zero <? x)%f32 = true →
  x = S754_infinity false ∨ ∃ m e, x = S754_finite false m e.
Proof. destruct x as [[]|[]| |[] m e]; try done; eauto. Qed.

Lemma f32_lt_zero_finite x :
  (f32_zero <? x)%f32 = true → x ≠ S754_infinity false →
  f32_is_finite x = true.
Proof. intros [->|(m & e & ->)]%f32_lt_zero_cases; done. Qed.

Lemma f32_add_zero_pos x : (f32_zero <? x)%f32 = true → (f32_zero + x)%f32 = x.
Proof. intros [->|(m & e & ->)]%f32_lt_zero_cases; done. Qed.

(** Zeros of either sign add up to the positive zero. *)
Lemma f32_add_zero_zero x :
  f32_is_zero x = true → (f32_zero + x)%f32 = f32_zero.
Proof. by destruct x as [[]| | |]. Qed.

(** ** The comparison is the comparison of the values

    On well-formed numbers the exponent-then-mantissa comparison of
    [SFcompare] orders the floats as their values: a larger exponent means a
    normal mantissa of 24 bits, which outweighs any mantissa at a smaller
    exponent. *)

Lemma digits2_pos_bounds m :
  (2 ^ (Z.pos (digits2_pos m) - 1) ≤ Z.pos m < 2 ^ Z.pos (digits2_pos m))%Z.
Proof.
  induction m as [m IH|m IH|]; cbn [digits2_pos]; [| |done];
    rewrite Pos2Z.inj_succ;
    replace (Z.succ (Z.pos (digits2_pos m)) - 1)%Z
      with (Z.succ (Z.pos (digits2_pos m) - 1)) by lia;
    rewrite !Z.pow_succ_r by lia; lia.
Qed.

(** The shape of a well-formed finite float: at most 24 bits of mantissa,
    exactly 24 above the least exponent. *)
Lemma f32_valid_finite s m e :
  f32_valid (S754_finite s m e) = true →
  (f32_emin ≤ e ≤ 104)%Z ∧ (Z.pos m < 2 ^ 24)%Z
  ∧ (f32_emin < e → 2 ^ 23 ≤ Z.pos m)%Z.
Proof.
  unfold f32_valid, valid_binary, bounded, canonical_mantissa, fexp, emin,
    prec, emax, f32_emin.
  intros [Hc%Z.eqb_eq He%Z.leb_le]%andb_prop.
  pose proof (digits2_pos_bounds m) as [Hlo Hhi].
  assert (Z.pos (digits2_pos m) ≤ 24)%Z as Hd by lia.
  split_and!; [lia..| |].
  - eapply Z.lt_le_trans; [done|]. by apply Z.pow_le_mono_r.
  - intros ?. by replace (Z.pos (digits2_pos m)) with 24%Z in Hlo by lia.
Qed.

(** At a larger exponent the value is larger. *)
Lemma f32_mantissa_lt m1 e1 m2 e2 :
  f32_valid (S754_finite false m1 e1) = true →
  f32_valid (S754_finite false m2 e2) = true →
  (e1 < e2)%Z →
  (Z.pos m1 * 2 ^ (e1 - f32_emin) < Z.pos m2 * 2 ^ (e2 - f32_emin))%Z.
Proof.
  intros (He1 & Hm1 & _)%f32_valid_finite (He2 & _ & Hm2)%f32_valid_finite Hlt.
  specialize (Hm2 ltac:(lia)).
  replace (e2 - f32_emin)%Z with (Z.succ (e2 - 1 - f32_emin)) by lia.
  rewrite Z.pow_succ_r by lia.
  assert (2 ^ (e1 - f32_emin) ≤ 2 ^ (e2 - 1 - f32_emin))%Z
    by (apply Z.pow_le_mono_r; lia).
  assert (0 < 2 ^ (e1 - f32_emin))%Z by (apply Z.pow_pos_nonneg; lia).
  nia.
Qed.

Lemma f32_mantissa_compare m1 e1 m2 e2 :
  f32_valid (S754_finite false m1 e1) = true →
  f32_valid (S754_finite false m2 e2) = true →
  match (e1 ?= e2)%Z with
  | Lt => Lt
  | Gt => Gt
  | Eq => Pos.compare_cont Eq m1 m2
  end = (Z.pos m1 * 2 ^ (e1 - f32_emin) ?= Z.pos m2 * 2 ^ (e2 - f32_emin))%Z.
Proof.
  intros Hv1 Hv2. destruct (Z.compare_spec e1 e2) as [->|Hlt|Hgt]; symmetry.
  - pose proof (f32_valid_finite _ _ _ Hv2) as (? & _ & _).
    assert (0 < 2 ^ (e2 - f32_emin))%Z by (apply Z.pow_pos_nonneg; lia).
    change (Pos.compare_cont Eq m1 m2) with (m1 ?= m2)%positive.
    destruct (Pos.compare_spec m1 m2) as [->|?|?].
    + apply Z.compare_refl.
    + apply Z.compare_lt_iff. nia.
    + apply Z.compare_gt_iff. nia.
  - by apply Z.compare_lt_iff, f32_mantissa_lt.
  - by apply Z.compare_gt_iff, f32_mantissa_lt.
Qed.

Lemma f32_valid_sign s m e :
  f32_valid (S754_finite s m e) = f32_valid (S754_finite false m e).
Proof. done. Qed.

(** The scaled value of a well-formed finite float has the sign of the
    float. *)
Lemma B2Z_finite_pos m e :
  f32_valid (S754_finite false m e) = true →
  (0 < Z.pos m * 2 ^ (e - f32_emin))%Z.
Proof.
  intros (? & _ & _)%f32_valid_finite.
  apply Z.mul_pos_pos; [done|]. apply Z.pow_pos_nonneg; lia.
Qed.

(** On valid finite floats, [SFcompare] is the comparison of the values
    (on a mantissa that is not normalised it is not). *)
Lemma SFcompare_B2Z x y :
  f32_number x = true → f32_number y = true →
  SFcompare x y = Some (B2Z x ?= B2Z y)%Z.
Proof.
  unfold f32_number.
  destruct x as [sx| | |sx mx ex], y as [sy| | |sy my ey];
    rewrite ?andb_false_r; try done; rewrite !andb_true_r;
    try rewrite (f32_valid_sign sx); try rewrite (f32_valid_sign sy);
    intros Hx Hy.
  - pose proof (B2Z_finite_pos _ _ Hy).
    destruct sy; cbn [SFcompare B2Z]; f_equal; symmetry;
      [apply Z.compare_gt_iff|apply Z.compare_lt_iff];
      rewrite <-?Pos2Z.opp_pos, ?Z.mul_opp_l; lia.
  - pose proof (B2Z_finite_pos _ _ Hx).
    destruct sx; cbn [SFcompare B2Z]; f_equal; symmetry;
      [apply Z.compare_lt_iff|apply Z.compare_gt_iff];
      rewrite <-?Pos2Z.opp_pos, ?Z.mul_opp_l; lia.
  - pose proof (B2Z_finite_pos _ _ Hx). pose proof (B2Z_finite_pos _ _ Hy).
    destruct sx, sy; cbn [SFcompare B2Z]; f_equal.
    + rewrite <-!Pos2Z.opp_pos, !Z.mul_opp_l, Z.compare_opp.
      rewrite <-(f32_mantissa_compare my ey mx ex) by done.
      rewrite (Z.compare_antisym ex ey), (Pos_compare_cont_Eq_antisym mx my).
      by destruct (ex ?= ey)%Z.
    + symmetry. apply Z.compare_lt_iff.
      rewrite <-Pos2Z.opp_pos, Z.mul_opp_l. lia.
    + symmetry. apply Z.compare_gt_iff.
      rewrite <-Pos2Z.opp_pos, Z.mul_opp_l. lia.
    + by apply f32_mantissa_compare.
Qed.

Lemma f32_lt_B2Z x y :
  f32_number x = true → f32_number y = true →
  (x <? y)%f32 = (B2Z x <? B2Z y)%Z.
Proof.
  intros Hx Hy. unfold f32_lt, SFltb, Z.ltb. by rewrite SFcompare_B2Z.
Qed.

Lemma f32_le_B2Z x y :
  f32_number x = true → f32_number y = true →
  (x <=? y)%f32 = (B2Z x <=? B2Z y)%Z.
Proof.
  intros Hx Hy. unfold f32_le, SFleb, Z.leb.
  rewrite SFcompare_B2Z by done. by destruct (_ ?= _)%Z.
Qed.

Lemma f32_eq_B2Z x y :
  f32_number x = true → f32_number y = true →
  (x =? y)%f32 = (B2Z x =? B2Z y)%Z.
Proof.
  intros Hx Hy. unfold f32_eq, SFeqb. rewrite Z.eqb_compare.
  rewrite SFcompare_B2Z by done. by destruct (_ ?= _)%Z.
Qed.

(** C23. On valid finite floats, [partial_cmp], [<], [<=] and [==] are
    the comparisons of the values: the comparisons of the loops of [next]
    are exact, only its additions and subtractions round. *)
Theorem f32_comparisons_exact x y :
  f32_number x = true → f32_number y = true →
  f32_partial_cmp x y = Some (B2Z x ?= B2Z y)%Z
  ∧ (x <? y)%f32 = (B2Z x <? B2Z y)%Z
  ∧ (x <=? y)%f32 = (B2Z x <=? B2Z y)%Z
  ∧ (x =? y)%f32 = (B2Z x =? B2Z y)%Z.
Proof.
  intros Hx Hy. split_and!;
    auto using SFcompare_B2Z, f32_lt_B2Z, f32_le_B2Z, f32_eq_B2Z.
Qed.

Lemma f32_comparisons_exact_witness :
  let x := f32_of_ratio 7 10 in
  let y := f32_of_ratio 13 10 in
  f32_partial_cmp x y = Some (B2Z x ?= B2Z y)%Z
  ∧ (x <? y)%f32 = (B2Z x <? B2Z y)%Z
  ∧ (x <=? y)%f32 = (B2Z x <=? B2Z y)%Z
  ∧ (x =? y)%f32 = (B2Z x =? B2Z y)%Z.
Proof. intros x y. by apply (f32_comparisons_exact x y). Defined.

(** The rational values are ordered as the scaled values. *)
Lemma B2Q_lt x y : (B2Q x < B2Q y)%Q ↔ (B2Z x < B2Z y)%Z.
Proof. unfold B2Q, Qlt; cbn [Qnum Qden]. nia. Qed.

Lemma B2Q_le x y : (B2Q x <= B2Q y)%Q ↔ (B2Z x ≤ B2Z y)%Z.
Proof. unfold B2Q, Qle; cbn [Qnum Qden]. nia. Qed.

Lemma B2Q_sub x y z :
  B2Z z = (B2Z x - B2Z y)%Z → (B2Q z == B2Q x - B2Q y)%Q.
Proof.
  unfold B2Q. intros ->. unfold Qeq, Qminus, Qplus, Qopp; cbn [Qnum Qden].
  rewrite Pos2Z.inj_mul. ring.
Qed.

Lemma B2Q_add x y z :
  B2Z z = (B2Z x + B2Z y)%Z → (B2Q z == B2Q x + B2Q y)%Q.
Proof.
  unfold B2Q. intros ->. unfold Qeq, Qplus; cbn [Qnum Qden].
  rewrite Pos2Z.inj_mul. ring.
Qed.
