(* ===== verification/Rounding.v ===== *)
(** * Rounding: the rounding of the Standard Library's [SpecFloat], in any format

    Every operation of [SpecFloat] ends in [binary_round_aux]: the mantissa
    is shifted right to the exponent its number of digits asks for
    ([shr_fexp]), rounded to nearest even, and shifted once more in case
    rounding carried into a new digit.  This file proves, for every
    precision and exponent range, that the result is a well-formed float
    ([valid_binary]): the mantissa has the number of digits its exponent
    requires and the exponent is in range.  It follows that addition and
    subtraction keep floats well formed. *)

From Stdlib Require Import ZArith Lia SpecFloat.
From stdpp Require Import base tactics decidable option numbers list.
From S2P Require Import Prelude Float32.

#[local] Open Scope Z_scope.

(** ** Definitions *)

(** A mantissa [m] at exponent [e] is in canonical position: [e] is the
    exponent the format gives to a number of that many digits.  For
    [m = 0] this says that [e] is the least exponent. *)
Definition canonical_at (prec emax m e : Z) : Prop :=
  (0 ≤ m)%Z ∧ fexp prec emax (Zdigits2 m + e) = e.

(** ** Digits *)

Lemma Zdigits2_log2 m : (0 < m)%Z → Zdigits2 m = (Z.log2 m + 1)%Z.
Proof.
  destruct m as [|p|p]; [done| |done]. intros _.
  pose proof (digits2_pos_bounds p). cbn [Zdigits2].
  rewrite (Z.log2_unique (Z.pos p) (Z.pos (digits2_pos p) - 1)); [lia|lia|].
  by replace (Z.succ (Z.pos (digits2_pos p) - 1)) with (Z.pos (digits2_pos p)) by lia.
Qed.

Lemma Zdigits2_nonneg m : (0 ≤ m)%Z → (0 ≤ Zdigits2 m)%Z.
Proof. by destruct m. Qed.

Lemma Zdigits2_bounds m :
  (0 < m)%Z → (2 ^ (Zdigits2 m - 1) ≤ m < 2 ^ Zdigits2 m)%Z.
Proof. destruct m as [|p|p]; [done| |done]. intros _. apply digits2_pos_bounds. Qed.

Lemma Zdigits2_mono m n : (0 ≤ m ≤ n)%Z → (Zdigits2 m ≤ Zdigits2 n)%Z.
Proof.
  intros [Hm Hn]. destruct (Z.eq_dec m 0) as [->|?].
  { apply Zdigits2_nonneg. lia. }
  rewrite !Zdigits2_log2 by lia. apply Z.add_le_mono_r, Z.log2_le_mono. lia.
Qed.

(** The digits of a quotient by a power of two. *)
Lemma Zdigits2_div m n :
  (0 ≤ n)%Z → (0 < m / 2 ^ n)%Z → Zdigits2 (m / 2 ^ n) = (Zdigits2 m - n)%Z.
Proof.
  intros Hn Hq.
  assert (0 < m)%Z as Hm.
  { destruct (Z.lt_trichotomy m 0) as [?|[->|?]]; [|by rewrite Z.div_0_l in Hq by lia|done].
    pose proof (Z.pow_pos_nonneg 2 n). pose proof (Z.div_lt_upper_bound m (2 ^ n) 0).
    lia. }
  rewrite !Zdigits2_log2 by done.
  rewrite <-Z.shiftr_div_pow2, Z.log2_shiftr by lia.
  assert (n ≤ Z.log2 m)%Z; [|lia].
  apply Z.log2_le_pow2; [done|].
  pose proof (Z.pow_pos_nonneg 2 n).
  destruct (Z.le_gt_cases (2 ^ n) m); [done|].
  rewrite Z.div_small in Hq by lia. lia.
Qed.

(** ** Shifting left *)

Lemma iter_xO_digits m d :
  digits2_pos (Pos.iter xO m d) = (digits2_pos m + d)%positive.
Proof.
  induction d as [|d IH] using Pos.peano_ind; cbn [Pos.iter digits2_pos].
  - by rewrite Pos.add_1_r.
  - rewrite Pos.iter_succ. cbn [digits2_pos]. rewrite IH. lia.
Qed.

Lemma iter_xO_value m d :
  Z.pos (Pos.iter xO m d) = (Z.pos m * 2 ^ Z.pos d)%Z.
Proof.
  induction d as [|d IH] using Pos.peano_ind; cbn [Pos.iter].
  - lia.
  - rewrite Pos.iter_succ, Pos2Z.inj_xO, IH, Pos2Z.inj_succ.
    rewrite Z.pow_succ_r by lia. lia.
Qed.

Lemma shl_align_value m e ez :
  (ez ≤ e)%Z → Z.pos (fst (shl_align m e ez)) = (Z.pos m * 2 ^ (e - ez))%Z.
Proof.
  intros He. unfold shl_align. destruct (ez - e)%Z as [|p|p] eqn:Hd; cbn [fst].
  - replace (e - ez)%Z with 0%Z by lia. lia.
  - lia.
  - rewrite iter_xO_value. f_equal. f_equal. lia.
Qed.

(** ** Shifting right *)

Lemma shr_1_m mrs : (0 ≤ shr_m mrs)%Z → shr_m (shr_1 mrs) = (shr_m mrs / 2)%Z.
Proof.
  destruct mrs as [[|[p|p|]|p] r s]; cbn [shr_1 shr_m]; intros ?; try done.
  - rewrite Pos2Z.inj_xI. apply (Z.div_unique_pos _ _ _ 1); lia.
  - rewrite Pos2Z.inj_xO. apply (Z.div_unique_pos _ _ _ 0); lia.
Qed.

Lemma iter_shr_1_m p mrs :
  (0 ≤ shr_m mrs)%Z →
  shr_m (SpecFloat.iter_pos shr_1 p mrs) = (shr_m mrs / 2 ^ Z.pos p)%Z.
Proof.
  revert mrs. induction p as [p IH|p IH|]; intros mrs Hm; cbn [SpecFloat.iter_pos].
  - assert (0 ≤ shr_m (shr_1 mrs)) as H1
      by (rewrite shr_1_m by done; apply Z.div_pos; lia).
    assert (0 ≤ shr_m (SpecFloat.iter_pos shr_1 p (shr_1 mrs))) as H2
      by (rewrite IH by done; apply Z.div_pos; lia).
    rewrite (IH _ H2), (IH _ H1), shr_1_m, !Z.div_div by lia.
    rewrite <-Z.pow_add_r, <-Z.pow_succ_r by lia. do 2 f_equal. lia.
  - assert (0 ≤ shr_m (SpecFloat.iter_pos shr_1 p mrs)) as H1
      by (rewrite IH by done; apply Z.div_pos; lia).
    rewrite (IH _ H1), (IH _ Hm), !Z.div_div by lia.
    rewrite <-Z.pow_add_r by lia. do 2 f_equal. lia.
  - by rewrite shr_1_m.
Qed.

(** The mantissa and the exponent after [shr]. *)
Lemma shr_spec mrs e n :
  (0 ≤ shr_m mrs)%Z → (0 ≤ n)%Z →
  shr_m (fst (shr mrs e n)) = (shr_m mrs / 2 ^ n)%Z
  ∧ snd (shr mrs e n) = (e + n)%Z.
Proof.
  intros Hm Hn. destruct n as [|p|p]; cbn [shr fst snd]; [|by rewrite iter_shr_1_m|done].
  rewrite Z.div_1_r. lia.
Qed.

Lemma shr_record_of_loc_m m l : shr_m (shr_record_of_loc m l) = m.
Proof. by destruct l as [|[]]. Qed.

(** [shr_fexp] puts a mantissa that has enough digits in canonical
    position. *)
Lemma shr_fexp_canonical prec emax m e l :
  (0 < prec)%Z → (0 ≤ m)%Z → (e ≤ fexp prec emax (Zdigits2 m + e))%Z →
  canonical_at prec emax (shr_m (fst (shr_fexp prec emax m e l)))
    (snd (shr_fexp prec emax m e l)).
Proof.
  intros Hprec Hm He. unfold shr_fexp.
  set (n := (fexp prec emax (Zdigits2 m + e) - e)%Z).
  destruct (shr_spec (shr_record_of_loc m l) e n) as [-> ->];
    [by rewrite shr_record_of_loc_m|lia|].
  rewrite shr_record_of_loc_m.
  assert (0 < 2 ^ n)%Z by (apply Z.pow_pos_nonneg; lia).
  assert (0 ≤ m / 2 ^ n)%Z as Hq by (apply Z.div_pos; lia).
  split; [done|].
  destruct (Z.eq_dec (m / 2 ^ n) 0) as [Hz|Hnz].
  - rewrite Hz. cbn [Zdigits2].
    assert (fexp prec emax (Zdigits2 m + e) = emin prec emax) as HF.
    { destruct (Z.eq_dec m 0) as [->|?];
        [cbn [Zdigits2] in *; unfold fexp in *; lia|].
      pose proof (Zdigits2_bounds m ltac:(lia)) as [Hlo _].
      apply Z.div_small_iff in Hz as [Hz|Hz]; [|lia..].
      assert (Zdigits2 m - 1 < n) by (apply (Z.pow_lt_mono_r_iff 2); lia).
      subst n. unfold fexp in *. lia. }
    subst n. rewrite HF. unfold fexp. lia.
  - rewrite Zdigits2_div by lia. subst n.
    replace (Zdigits2 m - (fexp prec emax (Zdigits2 m + e) - e)
             + (e + (fexp prec emax (Zdigits2 m + e) - e)))%Z
      with (Zdigits2 m + e)%Z by lia.
    lia.
Qed.

(** ** Rounding *)

Lemma round_nearest_even_cases m l :
  round_nearest_even m l = m ∨ round_nearest_even m l = (m + 1)%Z.
Proof. destruct l as [|[]]; cbn; [|destruct (IntDef.Z.even m)|..]; auto. Qed.

Lemma fexp_mono prec emax a b :
  (a ≤ b)%Z → (fexp prec emax a ≤ fexp prec emax b)%Z.
Proof. unfold fexp. lia. Qed.

(** A mantissa in canonical position is a well-formed float, provided its
    exponent is in range. *)
Lemma canonical_at_bounded prec emax m e :
  canonical_at prec emax (Z.pos m) e → (e ≤ emax - prec)%Z →
  bounded prec emax m e = true.
Proof.
  intros [_ Hc] He. unfold bounded, canonical_mantissa.
  cbn [Zdigits2] in Hc. rewrite Hc, Z.eqb_refl. by apply Z.leb_le.
Qed.

(** The result of [binary_round_aux] is well formed. *)
Lemma binary_round_aux_valid prec emax s m e l :
  (0 < prec)%Z → (0 ≤ m)%Z → (e ≤ fexp prec emax (Zdigits2 m + e))%Z →
  valid_binary prec emax (binary_round_aux prec emax s m e l) = true.
Proof.
  intros Hprec Hm He. unfold binary_round_aux.
  pose proof (shr_fexp_canonical prec emax m e l Hprec Hm He) as [Hm1 Hc1].
  destruct (shr_fexp prec emax m e l) as [mrs1 e1]. cbn [fst snd] in Hm1, Hc1.
  set (m2 := round_nearest_even (shr_m mrs1) (loc_of_shr_record mrs1)).
  assert (shr_m mrs1 ≤ m2)%Z as Hle
    by (destruct (round_nearest_even_cases (shr_m mrs1) (loc_of_shr_record mrs1));
        subst m2; lia).
  pose proof (shr_fexp_canonical prec emax m2 e1 loc_Exact Hprec) as Hc2.
  destruct (shr_fexp prec emax m2 e1 loc_Exact) as [mrs2 e2].
  cbn [fst snd] in Hc2.
  destruct (shr_m mrs2) as [|m3|m3] eqn:Hm3; [done| |].
  - destruct (e2 <=? emax - prec)%Z eqn:He2; [|done].
    apply canonical_at_bounded; [|by apply Z.leb_le].
    apply Hc2; [lia|]. rewrite <-Hc1 at 1.
    apply fexp_mono, Z.add_le_mono_r, Zdigits2_mono. lia.
  - destruct Hc2 as [Hneg _]; [lia| |lia]. rewrite <-Hc1 at 1.
    apply fexp_mono, Z.add_le_mono_r, Zdigits2_mono. lia.
Qed.

(** [shl_align] towards the canonical exponent gives [shr_fexp] enough
    digits. *)
Lemma shl_align_enough prec emax m e :
  let '(m', e') := shl_align m e (fexp prec emax (Z.pos (digits2_pos m) + e)) in
  (e' ≤ fexp prec emax (Zdigits2 (Z.pos m') + e'))%Z.
Proof.
  unfold shl_align.
  destruct (fexp prec emax (Z.pos (digits2_pos m) + e) - e)%Z as [|p|p] eqn:Hd;
    cbn [Zdigits2]; try lia.
  rewrite iter_xO_digits, Pos2Z.inj_add.
  replace (Z.pos (digits2_pos m) + Z.pos p
           + fexp prec emax (Z.pos (digits2_pos m) + e))%Z
    with (Z.pos (digits2_pos m) + e)%Z by lia.
  lia.
Qed.

Lemma binary_round_valid prec emax s m e :
  (0 < prec)%Z → valid_binary prec emax (binary_round prec emax s m e) = true.
Proof.
  intros Hprec. unfold binary_round.
  pose proof (shl_align_enough prec emax m e) as He.
  destruct (shl_align m e _) as [m' e'].
  by apply binary_round_aux_valid.
Qed.

Lemma binary_normalize_valid prec emax m e szero :
  (0 < prec)%Z →
  valid_binary prec emax (binary_normalize prec emax m e szero) = true.
Proof. intros ?. destruct m; [done|by apply binary_round_valid..]. Qed.

(** ** Rounding what is representable

    When the number to round is a float of the format, the rounding
    returns that float: shifting to its exponent loses no bit. *)

(** A canonical mantissa is left as it is. *)
Lemma binary_round_aux_canonical prec emax s m e :
  bounded prec emax m e = true →
  binary_round_aux prec emax s (Z.pos m) e loc_Exact = S754_finite s m e.
Proof.
  unfold bounded, canonical_mantissa.
  intros [Hc%Z.eqb_eq He]%andb_prop.
  unfold binary_round_aux, shr_fexp. cbn [Zdigits2].
  rewrite Hc, Z.sub_diag.
  cbn [shr shr_record_of_loc shr_m loc_of_shr_record round_nearest_even Zdigits2].
  rewrite Hc, Z.sub_diag. cbn [shr shr_record_of_loc shr_m]. by rewrite He.
Qed.

(** Shifting out bits that are zero leaves an exact record. *)
Lemma iter_shr_1_exact p q :
  SpecFloat.iter_pos shr_1 p
    {| shr_m := Z.pos (Pos.iter xO q p); shr_r := false; shr_s := false |}
  = {| shr_m := Z.pos q; shr_r := false; shr_s := false |}.
Proof.
  revert q. induction p as [p IH|p IH|]; intros q;
    cbn [SpecFloat.iter_pos Pos.iter shr_1 orb]; by rewrite ?IH.
Qed.

Lemma pos_mul_pow2 m q p :
  Z.pos m = Z.pos q * 2 ^ Z.pos p → m = Pos.iter xO q p.
Proof. rewrite <-iter_xO_value. congruence. Qed.

(** A mantissa with [n] trailing zero bits, [n] exponents below its
    canonical position. *)
Lemma binary_round_aux_exact prec emax s m q e n :
  0 ≤ n → Z.pos m = Z.pos q * 2 ^ n → bounded prec emax q (e + n) = true →
  binary_round_aux prec emax s (Z.pos m) e loc_Exact = S754_finite s q (e + n).
Proof.
  intros Hn Hm Hb. destruct n as [|p|p]; [| |done].
  { rewrite Z.add_0_r in *. replace m with q by lia.
    by apply binary_round_aux_canonical. }
  apply pos_mul_pow2 in Hm as ->.
  pose proof Hb as [Hc%Z.eqb_eq He]%andb_prop.
  unfold binary_round_aux, shr_fexp. cbn [Zdigits2].
  rewrite iter_xO_digits, Pos2Z.inj_add.
  replace (Z.pos (digits2_pos q) + Z.pos p + e)
    with (Z.pos (digits2_pos q) + (e + Z.pos p)) by lia.
  rewrite Hc. replace (e + Z.pos p - e) with (Z.pos p) by lia.
  cbn [shr shr_record_of_loc]. rewrite iter_shr_1_exact.
  cbn [shr_m loc_of_shr_record round_nearest_even Zdigits2].
  rewrite Hc, Z.sub_diag. cbn [shr shr_record_of_loc shr_m]. by rewrite He.
Qed.

Lemma Zdigits2_mul_pow2 m k :
  0 < m → 0 ≤ k → Zdigits2 (m * 2 ^ k) = Zdigits2 m + k.
Proof.
  intros Hm Hk. assert (0 < 2 ^ k) by (apply Z.pow_pos_nonneg; lia).
  rewrite !Zdigits2_log2, Z.log2_mul_pow2 by lia. lia.
Qed.

(** [binary_round] of a float of the format is that float, whatever the
    exponent at which its value is given. *)
Lemma binary_round_representable prec emax s m e q eq :
  bounded prec emax q eq = true →
  Z.pos m * 2 ^ (e - Z.min e eq) = Z.pos q * 2 ^ (eq - Z.min e eq) →
  binary_round prec emax s m e = S754_finite s q eq.
Proof.
  intros Hb Hv. pose proof Hb as [Hc%Z.eqb_eq _]%andb_prop.
  assert (Z.pos (digits2_pos m) + e = Z.pos (digits2_pos q) + eq) as Hd.
  { change (Zdigits2 (Z.pos m) + e = Zdigits2 (Z.pos q) + eq).
    destruct (Z.le_ge_cases e eq).
    - rewrite Z.min_l, Z.sub_diag, Z.mul_1_r in Hv by done.
      rewrite Hv, Zdigits2_mul_pow2 by lia. lia.
    - rewrite Z.min_r, Z.sub_diag, Z.mul_1_r in Hv by done.
      rewrite <-Hv, Zdigits2_mul_pow2 by lia. lia. }
  unfold binary_round. rewrite Hd, Hc.
  destruct (Z.lt_ge_cases e eq).
  - rewrite Z.min_l, Z.sub_diag, Z.mul_1_r in Hv by lia.
    unfold shl_align. destruct (eq - e) as [|p|p] eqn:Hp; [lia| |lia].
    replace eq with (e + Z.pos p) in * by lia.
    replace (e + Z.pos p - e) with (Z.pos p) in Hv by lia.
    by apply binary_round_aux_exact.
  - rewrite Z.min_r, Z.sub_diag, Z.mul_1_r in Hv by lia.
    pose proof (shl_align_value m e eq ltac:(lia)) as Hs.
    assert (snd (shl_align m e eq) = eq) as He
      by (unfold shl_align; destruct (eq - e) eqn:?; cbn [snd]; lia).
    destruct (shl_align m e eq) as [m' e']. cbn [fst snd] in Hs, He. subst e'.
    replace m' with q by lia. by apply binary_round_aux_canonical.
Qed.

(** ** Addition and subtraction keep floats well formed *)

Lemma SFopp_valid prec emax x :
  valid_binary prec emax (SFopp x) = valid_binary prec emax x.
Proof. by destruct x. Qed.

Lemma SFadd_valid prec emax x y :
  (0 < prec)%Z →
  valid_binary prec emax x = true → valid_binary prec emax y = true →
  valid_binary prec emax (SFadd prec emax x y) = true.
Proof.
  intros Hprec Hx Hy.
  destruct x as [sx|sx| |sx mx ex], y as [sy|sy| |sy my ey]; cbn [SFadd];
    try done; try (by destruct sx, sy); by apply binary_normalize_valid.
Qed.

Lemma SFsub_valid prec emax x y :
  (0 < prec)%Z →
  valid_binary prec emax x = true → valid_binary prec emax y = true →
  valid_binary prec emax (SFsub prec emax x y) = true.
Proof.
  intros Hprec Hx Hy.
  destruct x as [sx|sx| |sx mx ex], y as [sy|sy| |sy my ey]; cbn [SFsub];
    try done; try (by destruct sx, sy); by apply binary_normalize_valid.
Qed.

Lemma f32_add_valid x y :
  f32_valid x = true → f32_valid y = true → f32_valid (x + y)%f32 = true.
Proof. by apply SFadd_valid. Qed.

Lemma f32_sub_valid x y :
  f32_valid x = true → f32_valid y = true → f32_valid (x - y)%f32 = true.
Proof. by apply SFsub_valid. Qed.
