(* ===== verification/Float32Exact.v ===== *)
(** * Float32Exact: when binary32 addition and subtraction do not round

    [SFadd] and [SFsub] align the two mantissas at the smaller exponent, add
    them as integers and round the sum with [binary_normalize].  When the
    integer sum has at most 24 bits, [binary_normalize] only shifts it left
    to its canonical exponent: the result is the exact sum.  This covers
    Sterbenz's lemma ([x - y] is exact when [y <= x <= 2 y]) and, more to
    the point of [MarkovChain::next], the subtraction of a weight from a
    draw that is at least the weight and exceeds it by less than [2 ^ 24]
    units in the last place of the weight. *)

From Stdlib Require Import ZArith Lia SpecFloat.
From stdpp Require Import base tactics decidable option numbers list.
From S2P Require Import Prelude Float32 Rounding.

(** ** Definitions *)

(** The exponent of a finite float.  A zero fits every exponent: it is
    given the largest. *)
Definition f32_exp (x : f32) : Z :=
  match x with S754_finite _ _ e => e | _ => 104 end.

(** The bound under which a sum at the exponents of [x] and [y] is exact:
    [2 ^ 24] units of the smaller exponent, in units of [2 ^ f32_emin]. *)
Definition exact_bound (x y : f32) : Z :=
  2 ^ 24 * 2 ^ (Z.min (f32_exp x) (f32_exp y) - f32_emin).

(** ** Rounding what is representable *)

(** A mantissa of at most 24 bits is shifted left to its canonical
    exponent: the value is unchanged. *)
Lemma binary_round_exact s m e :
  (f32_emin ≤ e ≤ 104)%Z → (Z.pos m < 2 ^ 24)%Z →
  ∃ m' e', binary_round prec emax s m e = S754_finite s m' e'
           ∧ f32_valid (S754_finite s m' e') = true
           ∧ (Z.pos m' * 2 ^ (e' - f32_emin)
              = Z.pos m * 2 ^ (e - f32_emin))%Z.
Proof.
  intros He Hm. pose proof (digits2_pos_bounds m) as [Hlo Hhi].
  assert (Z.pos (digits2_pos m) ≤ 24)%Z as Hd.
  { apply Z.nlt_ge. intros Hgt.
    assert (2 ^ 24 ≤ 2 ^ (Z.pos (digits2_pos m) - 1))%Z
      by (apply Z.pow_le_mono_r; lia). lia. }
  unfold binary_round, shl_align.
  set (e' := fexp prec emax (Z.pos (digits2_pos m) + e)).
  assert (e' = Z.max (Z.pos (digits2_pos m) + e - 24) f32_emin) as He' by done.
  destruct (e' - e)%Z as [|p|p] eqn:Hp; [|lia|].
  - exists m, e. split_and!; [|by apply andb_true_intro; split;
      [apply Z.eqb_eq; fold e'; lia|apply Z.leb_le; unfold emax, prec; lia]..
      |done].
    apply binary_round_aux_canonical. apply andb_true_intro.
    split; [apply Z.eqb_eq; fold e'; lia|apply Z.leb_le; unfold emax, prec; lia].
  - assert (f32_valid (S754_finite s (Pos.iter xO m p) e') = true) as Hv.
    { apply andb_true_intro. split; [apply Z.eqb_eq|apply Z.leb_le].
      - rewrite iter_xO_digits, Pos2Z.inj_add.
        replace (Z.pos (digits2_pos m) + Z.pos p + e')%Z
          with (Z.pos (digits2_pos m) + e)%Z by lia. done.
      - unfold emax, prec. lia. }
    exists (Pos.iter xO m p), e'. split_and!; [|done|].
    + by apply binary_round_aux_canonical.
    + rewrite iter_xO_value, <-Z.mul_assoc, <-Z.pow_add_r by lia.
      f_equal. f_equal. lia.
Qed.

(** An integer of at most 24 bits at a binary32 exponent is a binary32
    number. *)
Lemma binary_normalize_exact z e :
  (f32_emin ≤ e ≤ 104)%Z → (Z.abs z < 2 ^ 24)%Z →
  f32_number (binary_normalize prec emax z e false) = true
  ∧ B2Z (binary_normalize prec emax z e false) = (z * 2 ^ (e - f32_emin))%Z.
Proof.
  intros He Hz. destruct z as [|m|m]; cbn [binary_normalize]; [done|..].
  - destruct (binary_round_exact false m e He) as (m' & e' & -> & Hv & Heq);
      [lia|]. unfold f32_number. by rewrite Hv.
  - destruct (binary_round_exact true m e He) as (m' & e' & -> & Hv & Heq);
      [lia|]. unfold f32_number. rewrite Hv. split; [done|]. cbn [B2Z].
    rewrite <-!Pos2Z.opp_pos, !Z.mul_opp_l. by f_equal.
Qed.

(** ** The operations *)

(** The aligned mantissa of a number, with its sign, at an exponent not
    above its own. *)
Lemma aligned_value s m e ez :
  (f32_emin ≤ ez ≤ e)%Z →
  (cond_Zopp s (Z.pos (fst (shl_align m e ez))) * 2 ^ (ez - f32_emin)
   = B2Z (S754_finite s m e))%Z.
Proof.
  intros He. rewrite shl_align_value by lia. cbn [B2Z].
  replace (e - f32_emin)%Z with ((e - ez) + (ez - f32_emin))%Z by lia.
  rewrite Z.pow_add_r by lia. destruct s; cbn [cond_Zopp]; lia.
Qed.

(** The integer that the operation rounds, for finite operands. *)
Lemma aligned_bound sx mx ex sy my ey z :
  f32_valid (S754_finite sx mx ex) = true →
  f32_valid (S754_finite sy my ey) = true →
  (Z.abs (z * 2 ^ (Z.min ex ey - f32_emin))
   < exact_bound (S754_finite sx mx ex) (S754_finite sy my ey))%Z →
  (f32_emin ≤ Z.min ex ey ≤ 104)%Z ∧ (Z.abs z < 2 ^ 24)%Z.
Proof.
  intros (? & _)%f32_valid_finite (? & _)%f32_valid_finite.
  unfold exact_bound. cbn [f32_exp].
  assert (0 < 2 ^ (Z.min ex ey - f32_emin))%Z by (apply Z.pow_pos_nonneg; lia).
  rewrite Z.abs_mul, (Z.abs_eq (2 ^ _)) by lia. split; [lia|nia].
Qed.

(** The subtraction is exact when the difference has at most 24 bits at
    the smaller of the two exponents. *)
Lemma f32_sub_exact x y :
  f32_number x = true → f32_number y = true →
  (Z.abs (B2Z x - B2Z y) < exact_bound x y)%Z →
  f32_number (x - y)%f32 = true ∧ B2Z (x - y)%f32 = (B2Z x - B2Z y)%Z.
Proof.
  destruct x as [sx| | |sx mx ex], y as [sy| | |sy my ey];
    try done; intros Hx Hy Hb;
    try (split; [by destruct sx, sy|];
         unfold f32_sub; destruct sx, sy; cbn [SFsub B2Z negb]; lia).
  - unfold f32_number in Hx, Hy. rewrite andb_true_r in Hx, Hy.
    pose proof Hx as (? & _)%f32_valid_finite.
    pose proof Hy as (? & _)%f32_valid_finite.
    unfold f32_sub, SFsub. set (ez := Z.min ex ey).
    set (z := (cond_Zopp sx (Z.pos (fst (shl_align mx ex ez)))
               - cond_Zopp sy (Z.pos (fst (shl_align my ey ez))))%Z).
    assert (z * 2 ^ (ez - f32_emin)
            = B2Z (S754_finite sx mx ex) - B2Z (S754_finite sy my ey))%Z
      as Hz.
    { subst z. rewrite Z.mul_sub_distr_r, !aligned_value by (subst ez; lia).
      done. }
    destruct (aligned_bound sx mx ex sy my ey z) as [He Hlt];
      [done|done|fold ez; by rewrite Hz|].
    destruct (binary_normalize_exact z ez He Hlt) as [? ->]. by split.
Qed.

(** A number of positive value is a positive finite float. *)
Lemma B2Z_pos_finite x :
  f32_number x = true → (0 < B2Z x)%Z →
  ∃ m e, x = S754_finite false m e ∧ f32_valid x = true.
Proof.
  destruct x as [| | |[] m e]; try done; cbn [B2Z]; intros Hx Hpos.
  - apply andb_prop in Hx as [Hv%f32_valid_finite _].
    assert (0 < 2 ^ (e - f32_emin))%Z by (apply Z.pow_pos_nonneg; lia). lia.
  - apply andb_prop in Hx as [Hv _]. eauto.
Qed.

(** The exponent grows with the value. *)
Lemma f32_exp_mono x y :
  f32_number x = true → f32_number y = true →
  (0 < B2Z y ≤ B2Z x)%Z → (f32_exp y ≤ f32_exp x)%Z.
Proof.
  intros Hx Hy [Hpos Hle].
  destruct (B2Z_pos_finite y Hy Hpos) as (my & ey & -> & Hvy).
  destruct (B2Z_pos_finite x Hx) as (mx & ex & -> & Hvx); [lia|].
  cbn [f32_exp]. apply Z.nlt_ge. intros Hlt.
  pose proof (f32_mantissa_lt mx ex my ey Hvx Hvy Hlt). cbn [B2Z] in Hle. lia.
Qed.

(** The bound at the exponent of a number is above the number. *)
Lemma exact_bound_self x :
  f32_number x = true →
  (Z.abs (B2Z x) < 2 ^ 24 * 2 ^ (f32_exp x - f32_emin))%Z.
Proof.
  destruct x as [| | |s m e]; try done; intros Hx.
  apply andb_prop in Hx as [(? & ? & _)%f32_valid_finite _].
  cbn [B2Z f32_exp].
  assert (0 < 2 ^ (e - f32_emin))%Z by (apply Z.pow_pos_nonneg; lia).
  destruct s; nia.
Qed.

(** The subtraction of the selection loop: a weight [w] taken off a draw
    [r] that is at least [w], when what is left is below [2 ^ 24] units in
    the last place of [w]. *)
Lemma f32_sub_draw r w :
  f32_number r = true → f32_number w = true →
  (0 < B2Z w ≤ B2Z r)%Z →
  (B2Z r - B2Z w < 2 ^ 24 * 2 ^ (f32_exp w - f32_emin))%Z →
  f32_number (r - w)%f32 = true ∧ B2Z (r - w)%f32 = (B2Z r - B2Z w)%Z.
Proof.
  intros Hr Hw Hle Hlt. apply f32_sub_exact; [done..|].
  unfold exact_bound. rewrite Z.min_r by by apply f32_exp_mono. lia.
Qed.

(** The bound is positive. *)
Lemma exact_bound_pos x y :
  f32_number x = true → f32_number y = true → (0 < exact_bound x y)%Z.
Proof.
  intros Hx Hy. unfold exact_bound. apply Z.mul_pos_pos; [done|].
  apply Z.pow_pos_nonneg; [done|].
  destruct x as [| | |? ? ex], y as [| | |? ? ey]; try done; cbn;
    repeat match goal with
      | H : f32_number (S754_finite _ _ _) = true |- _ =>
          apply andb_prop in H as [(? & _)%f32_valid_finite _]
      end; unfold f32_emin in *; lia.
Qed.

(** C22. Sterbenz's lemma for binary32: when [y <= x <= 2 y], the
    difference fits 24 bits at the smaller exponent, and the subtraction
    [x - y] does not round. *)
Theorem f32_sub_sterbenz x y :
  f32_number x = true → f32_number y = true →
  (0 ≤ B2Z y ≤ B2Z x)%Z → (B2Z x ≤ 2 * B2Z y)%Z →
  (B2Z x - B2Z y < exact_bound x y)%Z
  ∧ f32_number (x - y)%f32 = true
  ∧ B2Z (x - y)%f32 = (B2Z x - B2Z y)%Z.
Proof.
  intros Hx Hy [Hy0 Hle] Hle2.
  assert (B2Z x - B2Z y < exact_bound x y)%Z as Hb.
  { destruct (Z.eq_dec (B2Z y) 0%Z) as [Hz|Hnz].
    - pose proof (exact_bound_pos x y Hx Hy). lia.
    - unfold exact_bound. rewrite Z.min_r by (apply f32_exp_mono; [done..|lia]).
      pose proof (exact_bound_self y Hy). lia. }
  split; [done|]. apply f32_sub_exact; [done..|lia].
Qed.

Lemma f32_sub_sterbenz_witness :
  let x := f32_of_ratio 13 10 in
  let y := f32_of_ratio 7 10 in
  (B2Z x - B2Z y < exact_bound x y)%Z
  ∧ f32_number (x - y)%f32 = true
  ∧ B2Z (x - y)%f32 = (B2Z x - B2Z y)%Z.
Proof. intros x y. by apply (f32_sub_sterbenz x y). Defined.

(** A draw between zero and a finite bound is a number when it is well
    formed. *)
Lemma f32_between_number r t :
  f32_valid r = true → (f32_zero <=? r)%f32 = true → (r <? t)%f32 = true →
  f32_number r = true.
Proof.
  unfold f32_number. intros -> Hlo Hhi.
  by destruct r as [|[]| |], t as [|[]| |[]].
Qed.

(** The addition is exact under the same bound on the sum. *)
Lemma f32_add_exact x y :
  f32_number x = true → f32_number y = true →
  (Z.abs (B2Z x + B2Z y) < exact_bound x y)%Z →
  f32_number (x + y)%f32 = true ∧ B2Z (x + y)%f32 = (B2Z x + B2Z y)%Z.
Proof.
  destruct x as [sx| | |sx mx ex], y as [sy| | |sy my ey];
    try done; intros Hx Hy Hb;
    try (split; [by destruct sx, sy|];
         unfold f32_add; destruct sx, sy; cbn [SFadd B2Z]; lia).
  - unfold f32_number in Hx, Hy. rewrite andb_true_r in Hx, Hy.
    pose proof Hx as (? & _)%f32_valid_finite.
    pose proof Hy as (? & _)%f32_valid_finite.
    unfold f32_add, SFadd. set (ez := Z.min ex ey).
    set (z := (cond_Zopp sx (Z.pos (fst (shl_align mx ex ez)))
               + cond_Zopp sy (Z.pos (fst (shl_align my ey ez))))%Z).
    assert (z * 2 ^ (ez - f32_emin)
            = B2Z (S754_finite sx mx ex) + B2Z (S754_finite sy my ey))%Z
      as Hz.
    { subst z. rewrite Z.mul_add_distr_r, !aligned_value by (subst ez; lia).
      done. }
    destruct (aligned_bound sx mx ex sy my ey z) as [He Hlt];
      [done|done|fold ez; by rewrite Hz|].
    destruct (binary_normalize_exact z ez He Hlt) as [? ->]. by split.
Qed.
