(* ===== verification/RoundingOrder.v ===== *)
(** * RoundingOrder: rounding keeps the order with the floats of the format

    A number that is rounded stays on its side of every number that the
    format represents: if [r] is a float and [r <= v] then [r <= round v],
    and if [v <= r] then [round v <= r].  It is proved here from the
    definition of the Standard Library's [binary_round_aux], for every
    precision and exponent range, on values written as an integer mantissa
    at an exponent that is not below the least one.

    For binary32 it gives what the two loops of [MarkovChain::next] need on
    weights that are not negative: a sum is at least each of its terms (or
    the infinity), and a difference [r - w] with [w <= r] is a number
    between zero and [r]. *)

From Stdlib Require Import ZArith Lia SpecFloat.
From stdpp Require Import base tactics decidable option numbers list.
From S2P Require Import Prelude Float32 Rounding Float32Exact.

#[local] Open Scope Z_scope.

(** ** Definitions *)

(** The value of the mantissa [m] at the exponent [e], in units of the
    least exponent of the format. *)
Definition scaled (prec emax m e : Z) : Z := m * 2 ^ (e - emin prec emax).

(** What [binary_round_aux] returns for the mantissa [m3] at the exponent
    [e3] that its second shift leaves. *)
Definition round_result (prec emax : Z) (s : bool) (m3 e3 : Z) : spec_float :=
  match m3 with
  | Z0 => S754_zero s
  | Zpos m => if e3 <=? emax - prec then S754_finite s m e3 else S754_infinity s
  | Zneg _ => S754_nan
  end.

(** A binary32 number that is not negative. *)
Definition f32_nonneg (x : f32) : Prop := f32_number x = true ∧ 0 ≤ B2Z x.

(** The unit in the last place of a finite float, in units of
    [2 ^ f32_emin] (0 for a zero, which no subtraction from it rounds). *)
Definition f32_ulp (x : f32) : Z :=
  match x with S754_finite _ _ e => 2 ^ (e - f32_emin) | _ => 0 end.

#[export] Instance f32_nonneg_dec x : Decision (f32_nonneg x).
Proof. unfold f32_nonneg. apply _. Defined.

(** ** Scaled values *)

Section order.
Context (prec emax : Z) (Hprec : 0 < prec).

#[local] Abbreviation emin := (SpecFloat.emin prec emax).
#[local] Abbreviation value := (scaled prec emax).
#[local] Abbreviation canonical := (canonical_at prec emax).
#[local] Abbreviation fexp := (SpecFloat.fexp prec emax).

Lemma canonical_at_emin m e : canonical m e → emin ≤ e.
Proof. unfold canonical_at, SpecFloat.fexp. lia. Qed.

Lemma canonical_at_zero e : canonical 0 e → e = emin.
Proof. unfold canonical_at, SpecFloat.fexp. cbn [Zdigits2]. lia. Qed.

Lemma pow2_pos n : 0 ≤ n → 0 < 2 ^ n.
Proof. intros. by apply Z.pow_pos_nonneg. Qed.

Lemma scaled_pos m e : 0 < m → emin ≤ e → 0 < value m e.
Proof. intros. apply Z.mul_pos_pos; [done|]. apply pow2_pos. lia. Qed.

Lemma scaled_le m n e : emin ≤ e → m ≤ n → value m e ≤ value n e.
Proof.
  intros. apply Z.mul_le_mono_nonneg_r; [|done].
  apply Z.lt_le_incl, pow2_pos. lia.
Qed.

Lemma scaled_lt_inv m n e : emin ≤ e → value m e < value n e → m < n.
Proof.
  intros He H. apply (Z.mul_lt_mono_pos_r (2 ^ (e - emin))); [|done].
  apply pow2_pos. lia.
Qed.

(** The same value at a lower exponent. *)
Lemma scaled_shift m e n :
  0 ≤ n → emin ≤ e → value (m * 2 ^ n) e = value m (e + n).
Proof.
  intros Hn He. unfold scaled.
  replace (e + n - emin) with (n + (e - emin)) by lia.
  rewrite Z.pow_add_r by lia. lia.
Qed.

(** Shifting right loses the low bits, and less than one unit. *)
Lemma scaled_div m e n :
  0 ≤ n → emin ≤ e →
  value (m / 2 ^ n) (e + n) ≤ value m e < value (m / 2 ^ n + 1) (e + n).
Proof.
  intros Hn He. rewrite <-!scaled_shift by done.
  pose proof (pow2_pos n Hn) as Hp.
  pose proof (Z.mul_div_le m (2 ^ n) Hp).
  pose proof (Z.mul_succ_div_gt m (2 ^ n) Hp).
  pose proof (pow2_pos (e - emin) ltac:(lia)).
  unfold scaled. nia.
Qed.

(** A larger value has at least as many digits before the point. *)
Lemma scaled_digits a ea b eb :
  0 < a → 0 < b → emin ≤ ea → emin ≤ eb →
  value a ea ≤ value b eb → Zdigits2 a + ea ≤ Zdigits2 b + eb.
Proof.
  intros Ha Hb Hea Heb Hle.
  pose proof (Zdigits2_bounds a Ha) as [Hlo _].
  pose proof (Zdigits2_bounds b Hb) as [_ Hhi].
  pose proof (Zdigits2_nonneg b ltac:(lia)).
  assert (1 ≤ Zdigits2 a) by (rewrite Zdigits2_log2 by done; pose proof (Z.log2_nonneg a); lia).
  assert (2 ^ (Zdigits2 a - 1 + (ea - emin)) < 2 ^ (Zdigits2 b + (eb - emin))) as Hpow.
  { rewrite !Z.pow_add_r by lia.
    pose proof (pow2_pos (ea - emin) ltac:(lia)).
    pose proof (pow2_pos (eb - emin) ltac:(lia)).
    unfold value in Hle. nia. }
  apply Z.pow_lt_mono_r_iff in Hpow; lia.
Qed.

(** ** The floats on either side of a value *)

(** A float above a mantissa at a lower exponent is at least the next
    mantissa at that exponent. *)
Lemma scaled_succ_le M e' q eq :
  emin ≤ e' ≤ eq → value M e' < value q eq → value (M + 1) e' ≤ value q eq.
Proof.
  intros He Hlt. replace eq with (e' + (eq - e')) in * by lia.
  rewrite <-scaled_shift in * by lia.
  apply scaled_lt_inv in Hlt; [|lia]. apply scaled_le; lia.
Qed.

(** Shifting a value right to its canonical exponent keeps it at or above
    every float below it. *)
Lemma floor_ge q eq m e :
  0 < q → canonical q eq → 0 < m → emin ≤ e →
  e ≤ fexp (Zdigits2 m + e) → value q eq ≤ value m e →
  value q eq
  ≤ value (m / 2 ^ (fexp (Zdigits2 m + e) - e)) (fexp (Zdigits2 m + e)).
Proof.
  intros Hq [_ Hcq] Hm He Hn Hle.
  set (e' := fexp (Zdigits2 m + e)) in *. set (n := e' - e).
  pose proof (scaled_div m e n ltac:(lia) He) as [_ Hup].
  replace (e + n) with e' in Hup by lia.
  destruct (Z.le_gt_cases e' eq) as [Hee|Hee].
  - apply Z.nlt_ge. intros Hlt.
    apply scaled_succ_le in Hlt; [lia|]. unfold SpecFloat.fexp in *. lia.
  - assert (Zdigits2 q + eq < Zdigits2 m + e) as Hd.
    { apply Z.nle_gt. intros Hd%(fexp_mono prec emax). lia. }
    assert (e' = Zdigits2 m + e - prec) as He'
      by (unfold SpecFloat.fexp in *; lia).
    pose proof (Zdigits2_bounds m Hm) as [Hlo _].
    pose proof (Zdigits2_bounds q Hq) as [_ Hhi].
    pose proof (Zdigits2_nonneg q ltac:(lia)).
    assert (emin ≤ eq) by (unfold SpecFloat.fexp in *; lia).
    assert (2 ^ (prec - 1) ≤ m / 2 ^ n) as HM.
    { apply Z.div_le_lower_bound; [apply pow2_pos; lia|].
      rewrite <-Z.pow_add_r by lia.
      by replace (n + (prec - 1)) with (Zdigits2 m - 1) by lia. }
    apply Z.lt_le_incl. apply Z.lt_le_trans with (2 ^ (Zdigits2 q + (eq - emin))).
    { rewrite Z.pow_add_r by lia. unfold scaled.
      apply Z.mul_lt_mono_pos_r; [apply pow2_pos; lia|done]. }
    apply Z.le_trans with (2 ^ (prec - 1 + (e' - emin))).
    { apply Z.pow_le_mono_r; lia. }
    rewrite Z.pow_add_r by lia. unfold scaled.
    apply Z.mul_le_mono_nonneg_r; [apply Z.lt_le_incl, pow2_pos; lia|done].
Qed.

(** A canonical mantissa below a float has an exponent that is not above
    that of the float. *)
Lemma canonical_at_exponent_le M e' q eq :
  0 ≤ M → canonical M e' → 0 < q → canonical q eq →
  value M e' ≤ value q eq → e' ≤ eq.
Proof.
  intros HM HcM Hq Hcq Hle.
  destruct (Z.eq_dec M 0) as [->|?].
  { apply canonical_at_zero in HcM as ->. by eapply canonical_at_emin. }
  pose proof (canonical_at_emin _ _ HcM). pose proof (canonical_at_emin _ _ Hcq).
  assert (Zdigits2 M + e' ≤ Zdigits2 q + eq) as Hd%(fexp_mono prec emax)
    by (apply scaled_digits; lia).
  destruct HcM as [_ HcM], Hcq as [_ Hcq]. lia.
Qed.

(** A float above a canonical mantissa is at least the next mantissa. *)
Lemma ceil_le M e' q eq :
  0 ≤ M → canonical M e' → 0 < q → canonical q eq →
  value M e' < value q eq → value (M + 1) e' ≤ value q eq.
Proof.
  intros HM HcM Hq Hcq Hlt. apply scaled_succ_le; [|done].
  split; [by eapply canonical_at_emin|].
  eapply canonical_at_exponent_le; [done..|lia].
Qed.

(** ** The steps of [binary_round_aux] *)

(** Shifting right a mantissa whose low bits are zero leaves an exact
    record. *)
Lemma shr_exact m m1 e n :
  0 < m → 0 ≤ n → m = m1 * 2 ^ n →
  fst (shr (shr_record_of_loc m loc_Exact) e n)
  = {| shr_m := m1; shr_r := false; shr_s := false |}.
Proof.
  intros Hm Hn ->.
  destruct n as [|p|p]; cbn [shr fst shr_record_of_loc]; [|clear Hn|done].
  { by rewrite Z.mul_1_r. }
  pose proof (pow2_pos (Z.pos p) ltac:(done)).
  destruct m1 as [|q|q]; [lia| |lia].
  rewrite <-iter_xO_value. apply iter_shr_1_exact.
Qed.

(** [binary_round_aux] in three steps: the mantissa is shifted to its
    canonical exponent [e1], rounded to [m2], and shifted once more. *)
Lemma binary_round_aux_spec s m e l :
  0 < m → e ≤ fexp (Zdigits2 m + e) →
  let e1 := fexp (Zdigits2 m + e) in
  let m1 := m / 2 ^ (e1 - e) in
  ∃ m2, (m2 = m1 ∨ m2 = m1 + 1)
        ∧ (l = loc_Exact → m = m1 * 2 ^ (e1 - e) → m2 = m1)
        ∧ canonical m1 e1
        ∧ let e3 := fexp (Zdigits2 m2 + e1) in
          let m3 := m2 / 2 ^ (e3 - e1) in
          e1 ≤ e3 ∧ canonical m3 e3
          ∧ binary_round_aux prec emax s m e l = round_result prec emax s m3 e3.
Proof.
  intros Hm He e1 m1. unfold binary_round_aux.
  pose proof (shr_fexp_canonical prec emax m e l Hprec ltac:(lia) He) as Hc1.
  unfold shr_fexp in *. fold e1 in Hc1 |- *.
  pose proof (shr_spec (shr_record_of_loc m l) e (e1 - e)) as [Hm1 He1];
    [rewrite shr_record_of_loc_m; lia|lia|].
  rewrite shr_record_of_loc_m in Hm1. fold m1 in Hm1.
  destruct (shr (shr_record_of_loc m l) e (e1 - e)) as [mrs1 e1'] eqn:Hshr.
  cbn [fst snd] in *. replace e1' with e1 in * by lia. rewrite Hm1 in *.
  set (m2 := round_nearest_even m1 (loc_of_shr_record mrs1)).
  assert (0 ≤ m1) by (apply Z.div_pos; [lia|apply pow2_pos; lia]).
  assert (m2 = m1 ∨ m2 = m1 + 1) as Hm2 by apply round_nearest_even_cases.
  assert (e1 ≤ fexp (Zdigits2 m2 + e1)) as He3.
  { destruct Hc1 as [_ Hc1]. rewrite <-Hc1 at 1.
    apply fexp_mono, Z.add_le_mono_r, Zdigits2_mono. lia. }
  exists m2. split; [done|]. split; [|split; [done|]].
  { intros -> Heq. pose proof (shr_exact m m1 e (e1 - e) Hm ltac:(lia) Heq) as Hex.
    rewrite Hshr in Hex. cbn [fst] in Hex. subst m2. by rewrite Hex. }
  pose proof (shr_fexp_canonical prec emax m2 e1 loc_Exact Hprec ltac:(lia) He3)
    as Hc3.
  unfold shr_fexp in *.
  pose proof (shr_spec (shr_record_of_loc m2 loc_Exact) e1
                (fexp (Zdigits2 m2 + e1) - e1)) as [Hm3 He3'];
    [cbn; lia|lia|].
  destruct (shr (shr_record_of_loc m2 loc_Exact) e1 _) as [mrs3 e3'].
  cbn [fst snd shr_record_of_loc shr_m] in *.
  replace e3' with (fexp (Zdigits2 m2 + e1)) in * by lia. rewrite Hm3 in *.
  done.
Qed.

(** ** Rounding and the floats of the format *)

(** A float below the value is below the rounded value. *)
Lemma binary_round_aux_ge s m e l q eq :
  0 < m → emin ≤ e → e ≤ fexp (Zdigits2 m + e) →
  0 < q → canonical q eq → value q eq ≤ value m e →
  ∃ m3 e3, binary_round_aux prec emax s m e l = round_result prec emax s m3 e3
           ∧ canonical m3 e3 ∧ value q eq ≤ value m3 e3.
Proof.
  intros Hm Hemin He Hq Hcq Hle.
  destruct (binary_round_aux_spec s m e l Hm He)
    as (m2 & Hm2 & _ & Hc1 & He3 & Hc3 & ->).
  eexists _, _. split_and!; [done..|].
  pose proof (floor_ge q eq m e Hq Hcq Hm Hemin He Hle) as H1.
  pose proof (canonical_at_emin _ _ Hc1) as Hemin1.
  pose proof (scaled_pos q eq Hq (canonical_at_emin _ _ Hcq)).
  assert (value q eq ≤ value m2 (fexp (Zdigits2 m + e))) as H2.
  { etrans; [done|]. apply scaled_le; [done|lia]. }
  assert (0 < m2).
  { apply (scaled_lt_inv 0 m2 (fexp (Zdigits2 m + e))); [done|].
    unfold value at 1. lia. }
  by apply floor_ge.
Qed.

(** A float above the value is above the rounded value, which does not
    overflow and exceeds the value by less than a unit in the last place
    of the float. *)
Lemma binary_round_aux_le s m e q eq :
  0 < m → emin ≤ e → e ≤ fexp (Zdigits2 m + e) →
  0 < q → canonical q eq → value m e ≤ value q eq →
  ∃ m3 e3,
    binary_round_aux prec emax s m e loc_Exact = round_result prec emax s m3 e3
    ∧ canonical m3 e3 ∧ value m3 e3 ≤ value q eq ∧ e3 ≤ eq
    ∧ value m3 e3 ≤ value m e + 2 ^ (eq - emin).
Proof.
  intros Hm Hemin He Hq Hcq Hle.
  destruct (binary_round_aux_spec s m e loc_Exact Hm He)
    as (m2 & Hm2 & Hex & Hc1 & He3 & Hc3 & ->).
  set (e1 := fexp (Zdigits2 m + e)) in *. set (m1 := m / 2 ^ (e1 - e)) in *.
  set (e3 := fexp (Zdigits2 m2 + e1)) in *.
  pose proof (canonical_at_emin _ _ Hc1) as Hemin1.
  pose proof (scaled_div m e (e1 - e) ltac:(lia) Hemin) as [Hlo _].
  replace (e + (e1 - e)) with e1 in Hlo by lia. fold m1 in Hlo.
  assert (value m2 e1 ≤ value q eq) as H2.
  { destruct (Z.eq_dec m (m1 * 2 ^ (e1 - e))) as [Heq|Hne].
    - rewrite (Hex eq_refl Heq). lia.
    - assert (value m1 e1 < value m e).
      { apply Z.le_neq. split; [done|]. intros Hs. apply Hne.
        assert (value m1 e1 = value (m1 * 2 ^ (e1 - e)) e) as Hsh
          by (rewrite scaled_shift by lia; f_equal; lia).
        rewrite Hsh in Hs.
        pose proof (pow2_pos (e - emin) ltac:(lia)).
        apply Z.mul_cancel_r in Hs; [done|lia]. }
      etrans; [|apply (ceil_le m1 e1 q eq); [apply Hc1|done..|lia]].
      apply scaled_le; [done|lia]. }
  assert (0 ≤ m2) by (destruct Hc1; lia).
  pose proof (scaled_div m2 e1 (e3 - e1) ltac:(lia) Hemin1) as [Hlo3 _].
  replace (e1 + (e3 - e1)) with e3 in Hlo3 by lia.
  assert (value (m2 / 2 ^ (e3 - e1)) e3 ≤ value q eq) by lia.
  eexists _, _. split_and!; [done..| |].
  { eapply canonical_at_exponent_le; [|done..]. by destruct Hc3. }
  assert (e1 ≤ eq) as He1
    by (eapply (canonical_at_exponent_le m1); [by destruct Hc1|done..|lia]).
  assert (value m2 e1 ≤ value m1 e1 + 2 ^ (e1 - emin)) as Hm2'.
  { etrans; [apply (scaled_le m2 (m1 + 1)); [done|lia]|].
    unfold scaled. lia. }
  assert (2 ^ (e1 - emin) ≤ 2 ^ (eq - emin)) by (apply Z.pow_le_mono_r; lia).
  lia.
Qed.

(** [shl_align] keeps the value. *)
Lemma shl_align_scaled m e t :
  emin ≤ e → emin ≤ t →
  value (Z.pos (shl_align m e t).1) (shl_align m e t).2 = value (Z.pos m) e
  ∧ emin ≤ (shl_align m e t).2.
Proof.
  intros He Ht. unfold shl_align.
  destruct (t - e) as [|p|p] eqn:Hp; cbn [fst snd]; [done..|].
  split; [|done]. rewrite iter_xO_value, scaled_shift by lia. f_equal. lia.
Qed.

(** [binary_round] ends in [round_result] of a canonical mantissa. *)
Lemma binary_round_result s m e :
  ∃ m3 e3, binary_round prec emax s m e = round_result prec emax s m3 e3
           ∧ canonical m3 e3.
Proof.
  unfold binary_round. pose proof (shl_align_enough prec emax m e) as Hn.
  destruct (shl_align m e _) as [m' e'].
  destruct (binary_round_aux_spec s (Z.pos m') e' loc_Exact ltac:(done) Hn)
    as (m2 & _ & _ & _ & _ & Hc3 & ->).
  by eexists _, _.
Qed.

(** The two bounds for [binary_round]. *)
Lemma binary_round_ge s m e q eq :
  emin ≤ e → 0 < q → canonical q eq → value q eq ≤ value (Z.pos m) e →
  ∃ m3 e3, binary_round prec emax s m e = round_result prec emax s m3 e3
           ∧ canonical m3 e3 ∧ value q eq ≤ value m3 e3.
Proof.
  intros He Hq Hcq Hle. unfold binary_round.
  pose proof (shl_align_enough prec emax m e) as Hn.
  pose proof (shl_align_scaled m e (fexp (Z.pos (digits2_pos m) + e)) He
                ltac:(unfold SpecFloat.fexp; lia)) as [Hv He'].
  destruct (shl_align m e _) as [m' e']. cbn [fst snd] in Hv, He'.
  apply binary_round_aux_ge; [done..|by rewrite Hv].
Qed.

Lemma binary_round_le s m e q eq :
  emin ≤ e → 0 < q → canonical q eq → value (Z.pos m) e ≤ value q eq →
  ∃ m3 e3, binary_round prec emax s m e = round_result prec emax s m3 e3
           ∧ canonical m3 e3 ∧ value m3 e3 ≤ value q eq ∧ e3 ≤ eq
           ∧ value m3 e3 ≤ value (Z.pos m) e + 2 ^ (eq - emin).
Proof.
  intros He Hq Hcq Hle. unfold binary_round.
  pose proof (shl_align_enough prec emax m e) as Hn.
  pose proof (shl_align_scaled m e (fexp (Z.pos (digits2_pos m) + e)) He
                ltac:(unfold SpecFloat.fexp; lia)) as [Hv He'].
  destruct (shl_align m e _) as [m' e']. cbn [fst snd] in Hv, He'.
  rewrite <-Hv. apply binary_round_aux_le; [done..|by rewrite Hv].
Qed.

End order.

(** ** Binary32 *)

Lemma f32_nonneg_finite s m e :
  f32_nonneg (S754_finite s m e) →
  s = false ∧ f32_valid (S754_finite false m e) = true.
Proof.
  unfold f32_nonneg, f32_number. rewrite andb_true_r, (f32_valid_sign s).
  intros [Hv Hs]. split; [|done]. pose proof (B2Z_finite_pos m e Hv).
  destruct s; [|done]. cbn [B2Z] in Hs. rewrite <-Pos2Z.opp_pos, Z.mul_opp_l in Hs.
  lia.
Qed.

Lemma f32_valid_canonical s m e :
  f32_valid (S754_finite s m e) = true →
  canonical_at prec emax (Z.pos m) e ∧ f32_emin ≤ e ≤ 104.
Proof.
  intros Hv. pose proof Hv as (? & _)%f32_valid_finite. split; [|done].
  unfold f32_valid, valid_binary, bounded, canonical_mantissa in Hv.
  apply andb_prop in Hv as [Hc%Z.eqb_eq _]. by split.
Qed.

(** The result of a rounding is the infinity or a number of the value of
    its mantissa. *)
Lemma round_result_f32 m3 e3 :
  canonical_at prec emax m3 e3 →
  let r := round_result prec emax false m3 e3 in
  (r = S754_infinity false ∧ 104 < e3)
  ∨ (f32_nonneg r ∧ B2Z r = scaled prec emax m3 e3 ∧ e3 ≤ 104).
Proof.
  intros Hc r. subst r. pose proof (canonical_at_emin _ _ _ _ Hc) as He.
  destruct m3 as [|m|m]; cbn [round_result].
  - right. apply canonical_at_zero in Hc as ->; [|done]. by split_and!.
  - change (emax - prec) with 104. destruct (Z.leb_spec e3 104); [right|by left].
    assert (f32_valid (S754_finite false m e3) = true) as Hv
      by (by apply canonical_at_bounded).
    pose proof (B2Z_finite_pos m e3 Hv).
    split_and!; [|reflexivity|done].
    split; [unfold f32_number; by rewrite Hv|cbn [B2Z]; lia].
  - by destruct Hc.
Qed.

(** A number below the value is below the rounded value, which may be the
    infinity. *)
Lemma f32_round_ge m e q eq :
  f32_emin ≤ e → f32_valid (S754_finite false q eq) = true →
  B2Z (S754_finite false q eq) ≤ Z.pos m * 2 ^ (e - f32_emin) →
  let r := binary_round prec emax false m e in
  r = S754_infinity false
  ∨ (f32_nonneg r ∧ B2Z (S754_finite false q eq) ≤ B2Z r).
Proof.
  intros He [Hc _]%f32_valid_canonical Hle r.
  destruct (binary_round_ge prec emax ltac:(done) false m e (Z.pos q) eq)
    as (m3 & e3 & Hr & Hc3 & Hge); [done..|].
  subst r. rewrite Hr.
  destruct (round_result_f32 m3 e3 Hc3) as [[-> _]|(Hn & -> & _)];
    [by left|by right].
Qed.

(** A number above the value is above the rounded value, which is a
    number. *)
Lemma f32_round_le m e q eq :
  f32_emin ≤ e → f32_valid (S754_finite false q eq) = true →
  Z.pos m * 2 ^ (e - f32_emin) ≤ B2Z (S754_finite false q eq) →
  let r := binary_round prec emax false m e in
  f32_nonneg r ∧ B2Z r ≤ B2Z (S754_finite false q eq)
  ∧ B2Z r ≤ Z.pos m * 2 ^ (e - f32_emin) + 2 ^ (eq - f32_emin).
Proof.
  intros He [Hc Heq]%f32_valid_canonical Hle r.
  destruct (binary_round_le prec emax ltac:(done) false m e (Z.pos q) eq)
    as (m3 & e3 & Hr & Hc3 & Hge & He3 & Hulp); [done..|].
  subst r. rewrite Hr.
  destruct (round_result_f32 m3 e3 Hc3) as [[_ ?]|(Hn & -> & _)]; [lia|done].
Qed.

(** ** Sums and differences of numbers that are not negative *)

Lemma f32_nonneg_zero s : f32_nonneg (S754_zero s).
Proof. done. Qed.

(** A sum is the infinity or a number that is at least each term. *)
Lemma f32_add_nonneg x y :
  f32_nonneg x → f32_nonneg y →
  (x + y)%f32 = S754_infinity false
  ∨ (f32_nonneg (x + y)%f32
     ∧ B2Z x ≤ B2Z (x + y)%f32 ∧ B2Z y ≤ B2Z (x + y)%f32).
Proof.
  destruct x as [sx| | |sx mx ex], y as [sy| | |sy my ey]; intros Hx Hy;
    try (by destruct Hx); try (by destruct Hy).
  - right. by destruct sx, sy.
  - right. destruct Hy. by split_and!.
  - right. destruct Hx. by split_and!.
  - pose proof Hx as [-> Hvx]%f32_nonneg_finite.
    pose proof Hy as [-> Hvy]%f32_nonneg_finite.
    pose proof Hvx as [_ ?]%f32_valid_canonical.
    pose proof Hvy as [_ ?]%f32_valid_canonical.
    unfold f32_add, SFadd. set (ez := Z.min ex ey).
    pose proof (aligned_value false mx ex ez ltac:(lia)) as Hax.
    pose proof (aligned_value false my ey ez ltac:(lia)) as Hay.
    cbn [cond_Zopp Z.add binary_normalize] in *.
    destruct Hx as [_ Hx], Hy as [_ Hy].
    set (m := ((shl_align mx ex ez).1 + (shl_align my ey ez).1)%positive).
    assert (Z.pos m * 2 ^ (ez - f32_emin)
            = B2Z (S754_finite false mx ex) + B2Z (S754_finite false my ey))
      as Hm by (subst m; rewrite Pos2Z.inj_add; lia).
    destruct (f32_round_ge m ez mx ex) as [?|[? ?]]; [lia|done|lia|by left|].
    destruct (f32_round_ge m ez my ey) as [?|[? ?]]; [lia|done|lia|by left|].
    by right.
Qed.

(** A difference [r - w] with [w <= r] is a number between zero and
    [r], less than a unit in the last place of [r] above the exact
    difference. *)
Lemma f32_sub_nonneg r w :
  f32_nonneg r → f32_nonneg w → B2Z w ≤ B2Z r →
  f32_nonneg (r - w)%f32 ∧ B2Z (r - w)%f32 ≤ B2Z r
  ∧ B2Z (r - w)%f32 ≤ B2Z r - B2Z w + f32_ulp r.
Proof.
  destruct r as [sx| | |sx mx ex], w as [sy| | |sy my ey]; intros Hx Hy Hle;
    try (by destruct Hx); try (by destruct Hy).
  - by destruct sx, sy.
  - pose proof Hy as [-> Hvy]%f32_nonneg_finite.
    pose proof (B2Z_finite_pos my ey Hvy). cbn [B2Z] in Hle. lia.
  - pose proof Hx as [_ [_ ?]%f32_valid_canonical]%f32_nonneg_finite.
    pose proof (pow2_pos (ex - f32_emin) ltac:(lia)).
    split_and!; [done..|]. unfold f32_sub. cbn [SFsub B2Z f32_ulp]. lia.
  - pose proof Hx as [-> Hvx]%f32_nonneg_finite.
    pose proof Hy as [-> Hvy]%f32_nonneg_finite.
    pose proof Hvx as [_ ?]%f32_valid_canonical.
    pose proof Hvy as [_ ?]%f32_valid_canonical.
    pose proof (B2Z_finite_pos my ey Hvy).
    unfold f32_sub, SFsub. set (ez := Z.min ex ey).
    pose proof (aligned_value false mx ex ez ltac:(lia)) as Hax.
    pose proof (aligned_value false my ey ez ltac:(lia)) as Hay.
    cbn [cond_Zopp] in *.
    set (z := Z.pos (shl_align mx ex ez).1 - Z.pos (shl_align my ey ez).1).
    assert (z * 2 ^ (ez - f32_emin)
            = B2Z (S754_finite false mx ex) - B2Z (S754_finite false my ey))
      as Hz by (subst z; lia).
    pose proof (pow2_pos (ez - f32_emin) ltac:(lia)).
    pose proof (pow2_pos (ex - f32_emin) ltac:(lia)).
    destruct z as [|m|m]; cbn [binary_normalize f32_ulp].
    + split_and!; [done|..]; cbn [B2Z] in *; lia.
    + destruct (f32_round_le m ez mx ex) as (? & ? & ?); [lia|done|..];
        cbn [B2Z] in *; [lia|]. split_and!; [done..|lia].
    + cbn [B2Z] in *. lia.
Qed.

(** The unit in the last place grows with the value. *)
Lemma f32_ulp_mono x y :
  f32_nonneg x → f32_nonneg y → B2Z y ≤ B2Z x → f32_ulp y ≤ f32_ulp x.
Proof.
  intros [Hx Hx0] [Hy Hy0] Hle.
  destruct (Z.eq_dec (B2Z y) 0) as [Hz|Hnz].
  { destruct y as [| | |sy my ey]; cbn [f32_ulp];
      try (destruct x; cbn [f32_ulp]; try done; apply Z.lt_le_incl, pow2_pos;
           apply andb_prop in Hx as [[? _]%f32_valid_finite _]; lia).
    apply andb_prop in Hy as [Hv _]. rewrite f32_valid_sign in Hv.
    pose proof (B2Z_finite_pos my ey Hv).
    destruct sy; cbn [B2Z] in Hz; [|lia].
    rewrite <-Pos2Z.opp_pos, Z.mul_opp_l in Hz. lia. }
  destruct (B2Z_pos_finite y Hy ltac:(lia)) as (my & ey & -> & _).
  destruct (B2Z_pos_finite x Hx ltac:(lia)) as (mx & ex & -> & _).
  pose proof (f32_exp_mono _ _ Hx Hy ltac:(lia)) as He. cbn [f32_exp] in He.
  cbn [f32_ulp]. apply Z.pow_le_mono_r; [lia|]. lia.
Qed.
