(* ===== verification/Float64.v ===== *)
(** * Float64: [f64], and the casts between [f32] and [f64]

    [f64] is IEEE-754 binary64: the Standard Library's [spec_float] at
    precision 53 and [emax] 1024.  The program uses it in the last lines
    of [test_next_edge_distribution] ([as f64], [/], [-], [abs], [<]), and
    the JSON library uses it for every number that is not an integer: an
    [f32] weight is widened to [f64] when it is serialised and narrowed
    back when it is deserialised.

    The cast [f32 as f64] is exact and the cast [f64 as f32] rounds to
    nearest even; narrowing a widened [f32] gives the [f32] back. *)

From Stdlib Require Import ZArith Lia SpecFloat.
From stdpp Require Import base tactics decidable option numbers list.
From S2P Require Import Prelude Float32 Rounding.

(** ** Definitions *)

Abbreviation f64 := spec_float (only parsing).

Definition prec64 : Z := 53.
Definition emax64 : Z := 1024.

Definition f64_valid (x : f64) : bool := valid_binary prec64 emax64 x.

Definition f64_is_finite (x : f64) : bool :=
  match x with S754_zero _ | S754_finite _ _ _ => true | _ => false end.

Definition f64_sub (x y : f64) : f64 := SFsub prec64 emax64 x y.
Definition f64_div (x y : f64) : f64 := SFdiv prec64 emax64 x y.
Definition f64_abs (x : f64) : f64 := SFabs x.
Definition f64_lt (x y : f64) : bool := SFltb x y.

(** An integer cast to [f64] ([count as f64]). *)
Definition f64_of_Z (z : Z) : f64 := binary_normalize prec64 emax64 z 0 false.

(** A decimal literal [n / d], such as [0.05] (= 5 / 100): the nearest
    [f64]. *)
Definition f64_lit (n d : Z) : f64 := f64_div (f64_of_Z n) (f64_of_Z d).

(** [x as f64]. *)
Definition f32_to_f64 (x : f32) : f64 :=
  match x with
  | S754_finite s m e => binary_round prec64 emax64 s m e
  | _ => x
  end.

(** [y as f32]: round to nearest even, to infinity on overflow. *)
Definition f64_to_f32 (y : f64) : f32 :=
  match y with
  | S754_finite s m e => binary_round prec emax s m e
  | _ => y
  end.

(** The mantissa of a widened [f32]: shifted left to 53 bits. *)
Definition widen_mantissa (m : positive) : positive :=
  Pos.iter xO m (Z.to_pos (53 - Z.pos (digits2_pos m))).

Definition widen_exponent (m : positive) (e : Z) : Z :=
  (e - (53 - Z.pos (digits2_pos m)))%Z.

#[local] Open Scope Z_scope.

(** ** Widening *)

Lemma widen_mantissa_value m :
  Z.pos (digits2_pos m) ≤ 24 →
  Z.pos (widen_mantissa m) = Z.pos m * 2 ^ (53 - Z.pos (digits2_pos m)).
Proof.
  intros Hd. unfold widen_mantissa. rewrite iter_xO_value, Z2Pos.id; lia.
Qed.

Lemma f32_digits s m e :
  f32_valid (S754_finite s m e) = true → Z.pos (digits2_pos m) ≤ 24.
Proof.
  intros (_ & Hm & _)%f32_valid_finite.
  pose proof (digits2_pos_bounds m) as [Hlo _].
  apply Z.nlt_ge. intros Hgt.
  assert (2 ^ 24 ≤ 2 ^ (Z.pos (digits2_pos m) - 1)) by (apply Z.pow_le_mono_r; lia).
  lia.
Qed.

(** The widened float is a well-formed [f64]. *)
Lemma widen_bounded s m e :
  f32_valid (S754_finite s m e) = true →
  bounded prec64 emax64 (widen_mantissa m) (widen_exponent m e) = true.
Proof.
  intros Hv. pose proof (f32_digits s m e Hv) as Hd.
  apply f32_valid_finite in Hv as (He & _ & _).
  unfold bounded, canonical_mantissa, widen_mantissa, widen_exponent.
  rewrite iter_xO_digits, Pos2Z.inj_add, Z2Pos.id by lia.
  apply andb_true_intro.
  split; [apply Z.eqb_eq|apply Z.leb_le];
    unfold fexp, SpecFloat.emin, prec64, emax64, f32_emin in *; lia.
Qed.

(** [f32 as f64] of a finite number, in closed form. *)
Lemma f32_to_f64_finite s m e :
  f32_valid (S754_finite s m e) = true →
  f32_to_f64 (S754_finite s m e)
  = S754_finite s (widen_mantissa m) (widen_exponent m e).
Proof.
  intros Hv. pose proof (f32_digits s m e Hv) as Hd. cbn [f32_to_f64].
  apply binary_round_representable; [by eapply widen_bounded|].
  unfold widen_exponent. rewrite Z.min_r, Z.sub_diag, Z.mul_1_r by lia.
  rewrite widen_mantissa_value by done. do 2 f_equal. lia.
Qed.

Lemma f32_to_f64_valid x : f32_valid x = true → f64_valid (f32_to_f64 x) = true.
Proof.
  destruct x as [| | |s m e]; try done. intros Hv.
  rewrite f32_to_f64_finite by done. by eapply widen_bounded.
Qed.

(** ** Narrowing *)

Lemma f64_to_f32_valid y : f32_valid (f64_to_f32 y) = true.
Proof. destruct y as [| | |s m e]; try done. by apply binary_round_valid. Qed.

(** Narrowing a widened [f32] gives it back. *)
Lemma f64_to_f32_to_f64 x : f32_valid x = true → f64_to_f32 (f32_to_f64 x) = x.
Proof.
  destruct x as [| | |s m e]; try done. intros Hv.
  pose proof (f32_digits s m e Hv) as Hd.
  rewrite f32_to_f64_finite by done. cbn [f64_to_f32].
  apply binary_round_representable; [done|].
  unfold widen_exponent. rewrite Z.min_l, Z.sub_diag, Z.mul_1_r by lia.
  rewrite widen_mantissa_value by done. do 2 f_equal. lia.
Qed.

(** Widening keeps finite numbers finite and the others as they are. *)
Lemma f32_to_f64_is_finite x :
  f32_valid x = true → f64_is_finite (f32_to_f64 x) = f32_is_finite x.
Proof.
  destruct x as [| | |s m e]; try done. intros Hv.
  by rewrite f32_to_f64_finite.
Qed.
