(* ===== verification/Json.v ===== *)
(** * Json: [serde_json::Value], the payload of an action, and JSON documents

    The crate is not part of the repository; the type is modelled from its
    documented shape: a tree of null, booleans, numbers, strings, arrays and
    objects.  A number is an unsigned integer, a negative integer or a
    finite binary64 float, as [serde_json::Number] stores it.

    The same tree is used for two things.  A JSON document is the tree of
    a text: the members of an object are in the order of the text and a
    key may occur twice.  A [serde_json::Value] in memory keeps the members
    of an object in a [BTreeMap]: sorted by key, each key once; that is the
    invariant [wf].  [put] is [BTreeMap::insert] on the sorted list of
    members and [of_document] is [Value]'s [Deserialize]: it inserts the
    members of every object one by one, so that the last of two equal keys
    wins. *)

From Stdlib Require Import ZArith SpecFloat String.
From stdpp Require Import base tactics decidable option numbers strings list.
From S2P Require Import Prelude Float32 Rounding Float64.

Module Json.

Inductive Number : Type :=
| PosInt (n : N)
| NegInt (z : Z)
| Float (f : spec_float).

Inductive Value : Type :=
| Null
| Bool (b : bool)
| Num (n : Number)
| String (s : string)
| Array (elems : list Value)
| Object (members : list (string * Value)).

#[global] Instance Number_eq_dec : EqDecision Number.
Proof. solve_decision. Defined.

Fixpoint Value_eq_dec (v1 v2 : Value) {struct v1} : Decision (v1 = v2).
Proof.
  refine
    match v1, v2 with
    | Null, Null => left eq_refl
    | Bool b1, Bool b2 => cast_if (decide (b1 = b2))
    | Num n1, Num n2 => cast_if (decide (n1 = n2))
    | String s1, String s2 => cast_if (decide (s1 = s2))
    | Array l1, Array l2 =>
        cast_if (@list_eq_dec _ Value_eq_dec l1 l2)
    | Object m1, Object m2 =>
        cast_if (@list_eq_dec _ (@prod_eq_dec _ _ _ Value_eq_dec) m1 m2)
    | _, _ => right _
    end; abstract congruence.
Defined.

#[global] Existing Instance Value_eq_dec.

(** [PartialEq] of [serde_json::Number]: numbers of different
    representations differ, floats are compared by IEEE equality. *)
Definition Number_eqb (a b : Number) : bool :=
  match a, b with
  | PosInt x, PosInt y => bool_decide (x = y)
  | NegInt x, NegInt y => bool_decide (x = y)
  | Float x, Float y => SFeqb x y
  | _, _ => false
  end.

(** [PartialEq] of [serde_json::Value]. *)
Fixpoint eqb (v1 v2 : Value) {struct v1} : bool :=
  match v1, v2 with
  | Null, Null => true
  | Bool a, Bool b => bool_decide (a = b)
  | Num a, Num b => Number_eqb a b
  | String a, String b => bool_decide (a = b)
  | Array l1, Array l2 =>
      (fix go (l1 l2 : list Value) {struct l1} : bool :=
         match l1, l2 with
         | [], [] => true
         | x :: l1, y :: l2 => eqb x y && go l1 l2
         | _, _ => false
         end) l1 l2
  | Object m1, Object m2 =>
      (fix go (m1 m2 : list (string * Value)) {struct m1} : bool :=
         match m1, m2 with
         | [], [] => true
         | (k1, x) :: m1, (k2, y) :: m2 =>
             bool_decide (k1 = k2) && eqb x y && go m1 m2
         | _, _ => false
         end) m1 m2
  | _, _ => false
  end.

(** The nearest binary64 float to [n / d], for decimal literals such as
    [100.5] (= 1005 / 10). *)
Definition f64_of_ratio (n d : Z) : spec_float :=
  SFdiv 53 1024 (binary_normalize 53 1024 n 0 false)
                (binary_normalize 53 1024 d 0 false).

(** The number of constructors of a value, the measure of its traversals. *)
Fixpoint size (v : Value) : nat :=
  match v with
  | Array l => S (foldr (λ x n, size x + n) 0 l)
  | Object m => S (foldr (λ kv n, size kv.2 + n) 0 m)
  | _ => 1
  end.

(** The order of the keys of a [BTreeMap<String, Value>]: the bytes of the
    strings, lexicographically. *)
Definition key_lt (a b : string) : bool :=
  match String.compare a b with Lt => true | _ => false end.

(** [BTreeMap::insert] on the sorted list of members: a member with the
    same key is replaced. *)
Fixpoint put (m : list (string * Value)) (k : string) (v : Value)
  : list (string * Value) :=
  match m with
  | [] => [(k, v)]
  | (k', v') :: m' =>
      match String.compare k k' with
      | Lt => (k, v) :: m
      | Eq => (k, v) :: m'
      | Gt => (k', v') :: put m' k v
      end
  end.

(** [BTreeMap::get]. *)
Definition get (m : list (string * Value)) (k : string) : option Value :=
  snd <$> List.find (λ kv, bool_decide (kv.1 = k)) m.

(** The map built by inserting the members one by one. *)
Definition from_members (m : list (string * Value)) : list (string * Value) :=
  foldl (λ acc kv, put acc kv.1 kv.2) [] m.

(** The keys are strictly increasing. *)
Fixpoint sorted (m : list (string * Value)) : bool :=
  match m with
  | (k1, _) :: ((k2, _) :: _) as m' => key_lt k1 k2 && sorted m'
  | _ => true
  end.

Definition Number_wf (n : Number) : bool :=
  match n with
  | PosInt n => bool_decide (n < 2 ^ 64)%N
  | NegInt z => bool_decide (- 2 ^ 63 ≤ z < 0)%Z
  | Float f => f64_valid f && f64_is_finite f
  end.

(** Every number of the tree is a [serde_json::Number]. *)
Fixpoint numbers_wf (v : Value) : bool :=
  match v with
  | Num n => Number_wf n
  | Array l => forallb numbers_wf l
  | Object m => forallb (λ kv, numbers_wf kv.2) m
  | _ => true
  end.

(** The members of every object of the tree are sorted by key. *)
Fixpoint keys_sorted (v : Value) : bool :=
  match v with
  | Array l => forallb keys_sorted l
  | Object m => forallb (λ kv, keys_sorted kv.2) m && sorted m
  | _ => true
  end.

(** The invariant of a [serde_json::Value] in memory. *)
Definition wf (v : Value) : bool := numbers_wf v && keys_sorted v.

(** [Value]'s [Deserialize], on a document. *)
Fixpoint of_document (d : Value) : Value :=
  match d with
  | Array l => Array (map of_document l)
  | Object m => Object (from_members (map (λ kv, (kv.1, of_document kv.2)) m))
  | _ => d
  end.

(** Induction over a value, with the hypothesis for every element of an
    array and every member of an object. *)
Definition Value_ind' (P : Value → Prop)
    (fnull : P Null) (fbool : ∀ b, P (Bool b)) (fnum : ∀ n, P (Num n))
    (fstring : ∀ s, P (String s))
    (farray : ∀ l, Forall P l → P (Array l))
    (fobject : ∀ m, Forall (λ kv, P kv.2) m → P (Object m)) :
  ∀ v, P v :=
  fix F (v : Value) : P v :=
    match v with
    | Null => fnull
    | Bool b => fbool b
    | Num n => fnum n
    | String s => fstring s
    | Array l =>
        farray l ((fix G (l : list Value) : Forall P l :=
                     match l with
                     | [] => Forall_nil_2 P
                     | x :: l => Forall_cons_2 P x l (F x) (G l)
                     end) l)
    | Object m =>
        fobject m ((fix G (m : list (string * Value))
                      : Forall (λ kv, P kv.2) m :=
                      match m with
                      | [] => Forall_nil_2 _
                      | kv :: m => Forall_cons_2 _ kv m (F kv.2) (G m)
                      end) m)
    end.

Lemma size_pos v : 0 < size v.
Proof. destruct v; simpl; lia. Qed.

(** ** The order of the keys *)

Lemma ascii_compare_refl a : Ascii.compare a a = Eq.
Proof. apply N.compare_refl. Qed.

Lemma ascii_compare_trans a b c :
  Ascii.compare a b = Lt → Ascii.compare b c = Lt → Ascii.compare a c = Lt.
Proof. unfold Ascii.compare. rewrite !N.compare_lt_iff. lia. Qed.

Lemma compare_refl s : String.compare s s = Eq.
Proof. induction s as [|a s IH]; [done|]. cbn. by rewrite ascii_compare_refl. Qed.

Lemma compare_trans a b c :
  String.compare a b = Lt → String.compare b c = Lt → String.compare a c = Lt.
Proof.
  revert b c. induction a as [|x a IH]; intros [|y b] [|z c]; cbn; try done.
  destruct (Ascii.compare x y) eqn:Hxy;
    [apply Ascii.compare_eq_iff in Hxy as ->| |done].
  - destruct (Ascii.compare y z); [apply IH|done..].
  - destruct (Ascii.compare y z) eqn:Hyz; [|intros _ _|done].
    + apply Ascii.compare_eq_iff in Hyz as <-. by rewrite Hxy.
    + by rewrite (ascii_compare_trans x y z).
Qed.

Lemma key_lt_irrefl k : key_lt k k = false.
Proof. unfold key_lt. by rewrite compare_refl. Qed.

Lemma key_lt_trans a b c : key_lt a b = true → key_lt b c = true → key_lt a c = true.
Proof.
  unfold key_lt. destruct (String.compare a b) eqn:Hab; [done| |done].
  destruct (String.compare b c) eqn:Hbc; [done| |done].
  by rewrite (compare_trans a b c).
Qed.

Lemma compare_Gt k k' : String.compare k k' = Gt → key_lt k' k = true.
Proof.
  intros H. rewrite String.compare_antisym in H. unfold key_lt.
  by destruct (String.compare k' k).
Qed.

(** ** Sorted members *)

Lemma sorted_cons k v m :
  sorted ((k, v) :: m) = true ↔
  Forall (λ kv, key_lt k kv.1 = true) m ∧ sorted m = true.
Proof.
  revert k v. induction m as [|[k' v'] m IH]; intros k v.
  { split; [done|]. by intros _. }
  change (sorted ((k, v) :: (k', v') :: m))
    with (key_lt k k' && sorted ((k', v') :: m)).
  rewrite andb_true_iff, Forall_cons. split.
  - intros [Hk Hs]. split_and!; [done| |done].
    apply IH in Hs as [Hall _]. eapply Forall_impl; [done|].
    intros kv Hkv. by eapply key_lt_trans.
  - by intros [[? _] ?].
Qed.

(** What holds of the members and of the new one holds after
    [BTreeMap::insert]. *)
Lemma put_Forall (P : string * Value → Prop) m k v :
  P (k, v) → Forall P m → Forall P (put m k v).
Proof.
  intros Hk. induction m as [|[k' v'] m IH]; intros Hm; cbn [put].
  { by constructor. }
  apply Forall_cons in Hm as [Hk' Hm].
  destruct (String.compare k k'); repeat (constructor; [done|]); auto.
Qed.

Lemma from_members_Forall (P : string * Value → Prop) m :
  Forall P m → Forall P (from_members m).
Proof.
  unfold from_members. generalize (Forall_nil_2 P).
  generalize (@nil (string * Value)).
  induction m as [|[k v] m IH]; intros acc Hacc Hm; [done|].
  apply Forall_cons in Hm as [Hk Hm]. cbn [foldl]. by apply IH; [apply put_Forall|].
Qed.

(** [BTreeMap::insert] keeps the keys sorted. *)
Lemma put_sorted m k v : sorted m = true → sorted (put m k v) = true.
Proof.
  induction m as [|[k' v'] m IH]; [done|]. intros Hs.
  pose proof Hs as [Hall Hs']%sorted_cons. cbn [put].
  destruct (String.compare k k') eqn:Hc.
  - apply String.compare_eq_iff in Hc as ->. by apply sorted_cons.
  - apply sorted_cons. split; [|done]. constructor.
    { cbn. unfold key_lt. by rewrite Hc. }
    eapply Forall_impl; [done|]. intros kv Hkv. cbn in *.
    eapply key_lt_trans; [|done]. unfold key_lt. by rewrite Hc.
  - apply sorted_cons. split; [|by apply IH].
    apply put_Forall; [by apply compare_Gt|done].
Qed.

Lemma compare_neq k k' : String.compare k k' ≠ Eq → k ≠ k'.
Proof. intros Hc ->. by rewrite compare_refl in Hc. Qed.

(** [BTreeMap::get] after [BTreeMap::insert]: the value inserted at
    the key, the value that was there at any other key. *)
Theorem get_put m k v k' :
  get (put m k v) k' = if decide (k = k') then Some v else get m k'.
Proof.
  unfold get. induction m as [|[k0 v0] m IH]; cbn [put].
  { cbn. by repeat case_decide; case_bool_decide. }
  destruct (String.compare k k0) eqn:Hc.
  - apply String.compare_eq_iff in Hc as ->. cbn.
    by repeat case_decide; repeat case_bool_decide; simplify_eq.
  - assert (k ≠ k0) by (apply compare_neq; by rewrite Hc). cbn.
    by repeat case_decide; repeat case_bool_decide; simplify_eq.
  - assert (k ≠ k0) by (apply compare_neq; by rewrite Hc).
    cbn [List.find fst]. case_bool_decide as Hk0; [|apply IH].
    subst k'. by rewrite decide_False.
Qed.

(** A key above all the others is inserted at the end. *)
Lemma put_last m k v :
  Forall (λ kv, key_lt kv.1 k = true) m → put m k v = m ++ [(k, v)].
Proof.
  induction m as [|[k' v'] m IH]; [done|]. intros [Hk Hm]%Forall_cons.
  cbn [put]. unfold key_lt in Hk. cbn in Hk.
  rewrite (String.compare_antisym k' k) in Hk.
  destruct (String.compare k k'); try done. by rewrite IH.
Qed.

Lemma foldl_put_keeps_sorted acc m :
  sorted acc = true → sorted (foldl (λ acc kv, put acc kv.1 kv.2) acc m) = true.
Proof.
  revert acc. induction m as [|[k v] m IH]; intros acc Hacc; [done|].
  cbn [foldl]. by apply IH, put_sorted.
Qed.

Lemma from_members_sorted m : sorted (from_members m) = true.
Proof. by apply foldl_put_keeps_sorted. Qed.

Lemma sorted_snoc m k v :
  sorted m = true → Forall (λ kv, key_lt kv.1 k = true) m →
  sorted (m ++ [(k, v)]) = true.
Proof. intros Hs Hm. rewrite <-put_last by done. by apply put_sorted. Qed.

Lemma foldl_put_sorted acc m :
  sorted (acc ++ m) = true →
  foldl (λ acc kv, put acc kv.1 kv.2) acc m = acc ++ m.
Proof.
  revert acc. induction m as [|[k v] m IH]; intros acc Hs; cbn [foldl].
  { by rewrite app_nil_r. }
  assert (Forall (λ kv, key_lt kv.1 k = true) acc) as Hacc.
  { clear IH. induction acc as [|[k' v'] acc IHacc]; [done|].
    rewrite <-app_comm_cons in Hs. apply sorted_cons in Hs as [Hall Hs].
    constructor; [|by apply IHacc].
    apply Forall_app in Hall as [_ Hall]. by apply Forall_cons in Hall as [? _]. }
  rewrite put_last by done. rewrite IH; by rewrite <-app_assoc.
Qed.

(** Inserting the members of a sorted list one by one gives the list. *)
Lemma from_members_id m : sorted m = true → from_members m = m.
Proof. intros Hs. by apply (foldl_put_sorted []). Qed.

(** ** [Value]'s [Deserialize] *)

Lemma forallb_Forall {A} (f : A → bool) l :
  forallb f l = true ↔ Forall (λ x, f x = true) l.
Proof.
  rewrite forallb_forall, Forall_forall. by setoid_rewrite list_elem_of_In.
Qed.

Lemma map_id_Forall {A} (f : A → A) l : Forall (λ x, f x = x) l → map f l = l.
Proof. induction 1; cbn; congruence. Qed.

(** The members of a deserialised value are sorted: it satisfies the
    invariant of the type as far as the keys go. *)
Lemma of_document_keys_sorted d : keys_sorted (of_document d) = true.
Proof.
  induction d as [| | | |l IH|m IH] using Value_ind'; try done;
    cbn [keys_sorted of_document].
  - apply forallb_Forall, Forall_map. by eapply Forall_impl.
  - apply andb_true_intro. split; [|apply from_members_sorted].
    apply forallb_Forall, from_members_Forall, Forall_map.
    by eapply Forall_impl.
Qed.

Lemma of_document_numbers_wf d :
  numbers_wf d = true → numbers_wf (of_document d) = true.
Proof.
  induction d as [| | | |l IH|m IH] using Value_ind'; try done;
    cbn [numbers_wf of_document]; intros Hd%forallb_Forall.
  - apply forallb_Forall, Forall_map.
    rewrite Forall_forall in *. naive_solver.
  - apply forallb_Forall, from_members_Forall, Forall_map.
    rewrite Forall_forall in *. naive_solver.
Qed.

Lemma of_document_wf d : numbers_wf d = true → wf (of_document d) = true.
Proof.
  intros Hd. unfold wf.
  by rewrite of_document_numbers_wf, of_document_keys_sorted.
Qed.

(** On a value whose members are sorted it is the identity. *)
Lemma of_document_id v : keys_sorted v = true → of_document v = v.
Proof.
  induction v as [| | | |l IH|m IH] using Value_ind'; try done;
    cbn [keys_sorted of_document].
  - intros Hl%forallb_Forall. f_equal. apply map_id_Forall.
    rewrite Forall_forall in *. naive_solver.
  - intros [Hm%forallb_Forall Hs]%andb_prop. f_equal.
    rewrite (map_id_Forall (λ kv, (kv.1, of_document kv.2))).
    + by apply from_members_id.
    + rewrite Forall_forall in *.
      intros [k v] Hkv. cbn. f_equal.
      apply (IH (k, v)); [done|]. by apply (Hm (k, v)).
Qed.

Lemma of_document_idem d : of_document (of_document d) = of_document d.
Proof. apply of_document_id, of_document_keys_sorted. Qed.

(** [Value]'s [Deserialize] establishes the invariant of the type:
    whatever the order and the repetitions of the members in the document,
    the members of every object of the result are sorted by key; on a
    value that is already sorted it changes nothing. *)
Theorem of_document_invariant d :
  keys_sorted (of_document d) = true
  ∧ of_document (of_document d) = of_document d
  ∧ (numbers_wf d = true → wf (of_document d) = true)
  ∧ (keys_sorted d = true → of_document d = d).
Proof.
  split_and!.
  - apply of_document_keys_sorted.
  - apply of_document_idem.
  - apply of_document_wf.
  - apply of_document_id.
Qed.

Lemma wf_keys_sorted v : wf v = true → keys_sorted v = true.
Proof. by intros [_ ?]%andb_prop. Qed.

End Json.
