(* ===== verification/Serde.v ===== *)
(** * Serde: [Serialize] and [Deserialize], as [serde_json] runs them

    The traits of the [serde] crate and the JSON format of [serde_json]
    are libraries the repository only calls; they are modelled from their
    documented behaviour, with the default features of [serde_json].

    [serialize x] is the JSON document that serialising [x] writes: the
    members of a struct in the order of its fields.  [deserialize d] runs
    the [Deserialize] implementation of the type on the document [d], in
    the order of the document.  A number that is not an integer is a
    binary64 float: an [f32] is widened when it is written (the decimal
    digits printed for it are formatting and are not modelled), and a float
    that is not finite is written as [null].

    The helpers [visit_field], [take_field], [next_element], [end_seq] and
    [deserialize_struct] are the pieces of the code that
    [#[derive(Deserialize)]] generates for a struct: a struct is read from
    an object ([visit_map]: fields by name in any order, a repeated field
    is an error, an unknown one is skipped) or from an array
    ([visit_seq]: the fields in order). *)

From Stdlib Require Import ZArith SpecFloat String.
From stdpp Require Import base tactics decidable option numbers strings list.
From S2P Require Import Prelude Float32 Rounding Float64 Json.

#[local] Open Scope result_scope.

(** ** Definitions *)

(** What a deserialisation reports ([serde::de::Error] and the syntax
    errors of the JSON parser). *)
Inductive Error : Type :=
| Syntax
| InvalidType
| InvalidValue
| InvalidLength
| MissingField (name : string)
| DuplicateField (name : string)
| TrailingCharacters.

#[export] Instance Error_eq_dec : EqDecision Error.
Proof. solve_decision. Defined.

Class Serialize (T : Type) : Type := serialize : T → Json.Value.
Class Deserialize (T : Type) : Type := deserialize : Json.Value → Result T Error.

#[export] Hint Mode Serialize ! : typeclass_instances.
#[export] Hint Mode Deserialize ! : typeclass_instances.

(** The values of a type that serialisation represents faithfully, and the
    law: what was serialised deserialises to itself. *)
Class RoundTrip (T : Type) `{Serialize T, Deserialize T} (ok : T → Prop) : Prop :=
  round_trip : ∀ x, ok x → deserialize (serialize x) = Ok x.

#[export] Hint Mode RoundTrip ! - - - : typeclass_instances.

(** What deserialisation guarantees of its result, whatever the document
    (whose numbers are [serde_json] numbers): the invariant of the type. *)
Class DeserializeWf (T : Type) `{Deserialize T} (ok : T → Prop) : Prop :=
  deserialize_wf : ∀ d x,
    Json.numbers_wf d = true → deserialize d = Ok x → ok x.

#[export] Hint Mode DeserializeWf ! - - : typeclass_instances.

(** *** [u32] *)

#[export] Instance u32_Serialize : Serialize u32 :=
  λ n, Json.Num (Json.PosInt n).

#[export] Instance u32_Deserialize : Deserialize u32 :=
  λ d,
    match d with
    | Json.Num (Json.PosInt n) =>
        if decide (u32_ok n) then Ok n else Err InvalidValue
    | Json.Num (Json.NegInt _) => Err InvalidValue
    | _ => Err InvalidType
    end.

(** *** [f32] *)

#[export] Instance f32_Serialize : Serialize f32 :=
  λ x, if f32_is_finite x then Json.Num (Json.Float (f32_to_f64 x))
       else Json.Null.

(** Every JSON number is accepted and cast with [as f32]. *)
#[export] Instance f32_Deserialize : Deserialize f32 :=
  λ d,
    match d with
    | Json.Num (Json.PosInt n) => Ok (f32_of_Z (Z.of_N n))
    | Json.Num (Json.NegInt z) => Ok (f32_of_Z z)
    | Json.Num (Json.Float y) => Ok (f64_to_f32 y)
    | _ => Err InvalidType
    end.

(** *** [Option<T>] *)

#[export] Instance Option_Serialize `{Serialize T} : Serialize (option T) :=
  λ o, match o with Some x => serialize x | None => Json.Null end.

#[export] Instance Option_Deserialize `{Deserialize T} : Deserialize (option T) :=
  λ d,
    match d with
    | Json.Null => Ok None
    | _ => let? x := deserialize d in Ok (Some x)
    end.

(** *** [Vec<T>] *)

#[export] Instance Vec_Serialize `{Serialize T} : Serialize (list T) :=
  λ l, Json.Array (map serialize l).

#[export] Instance Vec_Deserialize `{Deserialize T} : Deserialize (list T) :=
  λ d,
    match d with
    | Json.Array elems => try_map deserialize elems
    | _ => Err InvalidType
    end.

(** *** [serde_json::Value] *)

#[export] Instance Value_Serialize : Serialize Json.Value := λ v, v.

#[export] Instance Value_Deserialize : Deserialize Json.Value :=
  λ d, Ok (Json.of_document d).

(** *** The code derived for a struct *)

(** One arm of the loop of [visit_map]: the field is read, unless it was
    read before. *)
Definition visit_field `{Deserialize A} (name : string) (slot : option A)
    (d : Json.Value) : Result (option A) Error :=
  match slot with
  | Some _ => Err (DuplicateField name)
  | None => let? x := deserialize d in Ok (Some x)
  end.

(** After the loop of [visit_map]: a field that was not read is missing. *)
Definition take_field {A} (name : string) (slot : option A) : Result A Error :=
  match slot with
  | Some x => Ok x
  | None => Err (MissingField name)
  end.

(** The same for a field of type [Option<T>]: when it was not read it is
    [None]. *)
Definition take_option_field {A} (slot : option (option A))
  : Result (option A) Error :=
  match slot with
  | Some x => Ok x
  | None => Ok None
  end.

(** [SeqAccess::next_element] in [visit_seq]: the next field, or the
    array is too short. *)
Definition next_element `{Deserialize A} (elems : list Json.Value)
  : Result (A * list Json.Value) Error :=
  match elems with
  | [] => Err InvalidLength
  | d :: rest => let? x := deserialize d in Ok (x, rest)
  end.

(** After [visit_seq]: nothing is left in the array. *)
Definition end_seq {A} (x : A) (rest : list Json.Value) : Result A Error :=
  match rest with
  | [] => Ok x
  | _ :: _ => Err TrailingCharacters
  end.

(** [Deserializer::deserialize_struct]: an array is visited as a sequence,
    an object as a map, anything else has the wrong type. *)
Definition deserialize_struct {A}
    (visit_seq : list Json.Value → Result A Error)
    (visit_map : list (string * Json.Value) → Result A Error)
    (d : Json.Value) : Result A Error :=
  match d with
  | Json.Array elems => visit_seq elems
  | Json.Object members => visit_map members
  | _ => Err InvalidType
  end.

(** What the loop of [visit_map] asks of the members for one field, given
    what its slot holds: a filled slot admits no member of that name, an
    empty one exactly one, whose value deserialises. *)
Definition field_reads `{Deserialize A} (name : string) (slot : option A)
    (members : list (string * Json.Value)) (x : A) : Prop :=
  match slot with
  | Some y => y = x ∧ filter (λ kv, kv.1 = name) members = []
  | None => ∃ d, filter (λ kv, kv.1 = name) members = [(name, d)]
                 ∧ deserialize d = Ok x
  end.

(** *** The entry points of [serde_json] *)

Module serde_json.

(** The JSON parser of [serde_json]: from a text to its document.  It is
    library code of which only the type is used. *)
Class Parser : Type := parse : string → Result Json.Value Error.

(** [serde_json::from_str]: the text is parsed and the document
    deserialised.  (When a text has a data error before a syntax error,
    the library reports the data error and this model the syntax error.) *)
Definition from_str `{Parser} `{Deserialize T} (s : string) : Result T Error :=
  let? d := parse s in deserialize d.

(** [serde_json::to_string], up to the rendering of the document as text:
    serialisation itself never fails on the types of this program. *)
Definition to_string `{Serialize T} (x : T) : Result Json.Value Error :=
  Ok (serialize x).

End serde_json.

(** ** [Result] *)

Lemma and_then_Ok {T U E} (r : Result T E) (f : T → Result U E) u :
  and_then r f = Ok u ↔ ∃ t, r = Ok t ∧ f t = Ok u.
Proof. destruct r; cbn; naive_solver. Qed.

Lemma try_map_Ok {A B E} (f : A → Result B E) (g : B → A) l :
  Forall (λ y, f (g y) = Ok y) l → try_map f (map g l) = Ok l.
Proof. induction 1 as [|y l Hy _ IH]; [done|]. cbn. by rewrite Hy, IH. Qed.

Lemma try_map_Forall {A B E} (P : B → Prop) (f : A → Result B E) l l' :
  (∀ x y, f x = Ok y → P y) → try_map f l = Ok l' → Forall P l'.
Proof.
  intros Hf. revert l'. induction l as [|x l IH]; intros l' Hl; cbn in Hl.
  { by simplify_eq. }
  destruct (f x) as [y|] eqn:Hx; [|done].
  destruct (try_map f l) as [ys|]; [|done]. simplify_eq.
  constructor; eauto.
Qed.

(** ** The loop of [visit_map], field by field *)

Lemma field_reads_nil `{Deserialize A} name (slot : option A) x :
  take_field name slot = Ok x ↔ field_reads name slot [] x.
Proof. destruct slot; cbn; naive_solver. Qed.

Lemma field_reads_cons_same `{Deserialize A} name (slot : option A) d members x :
  (∃ slot', visit_field name slot d = Ok slot' ∧ field_reads name slot' members x)
  ↔ field_reads name slot ((name, d) :: members) x.
Proof.
  unfold field_reads. rewrite filter_cons_True by done.
  destruct slot as [y|]; cbn; [naive_solver|].
  setoid_rewrite and_then_Ok. split.
  - intros (slot' & (y & Hd & [= <-]) & -> & Hm). exists d. by rewrite Hm.
  - intros (d' & [= <- Hm] & Hd). exists (Some x). eauto.
Qed.

Lemma field_reads_cons_other `{Deserialize A} name (slot : option A) key d
    members x :
  key ≠ name →
  field_reads name slot ((key, d) :: members) x ↔ field_reads name slot members x.
Proof. intros Hk. unfold field_reads. by rewrite filter_cons_False. Qed.

(** ** The round trips of the base types *)

#[export] Instance u32_RoundTrip : RoundTrip u32 u32_ok.
Proof.
  intros n Hn. unfold serialize, deserialize, u32_Serialize, u32_Deserialize.
  by rewrite decide_True.
Qed.

(** A finite [f32] comes back exactly: widening and narrowing lose
    nothing. *)
#[export] Instance f32_RoundTrip : RoundTrip f32 (λ x, f32_number x = true).
Proof.
  intros x [Hv Hf]%andb_prop.
  unfold serialize, deserialize, f32_Serialize, f32_Deserialize.
  rewrite Hf. by rewrite f64_to_f32_to_f64.
Qed.

#[export] Instance Option_u32_RoundTrip :
  RoundTrip (option u32) (from_option u32_ok True).
Proof.
  intros [n|] Hn; [|done]. cbn in Hn.
  unfold serialize, deserialize, Option_Serialize, Option_Deserialize.
  change (u32_Serialize n) with (Json.Num (Json.PosInt n)).
  cbn. unfold deserialize, u32_Deserialize. by rewrite decide_True.
Qed.

#[export] Instance Value_RoundTrip :
  RoundTrip Json.Value (λ v, Json.keys_sorted v = true).
Proof. intros v Hv. unfold serialize, deserialize, Value_Serialize, Value_Deserialize. by rewrite Json.of_document_id. Qed.

#[export] Instance Vec_RoundTrip `{RoundTrip T ok} : RoundTrip (list T) (Forall ok).
Proof.
  intros l Hl. unfold serialize, deserialize, Vec_Serialize, Vec_Deserialize.
  apply try_map_Ok. eapply Forall_impl; [done|]. intros x Hx. by apply round_trip.
Qed.

(** A value that is not finite is written as [null], and [null] is not
    read as an [f32]. *)
Lemma f32_not_finite_no_round_trip (x : f32) :
  f32_is_finite x = false →
  serialize x = Json.Null ∧ deserialize (T:=f32) (serialize x) = Err InvalidType.
Proof.
  intros Hx. unfold serialize, deserialize, f32_Serialize, f32_Deserialize.
  by rewrite Hx.
Qed.

(** ** What deserialisation guarantees *)

#[export] Instance u32_DeserializeWf : DeserializeWf u32 u32_ok.
Proof.
  intros d n _. unfold deserialize, u32_Deserialize. intros Hd.
  by repeat case_match; simplify_eq.
Qed.

(** Whatever number is read as an [f32], the result is a well-formed
    [f32]. *)
#[export] Instance f32_DeserializeWf :
  DeserializeWf f32 (λ x, f32_valid x = true).
Proof.
  intros d x _. unfold deserialize, f32_Deserialize. intros Hd.
  repeat case_match; simplify_eq;
    by (apply binary_normalize_valid || apply f64_to_f32_valid).
Qed.

#[export] Instance Value_DeserializeWf :
  DeserializeWf Json.Value (λ v, Json.wf v = true).
Proof.
  intros d v Hd [= <-]. by apply Json.of_document_wf.
Qed.

#[export] Instance Option_DeserializeWf `{DeserializeWf T ok} :
  DeserializeWf (option T) (from_option ok True).
Proof.
  intros d o Hd Ho. destruct d; [by injection Ho as <-|..];
    apply and_then_Ok in Ho as (x & Hx & [= <-]); cbn;
    by eapply deserialize_wf.
Qed.

Lemma try_map_deserialize_wf `{DeserializeWf T ok} elems l :
  forallb Json.numbers_wf elems = true →
  try_map deserialize elems = Ok l → Forall ok l.
Proof.
  revert l. induction elems as [|d elems IH]; intros l Hd Hl; cbn in Hl, Hd.
  { by simplify_eq. }
  apply andb_prop in Hd as [Hd Hds].
  destruct (deserialize d) as [y|] eqn:Hx; [|done].
  destruct (try_map deserialize elems) as [ys|]; [|done]. simplify_eq.
  constructor; [by eapply deserialize_wf|by apply IH].
Qed.

#[export] Instance Vec_DeserializeWf `{DeserializeWf T ok} :
  DeserializeWf (list T) (Forall ok).
Proof.
  intros d l Hd. unfold deserialize, Vec_Deserialize.
  destruct d; try done. by apply try_map_deserialize_wf.
Qed.

(** The pieces of the derived code hand on what they read. *)
Lemma visit_field_wf `{DeserializeWf T ok} name slot d slot' :
  Json.numbers_wf d = true → from_option ok True slot →
  visit_field name slot d = Ok slot' → from_option ok True slot'.
Proof.
  intros Hd Hs. destruct slot; [done|]. cbn.
  intros (x & Hx & [= <-])%and_then_Ok. cbn. by eapply deserialize_wf.
Qed.

Lemma next_element_wf `{DeserializeWf T ok} elems x rest :
  forallb Json.numbers_wf elems = true →
  next_element elems = Ok (x, rest) →
  ok x ∧ forallb Json.numbers_wf rest = true.
Proof.
  destruct elems as [|d elems]; [done|]. cbn.
  intros [Hd Hr]%andb_prop (y & Hy & [= <- <-])%and_then_Ok.
  split; [by eapply deserialize_wf|done].
Qed.

Lemma end_seq_Ok {A} (x y : A) rest : end_seq x rest = Ok y → y = x.
Proof. destruct rest; cbn; congruence. Qed.
