(* ===== verification/action.v ===== *)
(** * action: [markov_chain/action.rs]

    An [Action] is an id and a JSON payload.  [Action.new] defaults the
    payload to [Null]; [Action.eq] is the derived [PartialEq];
    [Action_Serialize] and [Action_Deserialize] are the derived [Serialize]
    and [Deserialize]; [Action.from_str] is the [FromStr] implementation,
    [serde_json::from_str]. *)

From Stdlib Require Import String.
From stdpp Require Import base tactics decidable option numbers strings list.
From S2P Require Import Prelude Float32 Rounding Float64 Json Serde.

#[local] Open Scope result_scope.
#[local] Open Scope string_scope.

Module Action.

Record Action : Type := mk {
  id : u32;
  value : Json.Value;
}.

#[global] Instance Action_eq_dec : EqDecision Action.
Proof. solve_decision. Defined.

Definition new (id : u32) (value : option Json.Value) : Action :=
  let _value :=
    match value with
    | Some value => value
    | None => Json.Null
    end in
  {| id := id; value := _value |}.

(** The derived [PartialEq]: field by field. *)
Definition eq (a b : Action) : bool :=
  bool_decide (id a = id b) && Json.eqb (value a) (value b).

(** The derived [Serialize]: the fields in the order of the struct. *)
#[global] Instance Action_Serialize : Serialize Action :=
  λ a, Json.Object [("id", serialize (id a)); ("value", serialize (value a))].

(** The derived [Deserialize]: the loop over the members of an object,
    with one slot per field. *)
Fixpoint visit_map (members : list (string * Json.Value))
    (f0 : option u32) (f1 : option Json.Value) : Result Action Error :=
  match members with
  | [] =>
      let? f0 := take_field "id" f0 in
      let? f1 := take_field "value" f1 in
      Ok {| id := f0; value := f1 |}
  | (key, d) :: members =>
      if String.eqb key "id" then
        let? f0 := visit_field "id" f0 d in visit_map members f0 f1
      else if String.eqb key "value" then
        let? f1 := visit_field "value" f1 d in visit_map members f0 f1
      else visit_map members f0 f1
  end.

Definition visit_seq (elems : list Json.Value) : Result Action Error :=
  let? (f0, elems) := next_element elems in
  let? (f1, elems) := next_element elems in
  end_seq {| id := f0; value := f1 |} elems.

#[global] Instance Action_Deserialize : Deserialize Action :=
  deserialize_struct visit_seq (λ members, visit_map members None None).

(** [impl FromStr for Action]. *)
Definition from_str `{serde_json.Parser} (s : string) : Result Action Error :=
  serde_json.from_str s.

(** The id is a [u32] and the payload a [serde_json::Value]. *)
Definition wf (a : Action) : Prop := u32_ok (id a) ∧ Json.wf (value a) = true.

#[global] Instance wf_dec a : Decision (wf a).
Proof. unfold wf. apply _. Defined.

Lemma action_new_value i v : value (new i v) = default Json.Null v.
Proof. by destruct v. Qed.

Lemma action_new_wf i v :
  u32_ok i → Json.wf (default Json.Null v) = true → wf (new i v).
Proof. intros. split; [done|]. by rewrite action_new_value. Qed.

(** ** Serialisation *)

(** What was serialised deserialises to itself. *)
#[global] Instance Action_RoundTrip : RoundTrip Action wf.
Proof.
  intros [i v] [Hi Hv%Json.wf_keys_sorted]. cbn in Hi, Hv.
  unfold serialize at 1, deserialize, Action_Serialize, Action_Deserialize.
  cbn [deserialize_struct visit_map String.eqb Ascii.eqb Bool.eqb id value
       visit_field take_field].
  by rewrite !round_trip.
Qed.

(** The loop of [visit_map] succeeds exactly when each field is read once:
    the order of the members does not matter and the members of other
    names are skipped. *)
Lemma action_visit_map_spec members f0 f1 a :
  visit_map members f0 f1 = Ok a ↔
  field_reads "id" f0 members (id a) ∧ field_reads "value" f1 members (value a).
Proof.
  revert f0 f1. induction members as [|[key d] members IH]; intros f0 f1;
    cbn [visit_map].
  { rewrite <-!field_reads_nil. destruct a, f0, f1; cbn; naive_solver. }
  destruct (String.eqb_spec key "id") as [->|Hid];
    [|destruct (String.eqb_spec key "value") as [->|Hv]].
  - rewrite and_then_Ok, <-field_reads_cons_same, field_reads_cons_other by done.
    setoid_rewrite IH. naive_solver.
  - rewrite and_then_Ok, <-(field_reads_cons_same "value"),
      field_reads_cons_other by done.
    setoid_rewrite IH. naive_solver.
  - by rewrite IH, !field_reads_cons_other.
Qed.

(** The loop of [visit_map] returns an action made of what the slots hold
    and of what it reads. *)
Lemma action_visit_map_wf members f0 f1 a :
  forallb (λ kv, Json.numbers_wf kv.2) members = true →
  from_option u32_ok True f0 →
  from_option (λ v, Json.wf v = true) True f1 →
  visit_map members f0 f1 = Ok a → wf a.
Proof.
  revert f0 f1. induction members as [|[key d] members IH];
    intros f0 f1 Hm H0 H1; cbn [visit_map].
  { destruct f0, f1; cbn; intros; by simplify_eq. }
  cbn in Hm. apply andb_prop in Hm as [Hd Hm].
  destruct (String.eqb key "id");
    [|destruct (String.eqb key "value"); [|by apply IH]];
    intros (slot & Hs & Hr)%and_then_Ok;
    (eapply visit_field_wf in Hs; [|done..]); by eapply IH in Hr.
Qed.

(** Every action that deserialisation returns satisfies the invariant of
    the type. *)
#[global] Instance Action_DeserializeWf : DeserializeWf Action wf.
Proof.
  intros d a Hd. unfold deserialize, Action_Deserialize, deserialize_struct.
  destruct d as [| | | |elems|members]; try done.
  - unfold visit_seq. cbn in Hd.
    intros ([f0 r0] & [H0 Hr0]%next_element_wf & H)%and_then_Ok; [|done].
    apply and_then_Ok in H as ([f1 r1] & [H1 Hr1]%next_element_wf & H); [|done].
    by apply end_seq_Ok in H as ->.
  - by apply action_visit_map_wf.
Qed.

(** ** [from_str] *)

Section from_str.
Context `{serde_json.Parser}.

(** C18. [Action::from_str] on a text that is a JSON object: it succeeds
    exactly when the object has one member [id] whose value is a [u32]
    and one member [value]; the order of the members does not matter,
    members of other names are skipped, and the payload is the value of
    [value], held as a [serde_json::Value]. *)
Theorem from_str_object s members a :
  serde_json.parse s = Ok (Json.Object members) →
  from_str s = Ok a ↔
  (∃ d, filter (λ kv, kv.1 = "id") members = [("id", d)]
        ∧ deserialize d = Ok (id a))
  ∧ (∃ d, filter (λ kv, kv.1 = "value") members = [("value", d)]
          ∧ Json.of_document d = value a).
Proof.
  intros Hs. unfold from_str, serde_json.from_str. rewrite Hs. cbn [and_then].
  unfold deserialize at 1, Action_Deserialize, deserialize_struct.
  rewrite action_visit_map_spec. unfold field_reads.
  split; intros [H1 (d & Hd & Hv)]; (split; [done|]); exists d;
    (split; [done|]).
  - by injection Hv.
  - unfold deserialize, Value_Deserialize. by rewrite Hv.
Qed.

(** C30. [Action::from_str] also accepts a JSON array of two elements, the
    id and the payload in this order, and no other array. *)
Theorem from_str_array s elems a :
  serde_json.parse s = Ok (Json.Array elems) →
  from_str s = Ok a ↔
  ∃ d0 d1, elems = [d0; d1] ∧ deserialize d0 = Ok (id a)
           ∧ Json.of_document d1 = value a.
Proof.
  intros Hs. unfold from_str, serde_json.from_str. rewrite Hs. cbn [and_then].
  unfold deserialize at 1, Action_Deserialize, deserialize_struct, visit_seq.
  destruct a as [i v]. cbn [id value]. split.
  - intros ([f0 r0] & H0 & Hk)%and_then_Ok. cbn beta iota in Hk.
    apply and_then_Ok in Hk as ([f1 r1] & H1 & H2). cbn beta iota in H2.
    destruct elems as [|d0 [|d1 r]]; cbn in H0, H1; try done.
    { by apply and_then_Ok in H0 as (? & _ & [= _ <-]). }
    apply and_then_Ok in H0 as (? & Hd0 & [= -> <-]).
    injection H1 as <- <-. destruct r; [|done]. injection H2 as <- <-.
    by exists d0, d1.
  - intros (d0 & d1 & -> & Hd0 & <-). cbn. by rewrite Hd0.
Qed.

(** The text of a serialised action parses back to the action. *)
Theorem from_str_serialize s a :
  wf a → serde_json.parse s = Ok (serialize a) → from_str s = Ok a.
Proof.
  intros Ha Hs. unfold from_str, serde_json.from_str. rewrite Hs. cbn [and_then].
  by apply round_trip.
Qed.

(** [Action::from_str] fails when the text does not parse, and with
    [InvalidType] when it parses to anything but an object or an array. *)
Theorem from_str_Err s :
  match serde_json.parse s with
  | Err _ => is_err (from_str s) = true
  | Ok (Json.Object _) | Ok (Json.Array _) => True
  | Ok _ => from_str s = Err InvalidType
  end.
Proof.
  unfold from_str, serde_json.from_str. by destruct (serde_json.parse s) as [[]|].
Qed.

End from_str.

Lemma from_str_object_witness :
  let members := [("value", Json.Bool true); ("note", Json.Null);
                  ("id", Json.Num (Json.PosInt 7))] in
  let p : serde_json.Parser := λ _, Ok (Json.Object members) in
  let a := {| id := 7; value := Json.Bool true |} in
  serde_json.parse "{}" = Ok (Json.Object members) ∧
  (from_str "{}" = Ok a ↔
   (∃ d, filter (λ kv, kv.1 = "id") members = [("id", d)]
         ∧ deserialize d = Ok (id a))
   ∧ (∃ d, filter (λ kv, kv.1 = "value") members = [("value", d)]
           ∧ Json.of_document d = value a)).
Proof. intros members p a. split; [done|]. by apply (from_str_object "{}"). Defined.

Lemma from_str_array_witness :
  let elems := [Json.Num (Json.PosInt 7); Json.Null] in
  let p : serde_json.Parser := λ _, Ok (Json.Array elems) in
  let a := {| id := 7; value := Json.Null |} in
  serde_json.parse "[]" = Ok (Json.Array elems) ∧
  (from_str "[]" = Ok a ↔
   ∃ d0 d1, elems = [d0; d1] ∧ deserialize d0 = Ok (id a)
            ∧ Json.of_document d1 = value a).
Proof. intros elems p a. split; [done|]. by apply (from_str_array "[]"). Defined.

Lemma from_str_serialize_witness :
  let a := new 100 (Some (Json.Num (Json.Float (Json.f64_of_ratio 1005 10)))) in
  let p : serde_json.Parser := λ _, Ok (serialize a) in
  wf a ∧ serde_json.parse "" = Ok (serialize a) ∧ from_str "" = Ok a.
Proof.
  intros a p. assert (wf a) as Ha by (apply (bool_decide_unpack _); by vm_compute).
  split_and!; [done..|]. by apply (from_str_serialize "" a).
Defined.

End Action.

Abbreviation Action := Action.Action.
