(* ===== verification/node.v ===== *)
(** * node: [markov_chain/node.rs]

    A [Node] is an id and the list of its actions, in insertion order.
    [Node_Serialize] and [Node_Deserialize] are the derived [Serialize] and
    [Deserialize]. *)

From Stdlib Require Import String.
From stdpp Require Import base tactics decidable option numbers strings list.
From S2P Require Import Prelude Float32 Rounding Float64 Json Serde action.

#[local] Open Scope result_scope.
#[local] Open Scope string_scope.

Module Node.

Record Node : Type := mk {
  id : u32;
  actions : list Action;
}.

#[global] Instance Node_eq_dec : EqDecision Node.
Proof. solve_decision. Defined.

Definition new (id : u32) (actions : option (list Action)) : Node :=
  let _actions :=
    match actions with
    | Some actions => actions
    | None => []
    end in
  {| id := id; actions := _actions |}.

(** The derived [PartialEq]: the ids are equal and the action lists are
    equal element by element. *)
Fixpoint eq_actions (l1 l2 : list Action) : bool :=
  match l1, l2 with
  | [], [] => true
  | a :: l1, b :: l2 => Action.eq a b && eq_actions l1 l2
  | _, _ => false
  end.

Definition eq (a b : Node) : bool :=
  bool_decide (id a = id b) && eq_actions (actions a) (actions b).

(** The derived [Serialize]: the fields in the order of the struct. *)
#[global] Instance Node_Serialize : Serialize Node :=
  λ n, Json.Object [("id", serialize (id n)); ("actions", serialize (actions n))].

(** The derived [Deserialize]. *)
Fixpoint visit_map (members : list (string * Json.Value))
    (f0 : option u32) (f1 : option (list Action)) : Result Node Error :=
  match members with
  | [] =>
      let? f0 := take_field "id" f0 in
      let? f1 := take_field "actions" f1 in
      Ok {| id := f0; actions := f1 |}
  | (key, d) :: members =>
      if String.eqb key "id" then
        let? f0 := visit_field "id" f0 d in visit_map members f0 f1
      else if String.eqb key "actions" then
        let? f1 := visit_field "actions" f1 d in visit_map members f0 f1
      else visit_map members f0 f1
  end.

Definition visit_seq (elems : list Json.Value) : Result Node Error :=
  let? (f0, elems) := next_element elems in
  let? (f1, elems) := next_element elems in
  end_seq {| id := f0; actions := f1 |} elems.

#[global] Instance Node_Deserialize : Deserialize Node :=
  deserialize_struct visit_seq (λ members, visit_map members None None).

Definition wf (n : Node) : Prop := u32_ok (id n) ∧ Forall Action.wf (actions n).

#[global] Instance wf_dec n : Decision (wf n).
Proof. unfold wf. apply _. Defined.

(** [node.actions.extend_from_slice(actions)] *)
Definition extend_actions (acts : list Action) (n : Node) : Node :=
  {| id := id n; actions := actions n ++ acts |}.

Lemma node_new_actions i a : actions (new i a) = default [] a.
Proof. by destruct a. Qed.

Lemma node_new_wf i a : u32_ok i → Forall Action.wf (default [] a) → wf (new i a).
Proof. intros. split; [done|]. by rewrite node_new_actions. Qed.

Lemma extend_actions_wf acts n :
  wf n → Forall Action.wf acts → wf (extend_actions acts n).
Proof. intros [??] ?. split; [done|]. by apply Forall_app. Qed.

(** ** Serialisation *)

(** What was serialised deserialises to itself. *)
#[global] Instance Node_RoundTrip : RoundTrip Node wf.
Proof.
  intros [i acts] [Hi Ha]. cbn in Hi, Ha.
  unfold serialize at 1, deserialize, Node_Serialize, Node_Deserialize.
  cbn [deserialize_struct visit_map String.eqb Ascii.eqb Bool.eqb id actions
       visit_field take_field].
  by rewrite !round_trip.
Qed.

Lemma node_visit_map_wf members f0 f1 n :
  forallb (λ kv, Json.numbers_wf kv.2) members = true →
  from_option u32_ok True f0 →
  from_option (Forall Action.wf) True f1 →
  visit_map members f0 f1 = Ok n → wf n.
Proof.
  revert f0 f1. induction members as [|[key d] members IH];
    intros f0 f1 Hm H0 H1; cbn [visit_map].
  { destruct f0, f1; cbn; intros; by simplify_eq. }
  cbn in Hm. apply andb_prop in Hm as [Hd Hm].
  destruct (String.eqb key "id");
    [|destruct (String.eqb key "actions"); [|by apply IH]];
    intros (slot & Hs & Hr)%and_then_Ok;
    (eapply visit_field_wf in Hs; [|done..]); by eapply IH in Hr.
Qed.

(** Every node that deserialisation returns satisfies the invariant of the
    type. *)
#[global] Instance Node_DeserializeWf : DeserializeWf Node wf.
Proof.
  intros d n Hd. unfold deserialize, Node_Deserialize, deserialize_struct.
  destruct d as [| | | |elems|members]; try done.
  - unfold visit_seq. cbn in Hd.
    intros ([f0 r0] & [H0 Hr0]%next_element_wf & H)%and_then_Ok; [|done].
    apply and_then_Ok in H as ([f1 r1] & [H1 Hr1]%next_element_wf & H); [|done].
    by apply end_seq_Ok in H as ->.
  - by apply node_visit_map_wf.
Qed.

End Node.

Abbreviation Node := Node.Node.
