(* ===== verification/edge.v ===== *)
(** * edge: [markov_chain/edge.rs]

    An [Edge] is a directed, weighted connection between two node ids.
    [Edge.eq] and [Edge.partial_cmp] are the derived [PartialEq] and
    [PartialOrd]: field by field, lexicographic in the order [from], [to],
    [weight], with the IEEE comparison on the weight.  [Edge_Serialize] and
    [Edge_Deserialize] are the derived [Serialize] and [Deserialize]. *)

From Stdlib Require Import SpecFloat String.
From stdpp Require Import base tactics decidable option numbers strings list.
From S2P Require Import Prelude Float32 Rounding Float64 Json Serde.

#[local] Open Scope result_scope.
#[local] Open Scope string_scope.

Module Edge.

Record Edge : Type := mk {
  from : u32;
  to : u32;
  weight : f32;
}.

#[global] Instance Edge_eq_dec : EqDecision Edge.
Proof. solve_decision. Defined.

Definition new (from to : u32) (weight : f32) : Edge :=
  {| from := from; to := to; weight := weight |}.

Definition eq (a b : Edge) : bool :=
  bool_decide (from a = from b) && bool_decide (to a = to b)
  && f32_eq (weight a) (weight b).

Definition partial_cmp (a b : Edge) : option comparison :=
  match Some (N.compare (from a) (from b)) with
  | Some Eq =>
      match Some (N.compare (to a) (to b)) with
      | Some Eq => f32_partial_cmp (weight a) (weight b)
      | cmp => cmp
      end
  | cmp => cmp
  end.

(** The derived [Serialize]: the fields in the order of the struct. *)
#[global] Instance Edge_Serialize : Serialize Edge :=
  λ e, Json.Object [("from", serialize (from e)); ("to", serialize (to e));
                    ("weight", serialize (weight e))].

(** The derived [Deserialize]. *)
Fixpoint visit_map (members : list (string * Json.Value))
    (f0 f1 : option u32) (f2 : option f32) : Result Edge Error :=
  match members with
  | [] =>
      let? f0 := take_field "from" f0 in
      let? f1 := take_field "to" f1 in
      let? f2 := take_field "weight" f2 in
      Ok {| from := f0; to := f1; weight := f2 |}
  | (key, d) :: members =>
      if String.eqb key "from" then
        let? f0 := visit_field "from" f0 d in visit_map members f0 f1 f2
      else if String.eqb key "to" then
        let? f1 := visit_field "to" f1 d in visit_map members f0 f1 f2
      else if String.eqb key "weight" then
        let? f2 := visit_field "weight" f2 d in visit_map members f0 f1 f2
      else visit_map members f0 f1 f2
  end.

Definition visit_seq (elems : list Json.Value) : Result Edge Error :=
  let? (f0, elems) := next_element elems in
  let? (f1, elems) := next_element elems in
  let? (f2, elems) := next_element elems in
  end_seq {| from := f0; to := f1; weight := f2 |} elems.

#[global] Instance Edge_Deserialize : Deserialize Edge :=
  deserialize_struct visit_seq (λ members, visit_map members None None None).

(** The edges that serialisation represents: the weight is a number. *)
Definition serializable (e : Edge) : Prop :=
  u32_ok (from e) ∧ u32_ok (to e) ∧ f32_number (weight e) = true.

#[global] Instance serializable_dec e : Decision (serializable e).
Proof. unfold serializable. apply _. Defined.

Definition wf (e : Edge) : Prop :=
  u32_ok (from e) ∧ u32_ok (to e) ∧ f32_valid (weight e) = true.

#[global] Instance wf_dec e : Decision (wf e).
Proof. unfold wf. apply _. Defined.

(** ** The derived instances *)

(** C40. The derived [==] is reflexive on an edge exactly when its weight
    is not NaN: [assert_eq!] on an edge with a NaN weight fails. *)
Lemma eq_refl_iff e : eq e e = true ↔ weight e ≠ S754_nan.
Proof.
  unfold eq. rewrite !bool_decide_eq_true_2, f32_eq_refl by done. simpl.
  rewrite negb_true_iff, <-not_true_iff_false, f32_is_nan_spec. done.
Qed.

Lemma eq_sym a b : eq a b = eq b a.
Proof.
  unfold eq. rewrite (f32_eq_sym (weight a)).
  rewrite (bool_decide_ext (from a = from b) (from b = from a)) by done.
  by rewrite (bool_decide_ext (to a = to b) (to b = to a)).
Qed.

(** The derived [PartialOrd] agrees with the derived [PartialEq]:
    [partial_cmp] answers [Equal] exactly on the pairs that are [==]. *)
Lemma partial_cmp_eq a b : partial_cmp a b = Some Eq ↔ eq a b = true.
Proof.
  unfold partial_cmp, eq. rewrite !andb_true_iff, !bool_decide_eq_true.
  rewrite f32_eq_partial_cmp.
  destruct (N.compare_spec (from a) (from b)),
    (N.compare_spec (to a) (to b)); intuition (congruence || lia).
Qed.

Lemma partial_cmp_from_lt a b :
  (from a < from b)%N → partial_cmp a b = Some Lt.
Proof. intros H%N.compare_lt_iff. unfold partial_cmp. by rewrite H. Qed.

Lemma edge_new_wf f t w : u32_ok f → u32_ok t → f32_valid w = true → wf (new f t w).
Proof. done. Qed.

(** ** Serialisation *)

(** An edge whose weight is a number deserialises to itself. *)
#[global] Instance Edge_RoundTrip : RoundTrip Edge serializable.
Proof.
  intros [f t w] (Hf & Ht & Hw). cbn in Hf, Ht, Hw.
  unfold serialize at 1, deserialize, Edge_Serialize, Edge_Deserialize.
  cbn [deserialize_struct visit_map String.eqb Ascii.eqb Bool.eqb from to weight
       visit_field take_field].
  by rewrite !round_trip.
Qed.

Lemma edge_visit_map_wf members f0 f1 f2 e :
  forallb (λ kv, Json.numbers_wf kv.2) members = true →
  from_option u32_ok True f0 → from_option u32_ok True f1 →
  from_option (λ x, f32_valid x = true) True f2 →
  visit_map members f0 f1 f2 = Ok e → wf e.
Proof.
  revert f0 f1 f2. induction members as [|[key d] members IH];
    intros f0 f1 f2 Hm H0 H1 H2; cbn [visit_map].
  { destruct f0, f1, f2; cbn; intros; by simplify_eq. }
  cbn in Hm. apply andb_prop in Hm as [Hd Hm].
  destruct (String.eqb key "from");
    [|destruct (String.eqb key "to");
      [|destruct (String.eqb key "weight"); [|by apply IH]]];
    intros (slot & Hs & Hr)%and_then_Ok;
    (eapply visit_field_wf in Hs; [|done..]); by eapply IH in Hr.
Qed.

(** Every edge that deserialisation returns satisfies the invariant of the
    type: its ids are [u32] and its weight is a binary32 float. *)
#[global] Instance Edge_DeserializeWf : DeserializeWf Edge wf.
Proof.
  intros d e Hd. unfold deserialize, Edge_Deserialize, deserialize_struct.
  destruct d as [| | | |elems|members]; try done.
  - unfold visit_seq. cbn in Hd.
    intros ([f0 r0] & [H0 Hr0]%next_element_wf & H)%and_then_Ok; [|done].
    apply and_then_Ok in H as ([f1 r1] & [H1 Hr1]%next_element_wf & H); [|done].
    apply and_then_Ok in H as ([f2 r2] & [H2 Hr2]%next_element_wf & H); [|done].
    by apply end_seq_Ok in H as ->.
  - by apply edge_visit_map_wf.
Qed.

(** An edge whose weight is not finite is written with a [null] weight,
    which does not deserialise. *)
Lemma edge_not_finite_no_round_trip e :
  u32_ok (from e) → u32_ok (to e) → f32_is_finite (weight e) = false →
  deserialize (T:=Edge) (serialize e) = Err InvalidType.
Proof.
  destruct e as [f t w]. cbn [from to weight]. intros Hf Ht Hw.
  unfold serialize at 1, deserialize, Edge_Serialize, Edge_Deserialize.
  cbn [deserialize_struct visit_map String.eqb Ascii.eqb Bool.eqb from to weight
       visit_field take_field].
  rewrite !(round_trip (T:=u32)) by done.
  unfold serialize, deserialize, f32_Serialize, f32_Deserialize.
  by rewrite Hw.
Qed.

(** C29. A well-formed edge survives serialisation exactly when its weight
    is finite: a finite weight is widened to binary64 and narrowed back
    without loss; an infinite or NaN weight is written as [null] and the
    document does not deserialise. *)
Theorem edge_round_trip_iff e :
  wf e → deserialize (serialize e) = Ok e ↔ f32_is_finite (weight e) = true.
Proof.
  intros (Hf & Ht & Hw). split.
  - destruct (f32_is_finite (weight e)) eqn:Hfin; [done|].
    by rewrite edge_not_finite_no_round_trip.
  - intros Hfin. apply round_trip. unfold serializable, f32_number.
    by rewrite Hw, Hfin.
Qed.

Lemma edge_round_trip_iff_witness :
  let e := new 3 1 (f32_of_ratio 8 10) in
  wf e ∧ (deserialize (serialize e) = Ok e ↔ f32_is_finite (weight e) = true).
Proof.
  intros e. assert (wf e) as He by (apply (bool_decide_unpack _); by vm_compute).
  split; [done|]. by apply (edge_round_trip_iff e).
Defined.

End Edge.

Abbreviation Edge := Edge.Edge.
