(* ===== verification/Random.v ===== *)
(** * Random: the contract of [rand]'s [gen_range] on a half-open range

    [MarkovChain::next] draws with [rng.gen_range(0.0..total_weight)].  The
    [rand] crate is not part of the repository; what the program relies on is
    the documented contract of [Rng::gen_range] for a range [low..high] of
    floats: the call panics when the range is empty (that is, unless
    [low < high], which is also false when a bound is NaN), and for finite
    bounds with [low < high] it returns a value [r] with [low <= r < high].
    Nothing is promised for an infinite bound.

    [RandomSource] states that contract for a generator state [R]; the
    theorems about [next] are proved against the class, for every source.
    Two deterministic sources implement it: [Lowest] always answers [low],
    [Scripted] replays a list of prepared draws. *)

From Stdlib Require Import SpecFloat.
From stdpp Require Import base tactics decidable option numbers list.
From S2P Require Import Prelude Float32.

Class RandomSource (R : Type) : Type := {
  gen_range : R → f32 → f32 → Exec (f32 * R);
  gen_range_empty g low high :
    (low <? high)%f32 = false → gen_range g low high = Panics;
  gen_range_in g low high :
    (low <? high)%f32 = true →
    f32_is_finite low = true → f32_is_finite high = true →
    ∃ r g', gen_range g low high = Returns (r, g')
            ∧ (low <=? r)%f32 = true ∧ (r <? high)%f32 = true
            ∧ (f32_valid low = true → f32_valid r = true);
}.

Arguments gen_range {R _} g low high.

(** ** The source that always draws the lower bound *)

Definition lowest_gen_range (g : unit) (low high : f32) : Exec (f32 * unit) :=
  if (low <? high)%f32 then Returns (low, g) else Panics.

(** ** The source that replays prepared draws

    A prepared draw is used when it is a well-formed float inside the range;
    otherwise (and when the script is exhausted) the lower bound is drawn. *)

Definition in_range (low high r : f32) : bool :=
  f32_valid r && (low <=? r)%f32 && (r <? high)%f32.

Definition scripted_gen_range (g : list f32) (low high : f32)
    : Exec (f32 * list f32) :=
  if (low <? high)%f32 then
    match g with
    | r :: g' => Returns (if in_range low high r then r else low, g')
    | [] => Returns (low, [])
    end
  else Panics.

Lemma f32_lt_le_refl low high : (low <? high)%f32 = true → (low <=? low)%f32 = true.
Proof.
  intros [Hl _]%f32_lt_not_nan. unfold f32_le, SFleb.
  change (SFcompare low low) with (f32_partial_cmp low low).
  rewrite f32_partial_cmp_refl. by destruct low.
Qed.

#[export] Program Instance Lowest : RandomSource unit :=
  {| gen_range := lowest_gen_range |}.
Next Obligation. intros g low high H. unfold lowest_gen_range. by rewrite H. Qed.
Next Obligation.
  intros g low high H _ _. exists low, g. unfold lowest_gen_range. rewrite H.
  eauto using f32_lt_le_refl.
Qed.

#[export] Program Instance Scripted : RandomSource (list f32) :=
  {| gen_range := scripted_gen_range |}.
Next Obligation. intros g low high H. unfold scripted_gen_range. by rewrite H. Qed.
Next Obligation.
  intros g low high H _ _. unfold scripted_gen_range. rewrite H.
  destruct g as [|r g']; [exists low, []; eauto using f32_lt_le_refl|].
  eexists _, g'. split; [done|]. unfold in_range.
  destruct (f32_valid r) eqn:?, (low <=? r)%f32 eqn:?, (r <? high)%f32 eqn:?;
    cbn; eauto using f32_lt_le_refl.
Qed.
