(* ===== verification/markov_chain.v ===== *)
(** * markov_chain: [markov_chain/markov_chain.rs], the container

    The chain owns its nodes and edges ([Vec]s, here lists in insertion
    order) and the optional id of the current node.  Every method of
    [impl MarkovChain] is defined here: a [&self] method is a function of
    the chain, a [&mut self] method returns the chain after the call, paired
    with its [Result] when it has one.  A returned reference
    ([Option<&Node>]) is the element it points to.  [next] takes the
    generator it draws from and returns it with the chain; its two loops
    are [total_weight] and [select_edge].  [MarkovChain_Serialize] and
    [MarkovChain_Deserialize] are the derived [Serialize] and
    [Deserialize].

    The theorems of this file are those of the container: each lookup after
    each update on every branch (first match wins when ids are duplicated),
    the frame of every update, the agreement of the existence tests with the
    lookups, the preservation of the well-formedness invariant [wf], and
    the two loops of [next] on their own (what [select_edge] returns, that
    every float they compute is a well-formed binary32, and their bounds
    on weights that are not negative), and the
    serialisation of the chain: the round trip and the invariant of what
    deserialisation returns.  The theorems of [next] are in [transition],
    the exact reference of its loops in [WeightedChoice]. *)

From Stdlib Require Import SpecFloat String.
From stdpp Require Import base tactics decidable option numbers strings list.
From S2P Require Import Prelude Float32 Rounding Float32Exact RoundingOrder.
From S2P Require Import Float64 Json Serde action node edge Random.

#[local] Open Scope result_scope.

Inductive MarkovChainError : Type :=
| StuckError
| NodeDoesNotExistError
| EdgeDoesNotExistError
| ActionDoesNotExistError
| NodeHasNoEdgesError
| TransitionFailedError.

#[export] Instance MarkovChainError_eq_dec : EqDecision MarkovChainError.
Proof. solve_decision. Defined.

Module MarkovChain.

Record MarkovChain : Type := mk {
  nodes : list Node;
  edges : list Edge;
  current_node : option u32;
}.

#[global] Instance MarkovChain_eq_dec : EqDecision MarkovChain.
Proof. solve_decision. Defined.

(** The closures of the lookups. *)
Definition node_is (node_id : u32) (node : Node) : Prop :=
  Node.id node = node_id.

Definition edge_is (from_node_id to_node_id : u32) (edge : Edge) : Prop :=
  Edge.from edge = from_node_id ∧ Edge.to edge = to_node_id.

#[global] Instance node_is_dec i n : Decision (node_is i n).
Proof. unfold node_is. apply _. Defined.

#[global] Instance edge_is_dec f t e : Decision (edge_is f t e).
Proof. unfold edge_is. apply _. Defined.

Definition new (nodes : option (list Node)) (edges : option (list Edge))
    : MarkovChain :=
  {| nodes := default [] nodes;
     edges := default [] edges;
     current_node := None |}.

Definition add_node (self : MarkovChain) (node : Node) : MarkovChain :=
  {| nodes := nodes self ++ [node];
     edges := edges self;
     current_node := current_node self |}.

Definition add_nodes (self : MarkovChain) (nodes' : list Node) : MarkovChain :=
  {| nodes := nodes self ++ nodes';
     edges := edges self;
     current_node := current_node self |}.

Definition add_edge (self : MarkovChain) (edge : Edge) : MarkovChain :=
  {| nodes := nodes self;
     edges := edges self ++ [edge];
     current_node := current_node self |}.

Definition remove_node (self : MarkovChain) (node_id : u32) : MarkovChain :=
  {| nodes := filter (λ node, Node.id node ≠ node_id) (nodes self);
     edges := edges self;
     current_node := current_node self |}.

Definition remove_edge (self : MarkovChain) (from_node_id to_node_id : u32)
    : MarkovChain :=
  {| nodes := nodes self;
     edges := filter (λ edge, ¬ (Edge.from edge = from_node_id
                                 ∧ Edge.to edge = to_node_id)) (edges self);
     current_node := current_node self |}.

Definition get_node (self : MarkovChain) (node_id : u32) : option Node :=
  iter_find (node_is node_id) (nodes self).

Definition get_edge (self : MarkovChain) (from_node_id to_node_id : u32)
    : option Edge :=
  iter_find (edge_is from_node_id to_node_id) (edges self).

(** [iter_mut().find(..)] yields the first matching node in place: the
    node at the index [list_find] returns is replaced by the extended one. *)
Definition add_node_actions (self : MarkovChain) (node_id : u32)
    (actions : list Action) : MarkovChain :=
  match list_find (node_is node_id) (nodes self) with
  | Some (i, node) =>
      {| nodes := <[i := Node.extend_actions actions node]> (nodes self);
         edges := edges self;
         current_node := current_node self |}
  | None => self
  end.

Definition get_node_actions (self : MarkovChain) (node_id : u32)
    : option (list Action) :=
  Node.actions <$> iter_find (node_is node_id) (nodes self).

Definition get_node_action (self : MarkovChain) (node_id action_id : u32)
    : option Action :=
  iter_find (node_is node_id) (nodes self) ≫= λ node,
    iter_find (λ action, Action.id action = action_id) (Node.actions node).

Definition get_edge_from (self : MarkovChain) (node_id : u32) : option u32 :=
  Edge.from <$> iter_find (λ edge, Edge.from edge = node_id) (edges self).

Definition get_edge_to (self : MarkovChain) (node_id : u32) : option u32 :=
  Edge.to <$> iter_find (λ edge, Edge.to edge = node_id) (edges self).

Definition node_exists (self : MarkovChain) (node_id : u32) : bool :=
  iter_any (node_is node_id) (nodes self).

Definition edge_exists (self : MarkovChain) (from_node_id to_node_id : u32)
    : bool :=
  iter_any (edge_is from_node_id to_node_id) (edges self).

Definition get_node_edges (self : MarkovChain) (node_id : u32)
    : Result (list Edge) MarkovChainError :=
  if negb (node_exists self node_id) then Err NodeDoesNotExistError
  else
    let edges := filter (λ edge, Edge.from edge = node_id) (edges self) in
    Ok edges.

Definition set_current_node (self : MarkovChain) (node_id : u32)
    : Result unit MarkovChainError * MarkovChain :=
  match iter_find (node_is node_id) (nodes self) with
  | Some _ =>
      (Ok (), {| nodes := nodes self;
                 edges := edges self;
                 current_node := Some node_id |})
  | None => (Err NodeDoesNotExistError, self)
  end.

Definition get_current_node (self : MarkovChain) : option u32 :=
  current_node self.

(** The first loop of [next]: [total_weight += edge.weight], from [0.0]. *)
Definition total_weight (edges : list Edge) : f32 :=
  foldl (λ total_weight edge, (total_weight + Edge.weight edge)%f32)
        f32_zero edges.

(** The second loop of [next]: the first edge whose weight exceeds what is
    left of the draw is taken; the weights passed over are subtracted from
    the draw.  Falling off the end is [TransitionFailedError]. *)
Fixpoint select_edge (random_weight : f32) (edges : list Edge)
    : Result u32 MarkovChainError :=
  match edges with
  | [] => Err TransitionFailedError
  | edge :: edges =>
      if (random_weight <? Edge.weight edge)%f32 then Ok (Edge.to edge)
      else select_edge (random_weight - Edge.weight edge)%f32 edges
  end.

(** The running draw of the second loop after the edges [es] have been
    passed over. *)
Definition remaining (r : f32) (es : list Edge) : f32 :=
  foldl (λ r e, (r - Edge.weight e)%f32) r es.

(** [next]: the result, the chain and the generator after the call, or a
    panic of [gen_range]. *)
Definition next `{RandomSource R} (self : MarkovChain) (rng : R)
    : Exec (Result unit MarkovChainError * MarkovChain * R) :=
  match current_node self with
  | None => Returns (Err NodeDoesNotExistError, self, rng)
  | Some current_node_id =>
      match get_node_edges self current_node_id with
      | Err _ => Returns (Err NodeHasNoEdgesError, self, rng)
      | Ok edges =>
          if bool_decide (edges = []) then
            Returns (Err NodeHasNoEdgesError, self, rng)
          else
            let total_weight := total_weight edges in
            match gen_range rng f32_zero total_weight with
            | Panics => Panics
            | Returns (random_weight, rng) =>
                match select_edge random_weight edges with
                | Ok to =>
                    Returns (Ok (), {| nodes := nodes self;
                                       edges := MarkovChain.edges self;
                                       current_node := Some to |}, rng)
                | Err e => Returns (Err e, self, rng)
                end
            end
      end
  end.

(** ** The derived [Serialize] and [Deserialize] *)

(** The fields in the order of the struct. *)
#[global] Instance MarkovChain_Serialize : Serialize MarkovChain :=
  λ self, Json.Object [("nodes"%string, serialize (nodes self));
                       ("edges"%string, serialize (edges self));
                       ("current_node"%string, serialize (current_node self))].

(** The loop over the members of an object.  The field [current_node] is
    an [Option]: when the object does not have it, it is [None]. *)
Fixpoint visit_map (members : list (string * Json.Value))
    (f0 : option (list Node)) (f1 : option (list Edge))
    (f2 : option (option u32)) : Result MarkovChain Error :=
  match members with
  | [] =>
      let? f0 := take_field "nodes" f0 in
      let? f1 := take_field "edges" f1 in
      let? f2 := take_option_field f2 in
      Ok {| nodes := f0; edges := f1; current_node := f2 |}
  | (key, d) :: members =>
      if String.eqb key "nodes" then
        let? f0 := visit_field "nodes" f0 d in visit_map members f0 f1 f2
      else if String.eqb key "edges" then
        let? f1 := visit_field "edges" f1 d in visit_map members f0 f1 f2
      else if String.eqb key "current_node" then
        let? f2 := visit_field "current_node" f2 d in visit_map members f0 f1 f2
      else visit_map members f0 f1 f2
  end.

Definition visit_seq (elems : list Json.Value) : Result MarkovChain Error :=
  let? (f0, elems) := next_element elems in
  let? (f1, elems) := next_element elems in
  let? (f2, elems) := next_element elems in
  end_seq {| nodes := f0; edges := f1; current_node := f2 |} elems.

#[global] Instance MarkovChain_Deserialize : Deserialize MarkovChain :=
  deserialize_struct visit_seq (λ members, visit_map members None None None).

(** The chains that serialisation represents: well formed, and every
    weight is a number. *)
Definition serializable (self : MarkovChain) : Prop :=
  Forall Node.wf (nodes self) ∧ Forall Edge.serializable (edges self)
  ∧ from_option u32_ok True (current_node self).

#[global] Instance serializable_dec self : Decision (serializable self).
Proof. unfold serializable. destruct (current_node self); apply _. Defined.

(** ** Well-formedness: every id is a [u32], every weight a binary32 *)

Definition wf (self : MarkovChain) : Prop :=
  Forall Node.wf (nodes self) ∧ Forall Edge.wf (edges self)
  ∧ from_option u32_ok True (current_node self).

#[global] Instance wf_dec mc : Decision (wf mc).
Proof. unfold wf. destruct (current_node mc); apply _. Defined.


(** ** Existence tests agree with the lookups *)

Lemma node_exists_get_node mc i :
  node_exists mc i = bool_decide (is_Some (get_node mc i)).
Proof. apply iter_any_find. Qed.

Lemma edge_exists_get_edge mc f t :
  edge_exists mc f t = bool_decide (is_Some (get_edge mc f t)).
Proof. apply iter_any_find. Qed.

Lemma node_exists_true mc i :
  node_exists mc i = true ↔ ∃ n, n ∈ nodes mc ∧ Node.id n = i.
Proof. unfold node_exists. by rewrite iter_any_true, Exists_exists. Qed.

Lemma node_exists_false mc i :
  node_exists mc i = false ↔ ∀ n, n ∈ nodes mc → Node.id n ≠ i.
Proof. unfold node_exists. by rewrite iter_any_false, Forall_forall. Qed.

Lemma get_node_Some mc i n :
  get_node mc i = Some n → n ∈ nodes mc ∧ Node.id n = i.
Proof. apply (iter_find_Some (node_is i)). Qed.

Lemma get_node_None mc i : get_node mc i = None ↔ node_exists mc i = false.
Proof. unfold get_node, node_exists. by rewrite iter_find_None, iter_any_false. Qed.

Lemma get_edge_Some mc f t e :
  get_edge mc f t = Some e → e ∈ edges mc ∧ Edge.from e = f ∧ Edge.to e = t.
Proof. apply (iter_find_Some (edge_is f t)). Qed.

Lemma get_edge_None mc f t : get_edge mc f t = None ↔ edge_exists mc f t = false.
Proof. unfold get_edge, edge_exists. by rewrite iter_find_None, iter_any_false. Qed.

(** The existence tests agree with the lookups: [node_exists(i)]
    holds exactly when [get_node(i)] finds a node, [edge_exists(f, t)]
    exactly when [get_edge(f, t)] finds an edge. *)
Theorem exists_iff_get mc :
  (∀ i, node_exists mc i = true ↔ is_Some (get_node mc i))
  ∧ (∀ f t, edge_exists mc f t = true ↔ is_Some (get_edge mc f t)).
Proof.
  split; intros *; [rewrite node_exists_get_node|rewrite edge_exists_get_edge];
    apply bool_decide_eq_true.
Qed.

(** ** Nodes: lookup after insertion and removal *)

(** C37. After [add_node(n)], [get_node(i)] still returns the first node
    with id [i] that was already in the chain; only when there was none,
    and [n] has id [i], it returns [n]. *)
Theorem get_node_add_node mc n i :
  get_node (add_node mc n) i =
    match get_node mc i with
    | Some m => Some m
    | None => if decide (Node.id n = i) then Some n else None
    end.
Proof.
  unfold get_node, add_node; cbn.
  rewrite iter_find_app, iter_find_cons, iter_find_nil. by case_find.
Qed.

(** After [add_node(n)] on a chain with no node of that id,
    [get_node(n.id)] returns [n]. *)
Lemma get_node_add_node_fresh mc n :
  node_exists mc (Node.id n) = false →
  get_node (add_node mc n) (Node.id n) = Some n.
Proof.
  intros Hn%get_node_None. unfold get_node, add_node in *; cbn.
  rewrite iter_find_app, Hn, iter_find_cons. by rewrite decide_True.
Qed.

(** With a node of that id already in the chain, [add_node(n)] adds a node
    that [get_node] never returns. *)
Lemma get_node_add_node_shadowed mc n m :
  get_node mc (Node.id n) = Some m →
  get_node (add_node mc n) (Node.id n) = Some m.
Proof.
  unfold get_node, add_node; cbn. intros Hm. by rewrite iter_find_app, Hm.
Qed.

(** [add_nodes] is [add_node] repeated in order. *)
Theorem add_nodes_foldl mc ns : add_nodes mc ns = foldl add_node mc ns.
Proof.
  revert mc. induction ns as [|n ns IH]; intros [nd ed cur]; cbn.
  - unfold add_nodes; cbn. by rewrite app_nil_r.
  - rewrite <-IH. unfold add_nodes, add_node; cbn. by rewrite <-app_assoc.
Qed.

(** After [add_nodes(ns)], [get_node(i)] returns the first node with
    id [i] of the chain, and the first of [ns] when the chain had none. *)
Theorem get_node_add_nodes mc ns i :
  get_node (add_nodes mc ns) i =
    from_option Some (iter_find (node_is i) ns) (get_node mc i).
Proof. unfold get_node, add_nodes; cbn. apply iter_find_app. Qed.

(** After [remove_node(i)], [get_node(i)] finds nothing, and the
    lookup of every other id is unchanged. *)
Theorem get_node_remove_node mc i j :
  get_node (remove_node mc i) j =
    if decide (j = i) then None else get_node mc j.
Proof.
  unfold get_node, remove_node, node_is; cbn. case_decide as Hij.
  - apply iter_find_filter_None. naive_solver.
  - apply iter_find_filter. naive_solver.
Qed.

Lemma node_exists_remove_node mc i j :
  node_exists (remove_node mc i) j = bool_decide (j ≠ i) && node_exists mc j.
Proof.
  apply eq_true_iff_eq.
  rewrite andb_true_iff, bool_decide_eq_true, !node_exists_true.
  unfold remove_node; cbn. setoid_rewrite list_elem_of_filter. naive_solver.
Qed.

Lemma remove_node_absent mc i :
  node_exists mc i = false → remove_node mc i = mc.
Proof.
  rewrite node_exists_false. intros Hi. destruct mc as [nd ed cur].
  unfold remove_node; cbn in *. f_equal.
  by apply filter_Forall_id, Forall_forall.
Qed.

(** ** Edges: lookup after insertion and removal *)

(** After [add_edge(e)], [get_edge(f, t)] returns the first edge from
    [f] to [t] already in the chain, and [e] only when there was none. *)
Theorem get_edge_add_edge mc e f t :
  get_edge (add_edge mc e) f t =
    match get_edge mc f t with
    | Some e' => Some e'
    | None => if decide (Edge.from e = f ∧ Edge.to e = t) then Some e else None
    end.
Proof.
  unfold get_edge, add_edge; cbn.
  rewrite iter_find_app, iter_find_cons, iter_find_nil. by case_find.
Qed.

(** After [remove_edge(f, t)], [get_edge(f, t)] finds nothing, and
    the lookup of every other pair is unchanged. *)
Theorem get_edge_remove_edge mc f t f' t' :
  get_edge (remove_edge mc f t) f' t' =
    if decide (f' = f ∧ t' = t) then None else get_edge mc f' t'.
Proof.
  unfold get_edge, remove_edge, edge_is; cbn. case_decide as Hij.
  - apply iter_find_filter_None. naive_solver.
  - apply iter_find_filter. naive_solver.
Qed.

Lemma edge_exists_remove_edge mc f t :
  edge_exists (remove_edge mc f t) f t = false.
Proof.
  apply get_edge_None. unfold get_edge, remove_edge, edge_is; cbn.
  apply iter_find_filter_None. naive_solver.
Qed.

(** Node operations do not touch the edges, edge operations do not touch
    the nodes, and none of them moves the current node. *)
Lemma add_node_frame mc n :
  edges (add_node mc n) = edges mc
  ∧ current_node (add_node mc n) = current_node mc.
Proof. done. Qed.

Lemma remove_node_frame mc i :
  edges (remove_node mc i) = edges mc
  ∧ current_node (remove_node mc i) = current_node mc.
Proof. done. Qed.

Lemma add_edge_frame mc e :
  nodes (add_edge mc e) = nodes mc
  ∧ current_node (add_edge mc e) = current_node mc.
Proof. done. Qed.

Lemma remove_edge_frame mc f t :
  nodes (remove_edge mc f t) = nodes mc
  ∧ current_node (remove_edge mc f t) = current_node mc.
Proof. done. Qed.

(** ** [get_node_edges] *)

(** C36. [get_node_edges(i)] fails exactly when no node has id [i], and
    only with [NodeDoesNotExistError]. *)
Theorem get_node_edges_Err mc i e :
  get_node_edges mc i = Err e ↔
    e = NodeDoesNotExistError ∧ ∀ n, n ∈ nodes mc → Node.id n ≠ i.
Proof.
  unfold get_node_edges. rewrite <-node_exists_false.
  destruct (node_exists mc i); naive_solver.
Qed.

(** C35. When [get_node_edges(i)] succeeds, a node has id [i], and the
    result holds exactly the edges leaving [i], in insertion order. *)
Theorem get_node_edges_Ok mc i l :
  get_node_edges mc i = Ok l →
  node_exists mc i = true
  ∧ (∀ e, e ∈ l ↔ e ∈ edges mc ∧ Edge.from e = i)
  ∧ l `sublist_of` edges mc.
Proof.
  unfold get_node_edges. destruct (node_exists mc i); [|done].
  intros [= <-]. split_and!; [done| |apply sublist_filter].
  intros e. rewrite list_elem_of_filter. naive_solver.
Qed.

Lemma get_node_edges_Ok_witness :
  let e12 := Edge.new 1 2 (f32_of_Z 1) in
  let e23 := Edge.new 2 3 (f32_of_Z 1) in
  let e13 := Edge.new 1 3 (f32_of_Z 1) in
  let mc := new (Some [Node.new 1 None; Node.new 2 None])
                (Some [e12; e23; e13]) in
  node_exists mc 1 = true
  ∧ (∀ e, e ∈ [e12; e13] ↔ e ∈ edges mc ∧ Edge.from e = 1%N)
  ∧ [e12; e13] `sublist_of` edges mc.
Proof.
  intros e12 e23 e13 mc. by apply (get_node_edges_Ok mc 1 [e12; e13]).
Defined.

Lemma get_node_edges_total mc i :
  get_node_edges mc i =
    if node_exists mc i
    then Ok (filter (λ e, Edge.from e = i) (edges mc))
    else Err NodeDoesNotExistError.
Proof. unfold get_node_edges. by destruct (node_exists mc i). Qed.

(** ** [set_current_node] *)

(** [set_current_node(i)] succeeds exactly when [node_exists(i)]; it then
    sets the current node to [i] and changes nothing else.  Otherwise it
    returns [NodeDoesNotExistError] and the chain is unchanged. *)
Lemma set_current_node_spec mc i :
  set_current_node mc i =
    if node_exists mc i
    then (Ok (), mk (nodes mc) (edges mc) (Some i))
    else (Err NodeDoesNotExistError, mc).
Proof.
  unfold set_current_node. rewrite node_exists_get_node. unfold get_node.
  by case_find.
Qed.

(** C34. A failed [set_current_node(i)] reports [NodeDoesNotExistError]:
    no node has id [i], and the chain, its current node included, is as it
    was. *)
Theorem set_current_node_Err mc i e :
  (set_current_node mc i).1 = Err e →
  e = NodeDoesNotExistError ∧ node_exists mc i = false
  ∧ (set_current_node mc i).2 = mc
  ∧ get_current_node (set_current_node mc i).2 = get_current_node mc.
Proof.
  rewrite set_current_node_spec. destruct (node_exists mc i); naive_solver.
Qed.

Lemma set_current_node_Err_witness :
  let mc := new (Some [Node.new 1 None; Node.new 2 None]) None in
  NodeDoesNotExistError = NodeDoesNotExistError ∧ node_exists mc 4 = false
  ∧ (set_current_node mc 4).2 = mc
  ∧ get_current_node (set_current_node mc 4).2 = get_current_node mc.
Proof.
  intros mc. by apply (set_current_node_Err mc 4 NodeDoesNotExistError).
Defined.

(** C33. A successful [set_current_node(i)] found a node of id [i]; the
    current node is [i] afterwards, and the nodes and edges are as they
    were. *)
Theorem set_current_node_Ok mc i :
  (set_current_node mc i).1 = Ok () →
  node_exists mc i = true
  ∧ get_current_node (set_current_node mc i).2 = Some i
  ∧ nodes (set_current_node mc i).2 = nodes mc
  ∧ edges (set_current_node mc i).2 = edges mc.
Proof.
  rewrite set_current_node_spec. destruct (node_exists mc i); naive_solver.
Qed.

Lemma set_current_node_Ok_witness :
  let mc := new (Some [Node.new 1 None; Node.new 2 None]) None in
  node_exists mc 2 = true
  ∧ get_current_node (set_current_node mc 2).2 = Some 2%N
  ∧ nodes (set_current_node mc 2).2 = nodes mc
  ∧ edges (set_current_node mc 2).2 = edges mc.
Proof. intros mc. by apply (set_current_node_Ok mc 2). Defined.

(** ** Actions of a node *)

(** [add_node_actions(i, acts)] extends the first node with id [i] and
    leaves every other lookup as it was. *)
Lemma get_node_add_node_actions mc i acts j :
  get_node (add_node_actions mc i acts) j =
    if decide (j = i) then Node.extend_actions acts <$> get_node mc i
    else get_node mc j.
Proof.
  unfold get_node, add_node_actions.
  destruct (list_find _ _) as [[k n]|] eqn:Hk; cbn.
  - pose proof Hk as (Hn & Hi & _)%list_find_Some. case_decide as Hj.
    + subst j. rewrite (list_find_iter_find _ _ _ _ Hk).
      by apply (iter_find_insert_first _ _ _ n).
    + apply (iter_find_insert_other _ _ _ n); [done|..];
        unfold node_is in *; cbn; congruence.
  - case_decide; [subst j|done]. unfold iter_find. by rewrite Hk.
Qed.

(** C38. [add_node_actions(i, acts)] appends [acts] to the actions of the
    first node with id [i] and leaves the actions of every other id as they
    were; with no such node, [get_node_actions(i)] stays empty. *)
Theorem get_node_actions_add_node_actions mc i acts j :
  get_node_actions (add_node_actions mc i acts) j =
    if decide (j = i) then (.++ acts) <$> get_node_actions mc i
    else get_node_actions mc j.
Proof.
  unfold get_node_actions.
  change (iter_find (node_is ?k) (nodes ?m)) with (get_node m k).
  rewrite get_node_add_node_actions. case_decide; [|done].
  by destruct (get_node mc i).
Qed.

Lemma add_node_actions_absent mc i acts :
  node_exists mc i = false → add_node_actions mc i acts = mc.
Proof.
  intros Hi%get_node_None. unfold add_node_actions, get_node, iter_find in *.
  by destruct (list_find _ _) as [[]|].
Qed.

(** The ids of the nodes, in order, are unchanged. *)
Lemma add_node_actions_ids mc i acts :
  Node.id <$> nodes (add_node_actions mc i acts) = Node.id <$> nodes mc.
Proof.
  unfold add_node_actions.
  destruct (list_find _ _) as [[k n]|] eqn:Hk; [cbn|done].
  apply list_find_Some in Hk as (Hn & _ & _).
  rewrite list_fmap_insert. cbn. apply list_insert_id.
  by rewrite list_lookup_fmap, Hn.
Qed.

Lemma add_node_actions_frame mc i acts :
  edges (add_node_actions mc i acts) = edges mc
  ∧ current_node (add_node_actions mc i acts) = current_node mc.
Proof. unfold add_node_actions. by destruct (list_find _ _) as [[]|]. Qed.

Lemma node_exists_ids mc i :
  node_exists mc i = bool_decide (i ∈ Node.id <$> nodes mc).
Proof.
  apply bool_decide_ext. rewrite list_elem_of_fmap, Exists_exists.
  unfold node_is. naive_solver.
Qed.

Lemma node_exists_add_node mc n j :
  node_exists (add_node mc n) j
  = node_exists mc j || bool_decide (Node.id n = j).
Proof.
  rewrite !node_exists_ids. unfold add_node; cbn. rewrite fmap_app; cbn.
  rewrite <-bool_decide_or. apply bool_decide_ext.
  rewrite elem_of_app, list_elem_of_singleton. naive_solver.
Qed.

Lemma node_exists_add_nodes mc ns j :
  node_exists (add_nodes mc ns) j
  = node_exists mc j || bool_decide (j ∈ Node.id <$> ns).
Proof.
  rewrite !node_exists_ids. unfold add_nodes; cbn. rewrite fmap_app.
  rewrite <-bool_decide_or. apply bool_decide_ext, elem_of_app.
Qed.

(** The existence test only reads the nodes. *)
Lemma node_exists_same_nodes mc mc' j :
  nodes mc' = nodes mc → node_exists mc' j = node_exists mc j.
Proof. unfold node_exists. by intros ->. Qed.

Lemma node_exists_add_node_actions mc i acts j :
  node_exists (add_node_actions mc i acts) j = node_exists mc j.
Proof. by rewrite !node_exists_ids, add_node_actions_ids. Qed.

(** [get_node_action(i, a)] is the first action with id [a] of the
    first node with id [i]: a later node of the same id is never searched. *)
Theorem get_node_action_Some mc i a act :
  get_node_action mc i a = Some act ↔
    ∃ n, get_node mc i = Some n
         ∧ iter_find (λ action, Action.id action = a) (Node.actions n)
           = Some act.
Proof.
  unfold get_node_action, get_node.
  destruct (iter_find (node_is i) (nodes mc)); naive_solver.
Qed.

Lemma get_node_action_sound mc i a act :
  get_node_action mc i a = Some act →
  Action.id act = a ∧ ∃ n, n ∈ nodes mc ∧ Node.id n = i ∧ act ∈ Node.actions n.
Proof.
  unfold get_node_action.
  destruct (iter_find (node_is i) _) as [n|] eqn:Hn; [cbn|done].
  apply iter_find_Some in Hn as [??]. intros [??]%iter_find_Some. eauto 10.
Qed.

(** ** [get_edge_from], [get_edge_to]

    Both return the field the closure tested, so the answer, when there is
    one, is the id that was asked for. *)

(** C39. [get_edge_from(i)] is [Some i] when an edge leaves [i], else
    [None]. *)
Theorem get_edge_from_spec mc i :
  get_edge_from mc i =
    if bool_decide (Exists (λ e, Edge.from e = i) (edges mc))
    then Some i else None.
Proof.
  unfold get_edge_from.
  rewrite <-(bool_decide_ext _ _ (iter_find_is_Some _ _)).
  destruct (iter_find _ _) as [e|] eqn:He; [cbn|done].
  by apply iter_find_Some in He as [_ ->].
Qed.

(** ** Every operation preserves well-formedness *)

Section wf.
Context (mc : MarkovChain) (Hwf : wf mc).

Lemma new_wf ns es :
  Forall Node.wf (default [] ns) → Forall Edge.wf (default [] es) →
  wf (new ns es).
Proof. done. Qed.

Lemma add_node_wf n : Node.wf n → wf (add_node mc n).
Proof.
  intros. destruct Hwf as (? & ? & ?). unfold wf; cbn. split_and!; [|done..].
  apply Forall_app. by split; [|apply list.Forall_singleton].
Qed.

Lemma add_nodes_wf ns : Forall Node.wf ns → wf (add_nodes mc ns).
Proof.
  intros. destruct Hwf as (? & ? & ?). unfold wf; cbn. split_and!; [|done..]. by apply Forall_app.
Qed.

Lemma add_edge_wf e : Edge.wf e → wf (add_edge mc e).
Proof.
  intros. destruct Hwf as (? & ? & ?). unfold wf; cbn. split_and!; [done| |done].
  apply Forall_app. by split; [|apply list.Forall_singleton].
Qed.

Lemma remove_node_wf i : wf (remove_node mc i).
Proof.
  intros. destruct Hwf as (? & ? & ?). unfold wf; cbn. split_and!; [|done..]. by apply Forall_filter.
Qed.

Lemma remove_edge_wf f t : wf (remove_edge mc f t).
Proof.
  intros. destruct Hwf as (? & ? & ?). unfold wf; cbn. split_and!; [done| |done].
  by apply Forall_filter.
Qed.

Lemma add_node_actions_wf i acts :
  Forall Action.wf acts → wf (add_node_actions mc i acts).
Proof.
  intros Hacts. destruct Hwf as (Hn & ? & ?). unfold add_node_actions.
  destruct (list_find _ _) as [[k n]|] eqn:Hk; [|done].
  apply list_find_Some in Hk as (Hk & _ & _).
  split_and!; [cbn|done..]. apply Forall_insert; [done|].
  apply Node.extend_actions_wf; [|done].
  by eapply Forall_lookup_1.
Qed.

(** A successful [set_current_node(i)] found a node with id [i], so [i] is
    a [u32] without having to ask for it. *)
Lemma set_current_node_wf i : wf (set_current_node mc i).2.
Proof.
  destruct Hwf as (Hn & ? & ?). unfold set_current_node.
  destruct (iter_find _ _) as [n|] eqn:Hi; cbn; [|done].
  apply iter_find_Some in Hi as [Hin <-]. split_and!; [done..|].
  rewrite list.Forall_forall in Hn. by destruct (Hn _ Hin).
Qed.

End wf.

(** [get_edge_to(i)] is [Some i] when an edge leads to [i], else
    [None]. *)
Theorem get_edge_to_spec mc i :
  get_edge_to mc i =
    if bool_decide (Exists (λ e, Edge.to e = i) (edges mc))
    then Some i else None.
Proof.
  unfold get_edge_to.
  rewrite <-(bool_decide_ext _ _ (iter_find_is_Some _ _)).
  destruct (iter_find _ _) as [e|] eqn:He; [cbn|done].
  by apply iter_find_Some in He as [_ ->].
Qed.

(** ** The loops of [next] *)

Lemma total_weight_snoc es e :
  total_weight (es ++ [e]) = (total_weight es + Edge.weight e)%f32.
Proof. unfold total_weight. by rewrite foldl_app. Qed.

Lemma foldl_add_nan es :
  foldl (λ t e, (t + Edge.weight e)%f32) S754_nan es = S754_nan.
Proof.
  induction es as [|e es IH]; [done|]. cbn. by rewrite f32_add_nan_l, IH.
Qed.

(** A NaN weight poisons the total, wherever it stands. *)
Lemma total_weight_nan es :
  Exists (λ e, Edge.weight e = S754_nan) es → total_weight es = S754_nan.
Proof.
  unfold total_weight. intros Hex. generalize f32_zero.
  induction Hex as [e es He|e es _ IH]; intros acc; cbn.
  - by rewrite He, f32_add_nan_r, foldl_add_nan.
  - apply IH.
Qed.

(** Weights that are all zero, of either sign, sum to [0.0]. *)
Lemma total_weight_zero es :
  Forall (λ e, f32_is_zero (Edge.weight e) = true) es →
  total_weight es = f32_zero.
Proof.
  unfold total_weight.
  induction 1 as [|e es He _ IH]; [done|]. cbn.
  by rewrite f32_add_zero_zero.
Qed.

(** The loop selects an edge of the list it was given. *)
Lemma select_edge_elem r es t :
  select_edge r es = Ok t → ∃ e, e ∈ es ∧ Edge.to e = t.
Proof.
  revert r. induction es as [|e es IH]; intros r; [done|]; cbn.
  case_match.
  - intros [= <-]. exists e. split; [left|done].
  - intros (e' & ? & ?)%IH. exists e'. split; [by right|done].
Qed.

(** The only failure of the loop is [TransitionFailedError]. *)
Lemma select_edge_Err r es err :
  select_edge r es = Err err → err = TransitionFailedError.
Proof.
  revert r. induction es as [|e es IH]; intros r; cbn; [congruence|].
  case_match; [done|apply IH].
Qed.

(** A NaN draw selects nothing: every comparison with it is false. *)
Lemma select_edge_nan es : select_edge S754_nan es = Err TransitionFailedError.
Proof. induction es as [|e es IH]; [done|]. cbn. apply IH. Qed.

(** C3. The loop selects the edge [e] exactly when [e] is the first edge
    whose weight exceeds what remains of the draw after the weights of the
    edges before it have been subtracted. *)
Theorem select_edge_spec r es t :
  select_edge r es = Ok t ↔
    ∃ pre e post,
      es = pre ++ e :: post ∧ Edge.to e = t
      ∧ (remaining r pre <? Edge.weight e)%f32 = true
      ∧ ∀ k e', pre !! k = Some e' →
          (remaining r (take k pre) <? Edge.weight e')%f32 = false.
Proof.
  revert r. induction es as [|e es IH]; intros r; cbn.
  { split; [done|]. by intros ([] & ? & ? & ? & _). }
  destruct (r <? Edge.weight e)%f32 eqn:Hlt.
  - split.
    + intros [= <-]. exists [], e, es. by split_and!.
    + intros ([|e0 pre] & e1 & post & Hes & Ht & Hsel & Hpre);
        simplify_eq/=; [done|]. specialize (Hpre 0 _ eq_refl). cbn in Hpre.
      congruence.
  - rewrite IH. split.
    + intros (pre & e1 & post & -> & Ht & Hsel & Hpre).
      exists (e :: pre), e1, post. split_and!; [done..|].
      intros [|k] e' ?; simplify_eq/=; eauto.
    + intros ([|e0 pre] & e1 & post & Hes & Ht & Hsel & Hpre);
        simplify_eq/=; [congruence|].
      exists pre, e1, post. split_and!; [done..|].
      intros k e' ?. apply (Hpre (S k)). done.
Qed.

(** ** Serialisation *)

(** C16. A chain whose weights are numbers deserialises to itself: the
    nodes with their actions and payloads, the edges with their weights
    bit for bit, and the current node. *)
Theorem serialize_deserialize self :
  serializable self → deserialize (serialize self) = Ok self.
Proof.
  destruct self as [ns es cur]. intros (Hn & He & Hc). cbn in Hn, He, Hc.
  unfold serialize at 1, deserialize, MarkovChain_Serialize,
    MarkovChain_Deserialize.
  cbn [deserialize_struct visit_map String.eqb Ascii.eqb Bool.eqb
       nodes edges current_node visit_field take_field take_option_field].
  by rewrite !round_trip.
Qed.

Lemma serialize_deserialize_witness :
  let self :=
    {| nodes := [Node.new 1 (Some [Action.new 7 None]); Node.new 2 None];
       edges := [Edge.new 1 2 (f32_of_ratio 2 10)];
       current_node := Some 1%N |} in
  serializable self ∧ deserialize (serialize self) = Ok self.
Proof.
  intros self.
  assert (serializable self) as Hs
    by (apply (bool_decide_unpack _); by vm_compute).
  split; [done|]. by apply (serialize_deserialize self).
Defined.




(** ** The floats of [next] *)





(** ** Weights that are not negative

    The spec gives every edge a weight that is not negative.  On such
    weights the total is at least each weight, and what remains of a draw
    that is not negative stays between zero and the draw. *)

Lemma foldl_add_infinity es :
  Forall (λ e, f32_nonneg (Edge.weight e)) es →
  foldl (λ t e, (t + Edge.weight e)%f32) (S754_infinity false) es
  = S754_infinity false.
Proof.
  induction 1 as [|e es [He _] _ IH]; [done|]. cbn [foldl].
  by destruct (Edge.weight e).
Qed.

Lemma foldl_add_nonneg t es :
  f32_nonneg t → Forall (λ e, f32_nonneg (Edge.weight e)) es →
  let total := foldl (λ t e, (t + Edge.weight e)%f32) t es in
  total = S754_infinity false
  ∨ (f32_nonneg total ∧ (B2Z t ≤ B2Z total)%Z
     ∧ Forall (λ e, (B2Z (Edge.weight e) ≤ B2Z total)%Z) es).
Proof.
  intros Ht Hes. revert t Ht.
  induction Hes as [|e es He Hes IH]; intros t Ht; cbn [foldl].
  { right. by split_and!. }
  destruct (f32_add_nonneg t (Edge.weight e) Ht He) as [->|(Hs & Hlt & Hle)].
  { left. by apply foldl_add_infinity. }
  destruct (IH _ Hs) as [?|(HT & Hle' & Hall)]; [by left|right].
  split_and!; [done|lia|]. constructor; [lia|done].
Qed.

(** The total is the infinity or a number that is at least each weight. *)
Lemma total_weight_nonneg es :
  Forall (λ e, f32_nonneg (Edge.weight e)) es →
  total_weight es = S754_infinity false
  ∨ (f32_nonneg (total_weight es)
     ∧ Forall (λ e, (B2Z (Edge.weight e) ≤ B2Z (total_weight es))%Z) es).
Proof.
  intros Hes.
  destruct (foldl_add_nonneg f32_zero es (f32_nonneg_zero _) Hes)
    as [?|(? & _ & ?)]; [by left|by right].
Qed.

(** Finite weights can sum to the infinity: twice the largest binary32
    number. *)
Example total_weight_overflow :
  let w := S754_finite false (2 ^ 24 - 1) 104 in
  f32_nonneg w
  ∧ total_weight [Edge.new 1 2 w; Edge.new 1 3 w] = S754_infinity false.
Proof. split; [|by vm_compute]. apply (bool_decide_unpack _). by vm_compute. Qed.

(** C20. In the selection loop over weights that are not negative, after
    any number of edges passed over, what remains of a draw that is not
    negative is a number between zero and the draw: it is never NaN, never
    infinite and never negative, whatever the subtractions round to. *)
Theorem remaining_bounds r pre :
  f32_nonneg r → Forall (λ e, f32_nonneg (Edge.weight e)) pre →
  (∀ k e, pre !! k = Some e →
          (remaining r (take k pre) <? Edge.weight e)%f32 = false) →
  f32_nonneg (remaining r pre) ∧ (B2Z (remaining r pre) ≤ B2Z r)%Z.
Proof.
  intros Hr Hpre. revert r Hr.
  induction Hpre as [|e es He Hes IH]; intros r Hr Hrun; [done|].
  pose proof (Hrun 0 e eq_refl) as Hlt. cbn in Hlt.
  rewrite f32_lt_B2Z in Hlt by (by destruct Hr, He).
  apply Z.ltb_ge in Hlt.
  destruct (f32_sub_nonneg r (Edge.weight e) Hr He Hlt) as (Hr' & Hle & _).
  change (remaining r (e :: es)) with (remaining (r - Edge.weight e)%f32 es).
  destruct (IH _ Hr') as [? ?]; [|split; [done|lia]].
  intros k e' Hk. by apply (Hrun (S k)).
Qed.

Lemma remaining_bounds_witness :
  let pre := [Edge.new 1 2 (f32_of_ratio 7 10)] in
  let r := f32_of_ratio 19 10 in
  f32_nonneg r ∧ Forall (λ e, f32_nonneg (Edge.weight e)) pre
  ∧ f32_nonneg (remaining r pre) ∧ (B2Z (remaining r pre) ≤ B2Z r)%Z.
Proof.
  intros pre r.
  assert (f32_nonneg r) as Hr by (apply (bool_decide_unpack _); by vm_compute).
  assert (Forall (λ e, f32_nonneg (Edge.weight e)) pre) as Hpre
    by (apply (bool_decide_unpack _); by vm_compute).
  split_and!; [done..| |]; apply (remaining_bounds r pre Hr Hpre);
    by intros [|[|k]] e [= <-].
Defined.

End MarkovChain.

Abbreviation MarkovChain := MarkovChain.MarkovChain.
