(* ===== verification/WeightedChoice.v ===== *)
(** * WeightedChoice: the exact reference of the selection, and refinement

    [Spec.choose] is the weighted choice by cumulative subtraction in exact
    rational arithmetic: what the two loops of [MarkovChain::next] compute
    when no operation rounds.  Its theorems are the promises of the
    algorithm: with non-negative weights every draw in [0, total) selects
    an edge, and the edge selected is the one whose interval of cumulative
    weight contains the draw, an interval as long as the weight of the edge.

    The [f32] loops refine it: [select_edge_refines] and
    [total_weight_refines] hold for every run in which no addition or
    subtraction rounds ([exact_run], [exact_total]: executable checks of
    one run), the comparisons being exact by [f32_comparisons_exact].  When a
    subtraction does round, the [f32] loop can fall off the end although the
    draw is below the total ([transition_failed_reachable]), but only on a
    draw within a few units in the last place of the exact sum of the
    weights ([select_edge_Err_near_total]).

    [well_spaced] is a condition on the weights alone (each is positive and
    the weights after it sum to less than [2 ^ 24] of its units in the last
    place) under which every run of [select_edge] on a draw in [0, total)
    is exact, hence selects an edge ([select_edge_well_spaced]). *)

From Stdlib Require Import ZArith QArith Lqa SpecFloat.
From stdpp Require Import base tactics decidable option numbers list.
From S2P Require Import Prelude Float32 Float32Exact RoundingOrder Json.
From S2P Require Import action node edge Random markov_chain.

(** ** Definitions *)

Module Spec.

(** The first entry whose weight exceeds what is left of the draw. *)
Fixpoint choose (r : Q) (ws : list (Q * u32)) : option u32 :=
  match ws with
  | [] => None
  | (w, t) :: ws => if Qlt_le_dec r w then Some t else choose (r - w) ws
  end.

Definition total (ws : list (Q * u32)) : Q :=
  foldr (λ wt t, (fst wt + t)%Q) 0%Q ws.

Definition nonneg (ws : list (Q * u32)) : Prop :=
  Forall (λ wt, (0 <= fst wt)%Q) ws.

End Spec.

(** The weights and targets of a list of edges, as exact rationals. *)
Definition abs_edges (es : list Edge) : list (Q * u32) :=
  (λ e, (B2Q (Edge.weight e), Edge.to e)) <$> es.

(** The subtraction [x - y] and the addition [x + y] did not round. *)
Definition exact_sub (x y : f32) : bool :=
  f32_number (x - y)%f32 && (B2Z (x - y)%f32 =? B2Z x - B2Z y)%Z.

Definition exact_add (x y : f32) : bool :=
  f32_number (x + y)%f32 && (B2Z (x + y)%f32 =? B2Z x + B2Z y)%Z.

(** No subtraction of the selection loop on draw [r] rounds. *)
Fixpoint exact_run (r : f32) (es : list Edge) : bool :=
  match es with
  | [] => true
  | e :: es =>
      f32_number (Edge.weight e)
      && (if (r <? Edge.weight e)%f32 then true
          else exact_sub r (Edge.weight e)
               && exact_run (r - Edge.weight e)%f32 es)
  end.

(** No addition of the summation loop from [acc] rounds. *)
Fixpoint exact_total (acc : f32) (es : list Edge) : bool :=
  match es with
  | [] => true
  | e :: es =>
      f32_number (Edge.weight e) && exact_add acc (Edge.weight e)
      && exact_total (acc + Edge.weight e)%f32 es
  end.

(** The sum of the values of the weights, in units of [2 ^ f32_emin]. *)
Definition sumZ (es : list Edge) : Z :=
  foldr (λ e s, (B2Z (Edge.weight e) + s)%Z) 0%Z es.

(** A condition on the weights alone under which no subtraction of the
    selection loop rounds, whatever the draw: every weight is a positive
    number, and the weights after it sum to at most [2 ^ 24] units in its
    last place. *)
Fixpoint well_spaced (es : list Edge) : bool :=
  match es with
  | [] => true
  | e :: es =>
      f32_number (Edge.weight e) && (0 <? B2Z (Edge.weight e))%Z
      && (sumZ es <=? 2 ^ 24 * 2 ^ (f32_exp (Edge.weight e) - f32_emin))%Z
      && well_spaced es
  end.

(** ** The exact choice *)

#[export] Instance choose_proper : Proper (Qeq ==> eq ==> eq) Spec.choose.
Proof.
  intros r r' Hr ws ? <-. revert r r' Hr.
  induction ws as [|[w t] ws IH]; intros r r' Hr; [done|]. cbn.
  destruct (Qlt_le_dec r w), (Qlt_le_dec r' w); try done;
    [lra..|]. apply IH. by rewrite Hr.
Qed.

Lemma total_app ws1 ws2 :
  (Spec.total (ws1 ++ ws2) == Spec.total ws1 + Spec.total ws2)%Q.
Proof.
  unfold Spec.total. induction ws1 as [|[w t] ws1 IH]; cbn; [lra|].
  rewrite IH. lra.
Qed.

Lemma total_nonneg ws : Spec.nonneg ws → (0 <= Spec.total ws)%Q.
Proof.
  unfold Spec.total. induction 1 as [|[w t] ws ? _ IH]; cbn in *; lra.
Qed.

(** The choice only fails on a draw that is not below the total. *)
Lemma choose_None_ge ws r :
  Spec.choose r ws = None → (Spec.total ws <= r)%Q ∨ (r < 0)%Q.
Proof.
  revert r. unfold Spec.total.
  induction ws as [|[w t] ws IH]; intros r; cbn; [intros _|].
  { destruct (Qlt_le_dec r 0); [by right|left; lra]. }
  destruct (Qlt_le_dec r w); [done|]. intros [?|?]%IH; left; cbn in *; lra.
Qed.

(** Every draw in [0, total) selects, whatever the signs of the weights:
    in exact arithmetic the loop cannot fall off the end. *)
Lemma choose_is_Some ws r :
  (0 <= r)%Q → (r < Spec.total ws)%Q → is_Some (Spec.choose r ws).
Proof.
  intros Hr Hlt. destruct (Spec.choose r ws) eqn:Hc; [done|].
  apply choose_None_ge in Hc as [?|?]; lra.
Qed.

(** With non-negative weights, a draw [r >= 0] selects the target [t]
    exactly when [t] is the target of an entry whose interval of cumulative
    weight, [total pre <= r < total pre + w], contains the draw: each entry
    is selected by an interval of draws as long as its weight. *)
Lemma choose_interval ws r t :
  Spec.nonneg ws → (0 <= r)%Q →
  Spec.choose r ws = Some t ↔
    ∃ pre w post,
      ws = pre ++ (w, t) :: post
      ∧ (Spec.total pre <= r)%Q ∧ (r < Spec.total pre + w)%Q.
Proof.
  intros Hws. revert r.
  induction Hws as [|[w t'] ws Hw Hws IH]; intros r Hr; cbn in *.
  { split; [done|]. by intros ([] & ? & ? & ? & _). }
  destruct (Qlt_le_dec r w) as [Hlt|Hle].
  - split.
    + intros [= ->]. exists [], w, ws. cbn. split_and!; [done|lra..].
    + intros ([|[w0 t0] pre] & w1 & post & Hes & Hlo & Hhi);
        simplify_eq/=; [done|].
      pose proof (total_nonneg pre) as Hpre.
      apply Forall_app in Hws as [Hpre' _]. specialize (Hpre Hpre').
      unfold Spec.total in *. lra.
  - rewrite IH by lra. split.
    + intros (pre & w1 & post & -> & Hlo & Hhi).
      exists ((w, t') :: pre), w1, post. cbn.
      unfold Spec.total in *. split_and!; [done|lra..].
    + intros ([|[w0 t0] pre] & w1 & post & Hes & Hlo & Hhi);
        simplify_eq/=; [unfold Spec.total in *; cbn in *; lra|].
      exists pre, w1, post. unfold Spec.total in *. split_and!; [done|lra..].
Qed.

(** The weights of [main] out of node 3, exactly: a draw of [1/2] is below
    [4/5] and takes the first edge. *)
Example choose_interval_main :
  Spec.choose (1 # 2) [(4 # 5, 1%N); (2 # 5, 2%N)]%Q = Some 1%N.
Proof.
  apply choose_interval; [by repeat constructor|done|].
  exists [], (4 # 5)%Q, [(2 # 5, 2%N)]%Q. by split_and!.
Qed.

(** ** Refinement of the [f32] loops *)

Lemma exact_sub_spec x y :
  exact_sub x y = true →
  f32_number (x - y)%f32 = true ∧ (B2Q (x - y)%f32 == B2Q x - B2Q y)%Q.
Proof.
  unfold exact_sub. intros [? ?%Z.eqb_eq]%andb_prop. split; [done|].
  by apply B2Q_sub.
Qed.

Lemma exact_add_spec x y :
  exact_add x y = true →
  f32_number (x + y)%f32 = true ∧ (B2Q (x + y)%f32 == B2Q x + B2Q y)%Q.
Proof.
  unfold exact_add. intros [? ?%Z.eqb_eq]%andb_prop. split; [done|].
  by apply B2Q_add.
Qed.

(** The comparison of the loop is the comparison of the values. *)
Lemma f32_lt_B2Q x y :
  f32_number x = true → f32_number y = true →
  (x <? y)%f32 = true ↔ (B2Q x < B2Q y)%Q.
Proof.
  intros Hx Hy. by rewrite f32_lt_B2Z, B2Q_lt, Z.ltb_lt.
Qed.

(** The simulation: a draw [r] of value [q] on a run without rounding
    selects what the exact choice selects on [q]. *)
Lemma select_edge_choose r q es :
  f32_number r = true → (B2Q r == q)%Q → exact_run r es = true →
  MarkovChain.select_edge r es
  = from_option Ok (Err TransitionFailedError)
      (Spec.choose q (abs_edges es)).
Proof.
  revert r q. induction es as [|e es IH]; intros r q Hr Hq; [done|]. cbn.
  intros [Hw Hrun]%andb_prop.
  pose proof (f32_lt_B2Q r (Edge.weight e) Hr Hw) as Hlt.
  destruct (r <? Edge.weight e)%f32; destruct (Qlt_le_dec _ _) as [Hc|Hc];
    try done.
  - destruct Hlt as [Hlt _]. specialize (Hlt eq_refl). lra.
  - rewrite <-Hq in Hc. by apply Hlt in Hc.
  - apply andb_prop in Hrun as [[Hr' Hsub]%exact_sub_spec Hrun].
    apply IH; [done| |done]. by rewrite Hsub, Hq.
Qed.

(** C6. On a run without rounding, the selection loop on [f32] computes
    the exact choice on the values of the draw and of the weights. *)
Theorem select_edge_refines r es :
  f32_number r = true → exact_run r es = true →
  MarkovChain.select_edge r es
  = from_option Ok (Err TransitionFailedError)
      (Spec.choose (B2Q r) (abs_edges es)).
Proof. intros Hr Hrun. by apply select_edge_choose. Qed.

Lemma select_edge_refines_witness :
  let es := [Edge.new 1 2 (f32_of_Z 1); Edge.new 1 3 (f32_of_Z 1)] in
  let r := f32_of_ratio 3 2 in
  MarkovChain.select_edge r es
  = from_option Ok (Err TransitionFailedError)
      (Spec.choose (B2Q r) (abs_edges es)).
Proof.
  intros es r. apply (select_edge_refines r es); by vm_compute.
Defined.

(** On a summation without rounding, the total is the exact sum. *)
Lemma foldl_add_refines acc es :
  f32_number acc = true → exact_total acc es = true →
  f32_number (foldl (λ t e, (t + Edge.weight e)%f32) acc es) = true
  ∧ (B2Q (foldl (λ t e, (t + Edge.weight e)%f32) acc es)
     == B2Q acc + Spec.total (abs_edges es))%Q.
Proof.
  revert acc. induction es as [|e es IH]; intros acc Hacc;
    cbn [exact_total foldl].
  { intros _. split; [done|]. unfold Spec.total; cbn. lra. }
  intros [[Hw [Hacc' Hadd]%exact_add_spec]%andb_prop Htot]%andb_prop.
  destruct (IH _ Hacc' Htot) as [? Heq]. split; [done|].
  change (Spec.total (abs_edges (e :: es)))
    with (B2Q (Edge.weight e) + Spec.total (abs_edges es))%Q.
  rewrite Heq, Hadd. lra.
Qed.

Lemma B2Q_zero : (B2Q f32_zero == 0)%Q.
Proof. done. Qed.

(** C24. On a summation without rounding, [total_weight] is a number
    whose value is the exact sum of the values of the weights. *)
Theorem total_weight_refines es :
  exact_total f32_zero es = true →
  f32_number (MarkovChain.total_weight es) = true
  ∧ (B2Q (MarkovChain.total_weight es) == Spec.total (abs_edges es))%Q.
Proof.
  intros Htot. destruct (foldl_add_refines f32_zero es) as [? Heq]; [done..|].
  split; [done|]. unfold MarkovChain.total_weight. rewrite Heq, B2Q_zero. lra.
Qed.

Lemma total_weight_refines_witness :
  let es := [Edge.new 3 1 (f32_of_ratio 1 2); Edge.new 3 2 (f32_of_ratio 1 4)] in
  f32_number (MarkovChain.total_weight es) = true
  ∧ (B2Q (MarkovChain.total_weight es) == Spec.total (abs_edges es))%Q.
Proof. intros es. apply (total_weight_refines es). by vm_compute. Defined.

(** The weights of [main], [0.8] and [0.4], do not sum exactly. *)
Example main_weights_round :
  exact_total f32_zero
    [Edge.new 3 1 (f32_of_ratio 8 10); Edge.new 3 2 (f32_of_ratio 4 10)]
  = false.
Proof. by vm_compute. Qed.

Lemma abs_edges_nonneg es :
  Forall (λ e, (0 ≤ B2Z (Edge.weight e))%Z) es → Spec.nonneg (abs_edges es).
Proof.
  unfold Spec.nonneg, abs_edges. rewrite Forall_fmap.
  intros Hes. eapply Forall_impl; [done|].
  intros e He. cbn in *. unfold B2Q, Qle; cbn. lia.
Qed.

(** A split of the abstraction of [es] is the abstraction of a split. *)
Lemma abs_edges_split es pre w t post :
  abs_edges es = pre ++ (w, t) :: post →
  ∃ pre' e post',
    es = pre' ++ e :: post' ∧ pre = abs_edges pre'
    ∧ w = B2Q (Edge.weight e) ∧ t = Edge.to e.
Proof.
  unfold abs_edges.
  intros (pre' & rest & -> & (e & post' & [= -> ->] & _ & ->)%eq_sym%fmap_cons_inv
          & ->)%fmap_app_inv.
  by exists pre', e, post'.
Qed.

(** C7. On a run without rounding over non-negative weights, a draw
    [r >= 0] selects the target of the edge whose interval of cumulative
    weight contains the value of the draw, and nothing else: each edge is
    taken on an interval of draws as long as its weight. *)
Theorem select_edge_interval r es t :
  f32_number r = true → (0 ≤ B2Z r)%Z → exact_run r es = true →
  Forall (λ e, (0 ≤ B2Z (Edge.weight e))%Z) es →
  MarkovChain.select_edge r es = Ok t ↔
    ∃ pre e post,
      es = pre ++ e :: post ∧ Edge.to e = t
      ∧ (Spec.total (abs_edges pre) <= B2Q r)%Q
      ∧ (B2Q r < Spec.total (abs_edges pre) + B2Q (Edge.weight e))%Q.
Proof.
  intros Hr Hr0 Hrun Hws.
  rewrite (select_edge_choose r (B2Q r) es) by done.
  transitivity (Spec.choose (B2Q r) (abs_edges es) = Some t).
  { destruct (Spec.choose _ _); naive_solver. }
  rewrite choose_interval;
    [|by apply abs_edges_nonneg|unfold B2Q, Qle; cbn; lia].
  split.
  - intros (pre & w & post & (pre' & e & post' & -> & -> & -> & ->)%abs_edges_split
            & ? & ?). by exists pre', e, post'.
  - intros (pre & e & post & -> & <- & ? & ?).
    exists (abs_edges pre), (B2Q (Edge.weight e)), (abs_edges post).
    split_and!; [|done..]. unfold abs_edges. by rewrite fmap_app.
Qed.

Lemma select_edge_interval_witness :
  let e12 := Edge.new 1 2 (f32_of_Z 1) in
  let e13 := Edge.new 1 3 (f32_of_Z 1) in
  let r := f32_of_ratio 3 2 in
  MarkovChain.select_edge r [e12; e13] = Ok 3%N ↔
    ∃ pre e post,
      [e12; e13] = pre ++ e :: post ∧ Edge.to e = 3%N
      ∧ (Spec.total (abs_edges pre) <= B2Q r)%Q
      ∧ (B2Q r < Spec.total (abs_edges pre) + B2Q (Edge.weight e))%Q.
Proof.
  intros e12 e13 r.
  apply (select_edge_interval r [e12; e13] 3); [by vm_compute..|].
  repeat constructor; by vm_compute.
Defined.

(** On a run without rounding, a draw of value in [0, total) selects. *)
Lemma select_edge_below_total r es :
  f32_number r = true → (0 ≤ B2Z r)%Z → exact_run r es = true →
  (B2Q r < Spec.total (abs_edges es))%Q →
  ∃ e, e ∈ es ∧ MarkovChain.select_edge r es = Ok (Edge.to e).
Proof.
  intros Hr Hr0 Hrun Hlt.
  pose proof (select_edge_choose r (B2Q r) es Hr (reflexivity _) Hrun) as Hsel.
  destruct (Spec.choose _ _) as [t|] eqn:Ht; cbn in Hsel.
  - destruct (MarkovChain.select_edge_elem r es t Hsel) as (e & ? & <-).
    eauto.
  - apply choose_None_ge in Ht as [?|Hneg]; [lra|].
    unfold B2Q, Qlt in Hneg; cbn in Hneg. lia.
Qed.

(** A draw below a total that was summed without rounding is below the
    exact sum. *)
Lemma total_weight_lt r es :
  f32_number r = true → exact_total f32_zero es = true →
  (r <? MarkovChain.total_weight es)%f32 = true →
  (B2Q r < Spec.total (abs_edges es))%Q.
Proof.
  intros Hr Htot Hlt.
  destruct (foldl_add_refines f32_zero es) as [Hnum Hsum]; [done..|].
  apply f32_lt_B2Q in Hlt; [|done..]. unfold MarkovChain.total_weight in Hlt.
  by rewrite Hsum, B2Q_zero, Qplus_0_l in Hlt.
Qed.

(** The exact sum, as a fraction of the integer sum. *)
Lemma total_sumZ es : (Spec.total (abs_edges es) == sumZ es # 2 ^ 149)%Q.
Proof.
  induction es as [|e es IH]; [done|].
  change (Spec.total (abs_edges (e :: es)))
    with (B2Q (Edge.weight e) + Spec.total (abs_edges es))%Q.
  change (sumZ (e :: es)) with (B2Z (Edge.weight e) + sumZ es)%Z.
  rewrite IH. unfold B2Q, Qeq, Qplus; cbn [Qnum Qden].
  rewrite Pos2Z.inj_mul. ring.
Qed.

Lemma B2Q_lt_sumZ r es :
  (B2Q r < Spec.total (abs_edges es))%Q ↔ (B2Z r < sumZ es)%Z.
Proof.
  rewrite total_sumZ. unfold B2Q, Qlt; cbn [Qnum Qden].
  split; [|nia]. intros H. nia.
Qed.

(** Well-spaced weights make every run exact. *)
Lemma well_spaced_exact_run es r :
  well_spaced es = true → f32_number r = true →
  (0 ≤ B2Z r < sumZ es)%Z → exact_run r es = true.
Proof.
  revert r. induction es as [|e es IH]; intros r; [done|].
  cbn [well_spaced exact_run sumZ foldr]. fold (sumZ es).
  intros [[[Hw Hpos%Z.ltb_lt]%andb_prop Hsp%Z.leb_le]%andb_prop Hes]%andb_prop
    Hr [Hr0 Hlt].
  rewrite Hw. cbn [andb]. destruct (r <? Edge.weight e)%f32 eqn:Hcmp; [done|].
  rewrite f32_lt_B2Z in Hcmp by done. apply Z.ltb_ge in Hcmp.
  destruct (f32_sub_draw r (Edge.weight e)) as [Hr' Heq]; [done|done|lia|lia|].
  unfold exact_sub. rewrite Hr', Heq, Z.eqb_refl. cbn [andb].
  apply IH; [done..|lia].
Qed.

(** A total that was summed without rounding is the integer sum. *)
Lemma total_weight_sumZ es :
  exact_total f32_zero es = true →
  f32_number (MarkovChain.total_weight es) = true
  ∧ B2Z (MarkovChain.total_weight es) = sumZ es.
Proof.
  intros Htot.
  destruct (foldl_add_refines f32_zero es) as [Hnum Hsum]; [done..|].
  split; [done|]. unfold MarkovChain.total_weight.
  rewrite B2Q_zero, Qplus_0_l, total_sumZ in Hsum.
  unfold B2Q, Qeq in Hsum; cbn [Qnum Qden] in Hsum. nia.
Qed.

(** Well-spaced weights are positive. *)
Lemma well_spaced_sumZ_pos es :
  es ≠ [] → well_spaced es = true → (0 < sumZ es)%Z.
Proof.
  assert (∀ es, well_spaced es = true → (0 ≤ sumZ es)%Z) as Hnn.
  { clear. induction es as [|e es IH]; [done|]. cbn [well_spaced sumZ foldr].
    fold (sumZ es).
    intros [[[_ ?%Z.ltb_lt]%andb_prop _]%andb_prop ?%IH]%andb_prop. lia. }
  destruct es as [|e es]; [done|]. intros _ Hsp. pose proof Hsp as Hsp'.
  cbn [well_spaced] in Hsp.
  apply andb_prop in Hsp as [[[_ ?%Z.ltb_lt]%andb_prop _]%andb_prop ?%Hnn].
  cbn [sumZ foldr]. fold (sumZ es). lia.
Qed.

(** With well-spaced weights summed without rounding, every draw that
    [gen_range] may return selects an edge: for such weights the selection
    loop of [next] never fails, whatever is drawn. *)
Lemma select_edge_well_spaced r es :
  well_spaced es = true → exact_total f32_zero es = true →
  f32_valid r = true → (f32_zero <=? r)%f32 = true →
  (r <? MarkovChain.total_weight es)%f32 = true →
  ∃ e, e ∈ es ∧ MarkovChain.select_edge r es = Ok (Edge.to e).
Proof.
  intros Hsp Htot Hv Hlo Hhi.
  pose proof (f32_between_number r _ Hv Hlo Hhi) as Hr.
  assert (0 ≤ B2Z r)%Z as Hr0.
  { rewrite f32_le_B2Z in Hlo by done. by apply Z.leb_le in Hlo. }
  pose proof (total_weight_lt r es Hr Htot Hhi) as Hlt.
  apply select_edge_below_total; [done..| |done].
  apply well_spaced_exact_run; [done..|]. split; [done|].
  by apply B2Q_lt_sumZ.
Qed.

(** Three equal weights are well spaced; four are not: after the first,
    the three that follow exceed [2 ^ 24] units in its last place. *)
Example well_spaced_equal_weights :
  let e := Edge.new 1 2 (f32_of_Z 1) in
  well_spaced [e; e; e] = true ∧ well_spaced [e; e; e; e] = false.
Proof. by vm_compute. Qed.

(** C12. On a run without rounding, a draw in [0, total) always selects an
    edge, whatever the signs of the weights: [TransitionFailedError] needs
    a rounding (or a draw outside the range). *)
Theorem select_edge_exact_Ok r es :
  f32_number r = true → (0 ≤ B2Z r)%Z →
  exact_total f32_zero es = true → exact_run r es = true →
  (r <? MarkovChain.total_weight es)%f32 = true →
  ∃ e, e ∈ es ∧ MarkovChain.select_edge r es = Ok (Edge.to e).
Proof.
  intros Hr Hr0 Htot Hrun Hlt. apply select_edge_below_total; [done..|].
  by apply total_weight_lt.
Qed.

Lemma select_edge_exact_Ok_witness :
  let es := [Edge.new 1 2 (f32_of_Z 1); Edge.new 1 3 (f32_of_Z 1)] in
  let r := f32_of_ratio 3 2 in
  ∃ e, e ∈ es ∧ MarkovChain.select_edge r es = Ok (Edge.to e).
Proof.
  intros es r. apply (select_edge_exact_Ok r es); by vm_compute.
Defined.


(** ** How far from the total a failing draw can be *)

(** C13. Over weights that are not negative, the selection loop falls off
    the end only on a draw that is within [n - 1] units in its last place
    of the exact sum of the [n] weights: each subtraction it rounds exceeds
    the exact difference by less than one such unit. *)
Theorem select_edge_Err_near_total r e es err :
  f32_nonneg r → Forall (λ e, f32_nonneg (Edge.weight e)) (e :: es) →
  MarkovChain.select_edge r (e :: es) = Err err →
  (sumZ (e :: es) ≤ B2Z r + Z.of_nat (length es) * f32_ulp r)%Z.
Proof.
  revert e r. induction es as [|e' es IH]; intros e r Hr Hes;
    apply Forall_cons in Hes as [He Hes];
    cbn [sumZ foldr MarkovChain.select_edge];
    destruct (r <? Edge.weight e)%f32 eqn:Hlt; try done;
    rewrite f32_lt_B2Z in Hlt by (by destruct Hr, He);
    apply Z.ltb_ge in Hlt; intros Hsel.
  { cbn. lia. }
  destruct (f32_sub_nonneg r (Edge.weight e) Hr He Hlt) as (Hr' & Hle & Hulp).
  specialize (IH e' _ Hr' Hes Hsel). cbn [sumZ foldr] in IH.
  pose proof (f32_ulp_mono _ _ Hr Hr' Hle) as Hmono.
  assert (Z.of_nat (length es) * f32_ulp (r - Edge.weight e)%f32
          ≤ Z.of_nat (length es) * f32_ulp r)%Z
    by (apply Z.mul_le_mono_nonneg_l; lia).
  cbn [length]. rewrite Nat2Z.inj_succ. lia.
Qed.

(** The draw of [transition_failed_reachable]: one unit in the last place
    below [2.0], while the weights sum to half a unit below [2.0]. *)
Lemma select_edge_Err_near_total_witness :
  let e := Edge.new 1 2 (f32_of_ratio 7 10) in
  let es := [Edge.new 1 3 (f32_of_ratio 13 10)] in
  let r := f32_of_ratio (2 ^ 24 - 1) (2 ^ 23) in
  (B2Z r < sumZ (e :: es) ≤ B2Z r + Z.of_nat (length es) * f32_ulp r)%Z.
Proof.
  intros e es r. split; [by vm_compute|].
  apply (select_edge_Err_near_total r e es TransitionFailedError).
  - apply (bool_decide_unpack _). by vm_compute.
  - apply (bool_decide_unpack _). by vm_compute.
  - by vm_compute.
Defined.
