(* ===== verification/transition.v ===== *)
(** * transition: [MarkovChain::next] and the chain as a state machine

    [MarkovChain.next] (defined in [markov_chain]) is studied here against the
    class [RandomSource]: every statement holds for every source of
    randomness that honours the range contract of [gen_range].

    - [next] on every branch: the three error results, the panic of
      [gen_range] on an empty range, and success; on weights that are not
      negative it never panics unless the total is zero or overflows
      ([next_nonneg_weights]);
    - the labelled step relation [step] of the chain (one rule per method
      that takes [&mut self]) and its closure [steps] under a guard, with
      the invariants proved by induction over the rules;
    - [live]: every node has outgoing edges whose weights are
      [well_spaced] and sum without rounding; on a live, closed chain
      [next] succeeds any number of times ([next_runs_forever]);
    - [panic_free]: the edges that leave each node have [sound_weights]
      (none negative, NaN or infinite, one positive, a finite total); it
      is an invariant of the calls that satisfy [keeps_weights], and on a
      chain that satisfies it [next] does not panic ([steps_no_panic]);
    - each theorem with hypotheses is followed, after its section, by an
      instance on the chain of the unit tests. *)

From Stdlib Require Import ZArith Lia SpecFloat.
From stdpp Require Import base tactics decidable option numbers list.
From S2P Require Import Prelude Float32 Float32Exact RoundingOrder Json.
From S2P Require Import action node edge.
From S2P Require Import Random markov_chain WeightedChoice.

(** ** Definitions *)

(** The outgoing edges [next] works on. *)
Definition outgoing (mc : MarkovChain) (i : u32) : list Edge :=
  filter (λ e, Edge.from e = i) (MarkovChain.edges mc).

(** A label is one call of the API with its arguments and, for the two
    fallible calls, its result. *)
Inductive label : Type :=
| AddNode (n : Node)
| AddNodes (ns : list Node)
| AddEdge (e : Edge)
| RemoveNode (i : u32)
| RemoveEdge (f t : u32)
| AddNodeActions (i : u32) (acts : list Action)
| SetCurrentNode (i : u32) (res : Result unit MarkovChainError)
| Next (res : Result unit MarkovChainError).


(** The current node, when there is one, is a node of the chain. *)
Definition current_valid (mc : MarkovChain) : Prop :=
  ∀ i, MarkovChain.current_node mc = Some i →
       MarkovChain.node_exists mc i = true.

(** Every edge leads to a node of the chain. *)
Definition closed (mc : MarkovChain) : Prop :=
  Forall (λ e, MarkovChain.node_exists mc (Edge.to e) = true)
         (MarkovChain.edges mc).

(** The graph invariant: the current node exists and the graph is closed. *)
Definition graph_ok (mc : MarkovChain) : Prop := current_valid mc ∧ closed mc.

#[export] Instance current_valid_dec mc : Decision (current_valid mc).
Proof.
  unfold current_valid. destruct (MarkovChain.current_node mc) as [i|].
  - destruct (MarkovChain.node_exists mc i) eqn:Hi.
    + left. by intros ? [= <-].
    + right. intros Hv. specialize (Hv i eq_refl). congruence.
  - left. done.
Defined.

#[export] Instance closed_dec mc : Decision (closed mc).
Proof. unfold closed. apply _. Defined.

(** A call that keeps the graph closed around the current node: an added
    edge leads to an existing node, a removed node is neither the current
    node nor the target of an edge. *)
Definition keeps_graph (mc : MarkovChain) (l : label) : Prop :=
  match l with
  | AddEdge e => MarkovChain.node_exists mc (Edge.to e) = true
  | RemoveNode i =>
      MarkovChain.current_node mc ≠ Some i
      ∧ Forall (λ e, Edge.to e ≠ i) (MarkovChain.edges mc)
  | _ => True
  end.

#[export] Instance keeps_graph_dec mc l : Decision (keeps_graph mc l).
Proof. destruct l; cbn; apply _. Defined.

(** One call.  A state is the chain with the generator; a call that panics
    makes no step. *)
Inductive step `{RandomSource R}
    : MarkovChain * R → label → MarkovChain * R → Prop :=
| step_add_node mc g n :
    step (mc, g) (AddNode n) (MarkovChain.add_node mc n, g)
| step_add_nodes mc g ns :
    step (mc, g) (AddNodes ns) (MarkovChain.add_nodes mc ns, g)
| step_add_edge mc g e :
    step (mc, g) (AddEdge e) (MarkovChain.add_edge mc e, g)
| step_remove_node mc g i :
    step (mc, g) (RemoveNode i) (MarkovChain.remove_node mc i, g)
| step_remove_edge mc g f t :
    step (mc, g) (RemoveEdge f t) (MarkovChain.remove_edge mc f t, g)
| step_add_node_actions mc g i acts :
    step (mc, g) (AddNodeActions i acts)
         (MarkovChain.add_node_actions mc i acts, g)
| step_set_current_node mc g i :
    step (mc, g) (SetCurrentNode i (MarkovChain.set_current_node mc i).1)
         ((MarkovChain.set_current_node mc i).2, g)
| step_next mc g res mc' g' :
    MarkovChain.next mc g = Returns (res, mc', g') →
    step (mc, g) (Next res) (mc', g').

(** A sequence of calls, each of which satisfies the guard [G] in the
    state it is made in. *)
Inductive steps `{RandomSource R} (G : MarkovChain → label → Prop)
    : MarkovChain * R → list label → MarkovChain * R → Prop :=
| steps_nil s : steps G s [] s
| steps_cons s l s' ls s'' :
    G s.1 l → step s l s' → steps G s' ls s'' → steps G s (l :: ls) s''.

(** The guards: any call; calls with well-formed arguments. *)
Definition any_call (_ : MarkovChain) (_ : label) : Prop := True.


(** A chain on which [next] cannot get stuck: edges leave every node, and
    their weights are well spaced and sum without rounding. *)
Definition live (mc : MarkovChain) : Prop :=
  Forall (λ n, outgoing mc (Node.id n) ≠ []
               ∧ well_spaced (outgoing mc (Node.id n)) = true
               ∧ exact_total f32_zero (outgoing mc (Node.id n)) = true)
         (MarkovChain.nodes mc).

#[export] Instance live_dec mc : Decision (live mc).
Proof. unfold live. apply _. Defined.

(** Weights on which the draw of [next] cannot panic: none is negative,
    NaN or infinite, one is positive, and their [f32] total is finite. *)
Definition sound_weights (es : list Edge) : Prop :=
  Forall (λ e, f32_nonneg (Edge.weight e)) es
  ∧ Exists (λ e, (0 < B2Z (Edge.weight e))%Z) es
  ∧ MarkovChain.total_weight es ≠ S754_infinity false.

#[export] Instance sound_weights_dec es : Decision (sound_weights es).
Proof. unfold sound_weights. apply _. Defined.

(** The edges that leave a node, whenever there are any, have sound
    weights. *)
Definition panic_free (mc : MarkovChain) : Prop :=
  Forall (λ e, sound_weights (outgoing mc (Edge.from e)))
         (MarkovChain.edges mc).

#[export] Instance panic_free_dec mc : Decision (panic_free mc).
Proof. unfold panic_free. apply _. Defined.

(** A call that keeps the weights sound: the edges that leave the source
    of an added edge are sound with it, and those that leave the source of
    a removed edge are sound without it, unless none is left. *)
Definition keeps_weights (mc : MarkovChain) (l : label) : Prop :=
  match l with
  | AddEdge e => sound_weights (outgoing mc (Edge.from e) ++ [e])
  | RemoveEdge f t =>
      let rest := filter (λ e, Edge.to e ≠ t) (outgoing mc f) in
      rest = [] ∨ sound_weights rest
  | _ => True
  end.

#[export] Instance keeps_weights_dec mc l : Decision (keeps_weights mc l).
Proof. destruct l; cbn; apply _. Defined.

(** The calls that only move the position: [set_current_node], [next]. *)
Definition move_call (_ : MarkovChain) (l : label) : Prop :=
  match l with
  | SetCurrentNode _ _ | Next _ => True
  | _ => False
  end.

(** The chain of the unit tests of [markov_chain.rs] (three nodes, the
    edges 1-2, 1-3 and 2-3 of weight [1.0]) with a current node: the input
    of the instances below, which draw from the source [Lowest]. *)
Local Notation demo_nodes :=
  [Node.new 1 None; Node.new 2 None; Node.new 3 None].
Local Notation demo_edges :=
  [Edge.new 1 2 (f32_of_Z 1); Edge.new 1 3 (f32_of_Z 1);
   Edge.new 2 3 (f32_of_Z 1)].
Local Notation demo cur := (MarkovChain.mk demo_nodes demo_edges cur).

(** ** [next], branch by branch *)

Section next.
Context `{RandomSource R}.
Implicit Types (mc : MarkovChain) (g : R).

(** [next] with its guards merged: the equation every proof starts from. *)
Lemma next_eq mc g :
  MarkovChain.next mc g =
    match MarkovChain.current_node mc with
    | None => Returns (Err NodeDoesNotExistError, mc, g)
    | Some i =>
        if negb (MarkovChain.node_exists mc i)
           || bool_decide (outgoing mc i = [])
        then Returns (Err NodeHasNoEdgesError, mc, g)
        else
          match gen_range g f32_zero
                  (MarkovChain.total_weight (outgoing mc i)) with
          | Panics => Panics
          | Returns (r, g') =>
              match MarkovChain.select_edge r (outgoing mc i) with
              | Ok to =>
                  Returns (Ok (), MarkovChain.mk (MarkovChain.nodes mc)
                                    (MarkovChain.edges mc) (Some to), g')
              | Err e => Returns (Err e, mc, g')
              end
          end
    end.
Proof.
  unfold MarkovChain.next, outgoing.
  destruct (MarkovChain.current_node mc) as [i|]; [|done].
  rewrite MarkovChain.get_node_edges_total.
  destruct (MarkovChain.node_exists mc i); [cbn|done]. by case_bool_decide.
Qed.

(** Past the guards, a positive finite total makes the draw return. *)
Lemma gen_range_total g es :
  (f32_zero <? MarkovChain.total_weight es)%f32 = true →
  MarkovChain.total_weight es ≠ S754_infinity false →
  ∃ r g', gen_range g f32_zero (MarkovChain.total_weight es) = Returns (r, g')
          ∧ (r <? MarkovChain.total_weight es)%f32 = true
          ∧ f32_valid r = true
          ∧ (f32_zero <=? r)%f32 = true.
Proof.
  intros Hlt Hfin.
  destruct (gen_range_in g f32_zero (MarkovChain.total_weight es))
    as (r & g' & ? & ? & ? & Hv); [done..|by apply f32_lt_zero_finite|].
  exists r, g'. split_and!; [done..|by apply Hv|done].
Qed.

(** On sound weights the total is positive and finite: the draw
    returns. *)
Lemma gen_range_sound g es :
  sound_weights es →
  ∃ r g', gen_range g f32_zero (MarkovChain.total_weight es) = Returns (r, g').
Proof.
  intros (Hw & Hpos & Hfin).
  destruct (MarkovChain.total_weight_nonneg _ Hw) as [?|[[Hn _] Hall]]; [done|].
  destruct (gen_range_total g es) as (r & g' & -> & _); [|done|by eauto].
  rewrite f32_lt_B2Z by done. apply Z.ltb_lt. change (B2Z f32_zero) with 0%Z.
  apply Exists_exists in Hpos as (e & He & Hpos).
  rewrite Forall_forall in Hall. specialize (Hall e He). lia.
Qed.

End next.

(** Case analysis along [next_eq]: no current node; a current node whose
    lookup failed or found no edge; the draw panicked; the selection failed;
    the selection succeeded. *)
Ltac next_cases mc g :=
  rewrite next_eq;
  let i := fresh "i" in
  destruct (MarkovChain.current_node mc) as [i|] eqn:?Hcur;
  [destruct (MarkovChain.node_exists mc i) eqn:?Hex; cbn [negb orb];
   [destruct (bool_decide_reflect (outgoing mc i = [])) as [?Hout|?Hout];
    [|destruct (gen_range _ _ _) as [[?r ?g]|] eqn:?Hgen;
      [destruct (MarkovChain.select_edge _ _) as [?t|?err] eqn:?Hsel|]]|]|].

Section next_contract.
Context `{RandomSource R}.
Implicit Types (mc : MarkovChain) (g : R).

(** What [next] returned, whatever the result: the nodes and the edges are
    those of before, and the chain is as before or its current node moved
    along an edge. *)
Lemma next_Returns mc g res mc' g' :
  MarkovChain.next mc g = Returns (res, mc', g') →
  MarkovChain.nodes mc' = MarkovChain.nodes mc
  ∧ MarkovChain.edges mc' = MarkovChain.edges mc
  ∧ (res ≠ Ok () ∧ mc' = mc
     ∨ res = Ok ()
       ∧ ∃ e, e ∈ MarkovChain.edges mc
              ∧ MarkovChain.node_exists mc (Edge.from e) = true
              ∧ MarkovChain.current_node mc = Some (Edge.from e)
              ∧ MarkovChain.current_node mc' = Some (Edge.to e)).
Proof.
  next_cases mc g; intros [= <- <- <-]; try by (split_and!; [..|left]).
  apply MarkovChain.select_edge_elem in Hsel
    as (e & [<- ?]%list_elem_of_filter & <-).
  split_and!; [done..|right]. eauto 10.
Qed.

(** C1. A successful [next] moved the current node along an edge that
    leaves it, and changed neither the nodes nor the edges. *)
Theorem next_Ok mc g mc' g' :
  MarkovChain.next mc g = Returns (Ok (), mc', g') →
  ∃ i e, MarkovChain.current_node mc = Some i
         ∧ MarkovChain.node_exists mc i = true
         ∧ e ∈ outgoing mc i
         ∧ MarkovChain.current_node mc' = Some (Edge.to e)
         ∧ MarkovChain.nodes mc' = MarkovChain.nodes mc
         ∧ MarkovChain.edges mc' = MarkovChain.edges mc.
Proof.
  intros (? & ? & [[? _]|[_ (e & ? & ? & ? & ?)]])%next_Returns; [done|].
  exists (Edge.from e), e. split_and!; try done.
  by apply list_elem_of_filter.
Qed.

(** The guards of [next]: with no current node it fails with
    [NodeDoesNotExistError]; with a current node that is no longer among
    the nodes, or that no edge leaves, it fails with [NodeHasNoEdgesError].
    In each case the chain and the generator are as they were: nothing was
    drawn. *)
Theorem next_guards mc g :
  (MarkovChain.current_node mc = None →
   MarkovChain.next mc g = Returns (Err NodeDoesNotExistError, mc, g))
  ∧ (∀ i, MarkovChain.current_node mc = Some i →
          MarkovChain.node_exists mc i = false ∨ outgoing mc i = [] →
          MarkovChain.next mc g = Returns (Err NodeHasNoEdgesError, mc, g)).
Proof.
  rewrite next_eq. split; [by intros ->|]. intros i -> [->| ->]; [done|].
  by rewrite bool_decide_eq_true_2, orb_true_r.
Qed.

(** C2. A failed [next] leaves the chain as it was, and fails with one of
    three errors, each for its own reason. *)
Theorem next_Err mc g err mc' g' :
  MarkovChain.next mc g = Returns (Err err, mc', g') →
  mc' = mc
  ∧ (err = NodeDoesNotExistError ∧ MarkovChain.current_node mc = None
     ∨ err = NodeHasNoEdgesError
       ∧ (∃ i, MarkovChain.current_node mc = Some i
               ∧ (MarkovChain.node_exists mc i = false ∨ outgoing mc i = []))
     ∨ err = TransitionFailedError
       ∧ ∃ i, MarkovChain.current_node mc = Some i ∧ outgoing mc i ≠ []).
Proof.
  next_cases mc g; intros [= <- <- <-]; (split; [done|]).
  - right; left. eauto.
  - apply MarkovChain.select_edge_Err in Hsel as ->. right; right. eauto.
  - right; left. eauto.
  - by left.
Qed.

(** When the current node has outgoing edges whose total weight is not
    above zero (zero, negative or NaN), the range handed to [gen_range] is
    empty and [next] panics. *)
Lemma next_empty_range mc g i :
  MarkovChain.current_node mc = Some i →
  MarkovChain.node_exists mc i = true →
  outgoing mc i ≠ [] →
  (f32_zero <? MarkovChain.total_weight (outgoing mc i))%f32 = false →
  MarkovChain.next mc g = Panics.
Proof.
  intros Hc Hi Ho Hlt. rewrite next_eq. rewrite Hc, Hi; cbn.
  rewrite bool_decide_eq_false_2 by done.
  by rewrite (gen_range_empty g _ _ Hlt).
Qed.

(** C4. With a total that is not [+inf], [next] panics exactly when the
    current node exists and has outgoing edges whose total weight is not
    above zero. *)
Theorem next_Panics mc g :
  (∀ i, MarkovChain.current_node mc = Some i →
        MarkovChain.total_weight (outgoing mc i) ≠ S754_infinity false) →
  MarkovChain.next mc g = Panics ↔
    ∃ i, MarkovChain.current_node mc = Some i
         ∧ MarkovChain.node_exists mc i = true
         ∧ outgoing mc i ≠ []
         ∧ (f32_zero <? MarkovChain.total_weight (outgoing mc i))%f32 = false.
Proof.
  intros Hfin. split.
  - next_cases mc g; try done. intros _. exists i. split_and!; [done..|].
    destruct (f32_zero <? _)%f32 eqn:Hlt; [|done].
    destruct (gen_range_total g _ Hlt) as (? & ? & ? & _); [by apply Hfin|].
    congruence.
  - intros (i & ? & ? & ? & ?). by apply (next_empty_range _ _ i).
Qed.

(** C5. Weights that are not negative, one of them positive, and a total
    that did not overflow: [next] does not panic and returns no guard
    error.  It moves along an edge that leaves the current node, or
    returns [TransitionFailedError] and leaves the chain as it was. *)
Theorem next_nonneg_weights mc g i :
  MarkovChain.current_node mc = Some i →
  MarkovChain.node_exists mc i = true →
  Forall (λ e, f32_nonneg (Edge.weight e)) (outgoing mc i) →
  Exists (λ e, (0 < B2Z (Edge.weight e))%Z) (outgoing mc i) →
  MarkovChain.total_weight (outgoing mc i) ≠ S754_infinity false →
  ∃ g',
    (∃ e, e ∈ outgoing mc i
          ∧ MarkovChain.next mc g
            = Returns (Ok (), MarkovChain.mk (MarkovChain.nodes mc)
                                (MarkovChain.edges mc) (Some (Edge.to e)), g'))
    ∨ MarkovChain.next mc g = Returns (Err TransitionFailedError, mc, g').
Proof.
  intros Hc Hi Hw Hpos Hfin. rewrite next_eq. rewrite Hc, Hi. cbn [negb orb].
  rewrite bool_decide_eq_false_2 by (by intros Hnil; rewrite Hnil in Hpos;
                                     apply Exists_nil in Hpos).
  destruct (gen_range_sound g (outgoing mc i)) as (r & g' & ->); [done|].
  exists g'. destruct (MarkovChain.select_edge r (outgoing mc i)) eqn:Hsel.
  - left. apply MarkovChain.select_edge_elem in Hsel as (e & ? & <-).
    by exists e.
  - right. by apply MarkovChain.select_edge_Err in Hsel as ->.
Qed.

(** A NaN weight on an edge leaving the current node makes [next]
    panic. *)
Theorem next_nan_weight_panics mc g i e :
  MarkovChain.current_node mc = Some i →
  MarkovChain.node_exists mc i = true →
  e ∈ outgoing mc i →
  Edge.weight e = S754_nan →
  MarkovChain.next mc g = Panics.
Proof.
  intros Hc Hi Hout Hnan.
  apply (next_empty_range _ _ i); [done..| |].
  - intros Hnil. rewrite Hnil in Hout. by apply elem_of_nil in Hout.
  - rewrite MarkovChain.total_weight_nan; [done|].
    apply Exists_exists. by exists e.
Qed.

(** When every edge leaving the current node weighs zero, [next]
    panics. *)
Theorem next_zero_weights_panics mc g i :
  MarkovChain.current_node mc = Some i →
  MarkovChain.node_exists mc i = true →
  outgoing mc i ≠ [] →
  Forall (λ e, f32_is_zero (Edge.weight e) = true) (outgoing mc i) →
  MarkovChain.next mc g = Panics.
Proof.
  intros Hc Hi Ho Hz. apply (next_empty_range _ _ i); [done..|].
  by rewrite MarkovChain.total_weight_zero.
Qed.

(** With a single edge leaving the current node, of positive finite
    weight, [next] always takes it, whatever the source draws. *)
Theorem next_single_edge mc g i e :
  MarkovChain.current_node mc = Some i →
  MarkovChain.node_exists mc i = true →
  outgoing mc i = [e] →
  (f32_zero <? Edge.weight e)%f32 = true →
  Edge.weight e ≠ S754_infinity false →
  ∃ g', MarkovChain.next mc g =
          Returns (Ok (), MarkovChain.mk (MarkovChain.nodes mc)
                            (MarkovChain.edges mc) (Some (Edge.to e)), g').
Proof.
  intros Hc Hi Ho Hpos Hfin. rewrite next_eq. rewrite Hc, Hi, Ho.
  cbn [negb orb]. rewrite bool_decide_eq_false_2 by done.
  assert (MarkovChain.total_weight [e] = Edge.weight e) as Htot
    by apply (f32_add_zero_pos _ Hpos).
  destruct (gen_range_total g [e]) as (r & g' & Hgen & Hlt & _);
    rewrite ?Htot; [done..|].
  rewrite Htot in Hgen, Hlt. rewrite Hgen. exists g'. cbn. by rewrite Hlt.
Qed.

(** When the weights of the edges leaving the current node are well spaced
    and sum without rounding, [next] always moves along one of them:
    whatever the generator draws, it neither panics nor fails. *)
Lemma next_spaced mc g i :
  MarkovChain.current_node mc = Some i →
  MarkovChain.node_exists mc i = true →
  outgoing mc i ≠ [] →
  well_spaced (outgoing mc i) = true →
  exact_total f32_zero (outgoing mc i) = true →
  ∃ e g', e ∈ outgoing mc i
          ∧ MarkovChain.next mc g =
              Returns (Ok (), MarkovChain.mk (MarkovChain.nodes mc)
                                (MarkovChain.edges mc) (Some (Edge.to e)), g').
Proof.
  intros Hc Hi Ho Hsp Htot. rewrite next_eq. rewrite Hc, Hi.
  cbn [negb orb]. rewrite bool_decide_eq_false_2 by done.
  destruct (total_weight_sumZ _ Htot) as [Hnum HZ].
  pose proof (well_spaced_sumZ_pos _ Ho Hsp) as Hpos.
  destruct (gen_range_total g (outgoing mc i)) as (r & g' & -> & Hlt & Hv & Hlo).
  { rewrite f32_lt_B2Z by done. apply Z.ltb_lt. by rewrite HZ. }
  { intros Hinf. by rewrite Hinf in Hnum. }
  destruct (select_edge_well_spaced r (outgoing mc i)) as (e & He & ->);
    [done..|]. by exists e, g'.
Qed.

End next_contract.

(** *** Instances on the test chain *)

(** No current node; after [remove_node(1)] at node 1, where the edges 1-2
    and 1-3 are still in the chain and [next] reports that the node has no
    edges; at node 3, which no edge leaves. *)
Lemma next_guards_witness :
  let stale := MarkovChain.remove_node (demo (Some 1%N)) 1 in
  MarkovChain.next (demo None) ()
  = Returns (Err NodeDoesNotExistError, demo None, ())
  ∧ MarkovChain.next stale () = Returns (Err NodeHasNoEdgesError, stale, ())
  ∧ MarkovChain.next (demo (Some 3%N)) ()
    = Returns (Err NodeHasNoEdgesError, demo (Some 3%N), ()).
Proof.
  intros stale. split_and!.
  - by apply (next_guards (R:=unit)).
  - apply (next_guards (R:=unit) stale () ) with 1%N; [done|by left].
  - apply (next_guards (R:=unit) (demo (Some 3%N)) ()) with 3%N;
      [done|by right].
Defined.

Lemma next_Ok_witness :
  let mc := demo (Some 1%N) in
  let mc' := demo (Some 2%N) in
  ∃ i e, MarkovChain.current_node mc = Some i
         ∧ MarkovChain.node_exists mc i = true
         ∧ e ∈ outgoing mc i
         ∧ MarkovChain.current_node mc' = Some (Edge.to e)
         ∧ MarkovChain.nodes mc' = MarkovChain.nodes mc
         ∧ MarkovChain.edges mc' = MarkovChain.edges mc.
Proof.
  intros mc mc'. apply (next_Ok (R:=unit) mc () mc' ()). by vm_compute.
Defined.

(** The scripted draw of the finding [transition_failed_reachable]. *)
Lemma next_Err_witness :
  let mc := MarkovChain.mk demo_nodes
              [Edge.new 1 2 (f32_of_ratio 7 10);
               Edge.new 1 3 (f32_of_ratio 13 10)] (Some 1%N) in
  let err := TransitionFailedError in
  mc = mc
  ∧ (err = NodeDoesNotExistError ∧ MarkovChain.current_node mc = None
     ∨ err = NodeHasNoEdgesError
       ∧ (∃ i, MarkovChain.current_node mc = Some i
               ∧ (MarkovChain.node_exists mc i = false ∨ outgoing mc i = []))
     ∨ err = TransitionFailedError
       ∧ ∃ i, MarkovChain.current_node mc = Some i ∧ outgoing mc i ≠ []).
Proof.
  intros mc err.
  apply (next_Err (R:=list f32) mc [f32_of_ratio (2 ^ 24 - 1) (2 ^ 23)]
           err mc []).
  by vm_compute.
Defined.

(** Edges of weight [+0.0] and [-0.0]: the total is not above zero. *)
Lemma next_Panics_witness :
  let mc := MarkovChain.mk demo_nodes
              [Edge.new 1 2 f32_zero; Edge.new 1 3 (S754_zero true)]
              (Some 1%N) in
  MarkovChain.next mc () = Panics ↔
    ∃ i, MarkovChain.current_node mc = Some i
         ∧ MarkovChain.node_exists mc i = true
         ∧ outgoing mc i ≠ []
         ∧ (f32_zero <? MarkovChain.total_weight (outgoing mc i))%f32 = false.
Proof.
  intros mc. apply (next_Panics (R:=unit) mc ()).
  intros i [= <-]. by vm_compute.
Defined.

(** The chain of the unit tests at node 1, with the source [Lowest]. *)
Lemma next_nonneg_weights_witness :
  let mc := demo (Some 1%N) in
  ∃ g',
    (∃ e, e ∈ outgoing mc 1
          ∧ MarkovChain.next mc ()
            = Returns (Ok (), MarkovChain.mk (MarkovChain.nodes mc)
                                (MarkovChain.edges mc) (Some (Edge.to e)), g'))
    ∨ MarkovChain.next mc () = Returns (Err TransitionFailedError, mc, g').
Proof.
  intros mc. apply (next_nonneg_weights (R:=unit) mc () 1); [done..| | |done].
  - apply (bool_decide_unpack _). by vm_compute.
  - apply (bool_decide_unpack _). by vm_compute.
Defined.

Lemma next_nan_weight_panics_witness :
  MarkovChain.next
    (MarkovChain.mk demo_nodes
       [Edge.new 1 2 (f32_of_Z 1); Edge.new 1 3 S754_nan] (Some 1%N)) ()
  = Panics.
Proof.
  apply (next_nan_weight_panics (R:=unit) _ () 1 (Edge.new 1 3 S754_nan));
    [done..|by right; left|done].
Defined.

Lemma next_zero_weights_panics_witness :
  MarkovChain.next
    (MarkovChain.mk demo_nodes
       [Edge.new 1 2 f32_zero; Edge.new 1 3 (S754_zero true)] (Some 1%N)) ()
  = Panics.
Proof.
  apply (next_zero_weights_panics (R:=unit) _ () 1); [done..|].
  by repeat constructor.
Defined.

(** From node 2 of the test chain the only edge leads to node 3. *)
Lemma next_single_edge_witness :
  ∃ g', MarkovChain.next (demo (Some 2%N)) [f32_of_ratio 1 2]
        = Returns (Ok (), demo (Some 3%N), g').
Proof.
  apply (next_single_edge (R:=list f32) (demo (Some 2%N)) _ 2
           (Edge.new 2 3 (f32_of_Z 1))); by vm_compute.
Defined.

(** ** Invariants of the state machine *)

Section step.
Context `{RandomSource R}.
Implicit Types (mc : MarkovChain) (g : R).

(** Only [set_current_node] and [next] move the current node, and only
    when they succeed. *)
Lemma step_current_node mc g l mc' g' :
  step (mc, g) l (mc', g') →
  MarkovChain.current_node mc' = MarkovChain.current_node mc
  ∨ (∃ i, l = SetCurrentNode i (Ok ())
          ∧ MarkovChain.current_node mc' = Some i)
  ∨ (l = Next (Ok ())
     ∧ ∃ e, e ∈ MarkovChain.edges mc
            ∧ MarkovChain.current_node mc = Some (Edge.from e)
            ∧ MarkovChain.current_node mc' = Some (Edge.to e)).
Proof.
  inversion 1; subst; try by left.
  - by left; apply MarkovChain.add_node_actions_frame.
  - rewrite MarkovChain.set_current_node_spec.
    destruct (MarkovChain.node_exists mc i); [right; left|left]; eauto.
  - match goal with H : _ = Returns _ |- _ =>
      apply next_Returns in H
        as (_ & _ & [[_ ->]|[-> (e & ? & _ & ? & ?)]]) end;
      [by left|right; right; eauto 10].
Qed.


(** The graph invariant survives any change that loses no node id, keeps
    the current node and adds no edge. *)
Lemma graph_ok_mono mc mc' :
  (∀ j, MarkovChain.node_exists mc j = true →
        MarkovChain.node_exists mc' j = true) →
  MarkovChain.current_node mc' = MarkovChain.current_node mc →
  MarkovChain.edges mc' ⊆ MarkovChain.edges mc →
  graph_ok mc → graph_ok mc'.
Proof.
  intros Hn Hc He [Hv Hcl]. split.
  - intros i Hi. apply Hn, Hv. by rewrite <-Hc.
  - apply Forall_forall. intros e Hin%He. apply Hn.
    unfold closed in Hcl. rewrite Forall_forall in Hcl. auto.
Qed.

(** It also survives moving the current node to an existing node. *)
Lemma graph_ok_move mc mc' i :
  MarkovChain.nodes mc' = MarkovChain.nodes mc →
  MarkovChain.edges mc' = MarkovChain.edges mc →
  MarkovChain.current_node mc' = Some i →
  MarkovChain.node_exists mc i = true →
  closed mc → graph_ok mc'.
Proof.
  intros Hn He Hc Hi Hcl. split.
  - intros j. rewrite Hc. intros [= <-].
    by rewrite (MarkovChain.node_exists_same_nodes mc).
  - unfold closed. rewrite He. eapply Forall_impl; [done|]. cbn.
    intros e ?. by rewrite (MarkovChain.node_exists_same_nodes mc).
Qed.

(** One call that keeps the graph closed preserves the invariant. *)
Lemma step_graph_ok mc g l mc' g' :
  step (mc, g) l (mc', g') → keeps_graph mc l →
  graph_ok mc → graph_ok mc'.
Proof.
  inversion 1; subst; cbn; intros Hk Hok.
  - apply (graph_ok_mono mc);[|done..]. intros j Hj.
    by rewrite MarkovChain.node_exists_add_node, Hj.
  - apply (graph_ok_mono mc);[|done..]. intros j Hj.
    by rewrite MarkovChain.node_exists_add_nodes, Hj.
  - destruct Hok as [Hv Hcl]. split; [done|]. unfold closed; cbn.
    apply Forall_app. split; [done|]. by apply Forall_singleton.
  - destruct Hk as [Hk1 Hk2], Hok as [Hv Hcl]. split.
    + intros j Hj. rewrite MarkovChain.node_exists_remove_node.
      rewrite bool_decide_eq_true_2 by (cbn in Hj; congruence). by apply Hv.
    + unfold closed in *; cbn. rewrite Forall_forall in *. intros e He.
      rewrite MarkovChain.node_exists_remove_node.
      rewrite bool_decide_eq_true_2 by auto. cbn. auto.
  - apply (graph_ok_mono mc);[done..| |done]. cbn.
    intros e [_ ?]%list_elem_of_filter. done.
  - apply (graph_ok_mono mc);[| | |done].
    + intros j. by rewrite MarkovChain.node_exists_add_node_actions.
    + apply MarkovChain.add_node_actions_frame.
    + by rewrite (proj1 (MarkovChain.add_node_actions_frame _ _ _)).
  - rewrite MarkovChain.set_current_node_spec.
    destruct (MarkovChain.node_exists mc i) eqn:Hi; [cbn|done].
    by apply (graph_ok_move mc _ i); [..|apply Hok].
  - match goal with H : _ = Returns _ |- _ =>
      apply next_Returns in H
        as (Hn & He & [[_ ->]|[_ (e & Hin & _ & _ & Hc)]]) end; [done|].
    apply (graph_ok_move mc _ (Edge.to e)); [done..| |apply Hok].
    destruct Hok as [_ Hcl]. unfold closed in Hcl.
    rewrite Forall_forall in Hcl. auto.
Qed.

(** A call with its result determines the state after it. *)
Lemma step_deterministic s l s1 s2 : step s l s1 → step s l s2 → s1 = s2.
Proof. inversion 1; inversion 1; subst; congruence. Qed.

(** Moving the position changes neither the nodes nor the edges. *)
Lemma step_move_frame mc g l mc' g' :
  step (mc, g) l (mc', g') → move_call mc l →
  MarkovChain.nodes mc' = MarkovChain.nodes mc
  ∧ MarkovChain.edges mc' = MarkovChain.edges mc.
Proof.
  inversion 1; subst; try done; intros _.
  - rewrite MarkovChain.set_current_node_spec.
    by destruct (MarkovChain.node_exists mc i).
  - match goal with H : _ = Returns _ |- _ =>
      by apply next_Returns in H as (? & ? & _) end.
Qed.

(** A sequence of calls with their results determines the chain and
    the generator it ends in: the only source of non-determinism is the
    generator. *)
Theorem steps_deterministic G s ls s1 s2 :
  steps G s ls s1 → steps G s ls s2 → s1 = s2.
Proof.
  intros Hs1. revert s2.
  induction Hs1 as [|s l s' ls s'' _ Hstep _ IH]; inversion 1; subst; [done|].
  apply IH. by rewrite (step_deterministic s l s' s'0).
Qed.

(** [set_current_node] and [next] only move the position: along any
    sequence of them the nodes and the edges of the chain are unchanged. *)
Theorem steps_move_frame s ls s' :
  steps move_call s ls s' →
  MarkovChain.nodes s'.1 = MarkovChain.nodes s.1
  ∧ MarkovChain.edges s'.1 = MarkovChain.edges s.1.
Proof.
  induction 1 as [|[mc g] l [mc' g'] ls s'' Hl Hstep _ [IHn IHe]]; [done|].
  destruct (step_move_frame _ _ _ _ _ Hstep Hl) as [Hn He]. cbn in *.
  by rewrite IHn, IHe.
Qed.

(** On a live chain whose graph is closed, one [next] from an existing
    node succeeds and lands on a live chain at an existing node. *)
Lemma live_next mc g i :
  live mc → closed mc → MarkovChain.current_node mc = Some i →
  MarkovChain.node_exists mc i = true →
  ∃ mc' g' j, MarkovChain.next mc g = Returns (Ok (), mc', g')
              ∧ live mc' ∧ closed mc'
              ∧ MarkovChain.current_node mc' = Some j
              ∧ MarkovChain.node_exists mc' j = true.
Proof.
  intros Hlive Hcl Hc Hi.
  pose proof Hi as (n & Hn & <-)%MarkovChain.node_exists_true.
  pose proof (proj1 (Forall_forall _ _) Hlive n Hn) as (Ho & Hsp & Htot).
  destruct (next_spaced mc g _ Hc Hi Ho Hsp Htot) as (e & g' & He & ->).
  apply list_elem_of_filter in He as [_ He].
  eexists _, g', (Edge.to e). split_and!; [done|exact Hlive|exact Hcl|done|].
  exact (proj1 (Forall_forall _ _) Hcl e He).
Qed.

(** C8. [next] can be called forever on a live chain whose graph is
    closed: from an existing node, whatever the generator draws, every
    number of calls of [next] in a row all succeed. *)
Theorem next_runs_forever n mc g :
  live mc → graph_ok mc → is_Some (MarkovChain.current_node mc) →
  ∃ s', steps any_call (mc, g) (replicate n (Next (Ok ()))) s'.
Proof.
  revert mc g. induction n as [|n IH]; intros mc g Hlive [Hv Hcl] [i Hc].
  { eexists. apply steps_nil. }
  destruct (live_next mc g i) as (mc' & g' & j & Hnext & ? & ? & Hc' & Hj);
    [auto..|].
  destruct (IH mc' g') as [s' Hs']; [done| |by rewrite Hc'|].
  { split; [|done]. intros k. rewrite Hc'. by intros [= <-]. }
  exists s'. apply (steps_cons _ _ _ (mc', g')); [done|by constructor|done].
Qed.

(** Once set, the current node is never unset, whatever is called. *)
Theorem steps_current_node_is_Some s ls s' :
  steps any_call s ls s' →
  is_Some (MarkovChain.current_node s.1) →
  is_Some (MarkovChain.current_node s'.1).
Proof.
  induction 1 as [|[mc g] l [mc' g'] ls s'' _ Hstep _ IH]; [done|].
  intros Hs. apply IH. cbn in *.
  apply step_current_node in Hstep
    as [->|[(i & _ & ->)|(_ & e & _ & _ & ->)]]; eauto.
Qed.


(** C10. On a closed graph whose current node exists, calls that add no
    edge to a missing node and remove no node that is current or the
    target of an edge keep the graph closed and the current node among the
    nodes: [next] then never moves to a missing node, and never fails for
    a stale position. *)
Theorem steps_graph_ok s ls s' :
  steps keeps_graph s ls s' → graph_ok s.1 → graph_ok s'.1.
Proof.
  induction 1 as [|[mc g] l [mc' g'] ls s'' Hl Hstep _ IH]; [done|].
  intros Hok. apply IH. by eapply step_graph_ok.
Qed.

(** *** Sound weights along the calls *)

(** [panic_free] speaks of every node that edges leave. *)
Lemma panic_free_outgoing mc i :
  panic_free mc → outgoing mc i ≠ [] → sound_weights (outgoing mc i).
Proof.
  unfold panic_free. rewrite Forall_forall. intros Hpf Hout.
  destruct (outgoing mc i) as [|e es] eqn:Hes; [done|].
  assert (e ∈ outgoing mc i) as [<- He]%list_elem_of_filter
    by (rewrite Hes; left).
  rewrite <-Hes. by apply Hpf.
Qed.

Lemma panic_free_intro mc :
  (∀ i, outgoing mc i ≠ [] → sound_weights (outgoing mc i)) → panic_free mc.
Proof.
  intros Hall. apply Forall_forall. intros e He. apply Hall.
  intros Hnil. assert (e ∈ outgoing mc (Edge.from e)) as Hin
    by (by apply list_elem_of_filter).
  rewrite Hnil in Hin. by apply elem_of_nil in Hin.
Qed.

(** It depends on the edges only. *)
Lemma panic_free_same_edges mc mc' :
  MarkovChain.edges mc' = MarkovChain.edges mc → panic_free mc → panic_free mc'.
Proof. unfold panic_free, outgoing. by intros ->. Qed.

Lemma outgoing_add_edge mc e i :
  outgoing (MarkovChain.add_edge mc e) i
  = outgoing mc i ++ (if decide (Edge.from e = i) then [e] else []).
Proof.
  unfold outgoing. cbn. by rewrite filter_app.
Qed.

Lemma outgoing_remove_edge mc f t i :
  outgoing (MarkovChain.remove_edge mc f t) i
  = if decide (i = f) then filter (λ e, Edge.to e ≠ t) (outgoing mc f)
    else outgoing mc i.
Proof.
  unfold outgoing. cbn. case_decide as Hi.
  - subst i. induction (MarkovChain.edges mc) as [|e es IH]; [done|].
    rewrite !filter_cons. repeat (case_decide; rewrite ?filter_cons);
      try naive_solver; by f_equal.
  - induction (MarkovChain.edges mc) as [|e es IH]; [done|].
    rewrite !filter_cons. repeat (case_decide; rewrite ?filter_cons);
      try naive_solver; by f_equal.
Qed.

(** One call that keeps the weights sound preserves [panic_free]. *)
Lemma step_panic_free mc g l mc' g' :
  step (mc, g) l (mc', g') → keeps_weights mc l →
  panic_free mc → panic_free mc'.
Proof.
  inversion 1; subst; cbn; intros Hk Hpf;
    try (by apply (panic_free_same_edges mc)).
  - apply panic_free_intro. intros i. rewrite outgoing_add_edge.
    case_decide as Hi; [by subst i|]. rewrite app_nil_r.
    by apply panic_free_outgoing.
  - apply panic_free_intro. intros i. rewrite outgoing_remove_edge.
    case_decide as Hi; [by destruct Hk|]. by apply panic_free_outgoing.
  - apply (panic_free_same_edges mc); [|done].
    by rewrite (proj1 (MarkovChain.add_node_actions_frame _ _ _)).
  - apply (panic_free_same_edges mc); [|done].
    rewrite MarkovChain.set_current_node_spec.
    by destruct (MarkovChain.node_exists mc i).
  - apply (panic_free_same_edges mc); [|done].
    match goal with H : _ = Returns _ |- _ =>
      by apply next_Returns in H as (_ & ? & _) end.
Qed.

Lemma steps_panic_free s ls s' :
  steps keeps_weights s ls s' → panic_free s.1 → panic_free s'.1.
Proof.
  induction 1 as [|[mc g] l [mc' g'] ls s'' Hl Hstep _ IH]; [done|].
  intros Hpf. apply IH. by eapply step_panic_free.
Qed.

(** C9. From a chain whose weights are sound, after any sequence of calls
    that keep them sound, [next] does not panic, whatever state the
    generator is in: it returns one of its three errors or moves. *)
Theorem steps_no_panic s ls s' g :
  steps keeps_weights s ls s' → panic_free s.1 →
  MarkovChain.next s'.1 g ≠ Panics.
Proof.
  intros Hsteps Hpf. apply (steps_panic_free _ _ _ Hsteps) in Hpf.
  destruct s' as [mc g']. cbn in *. next_cases mc g; try done.
  destruct (gen_range_sound g (outgoing mc i)) as (? & ? & ?);
    [by apply panic_free_outgoing|congruence].
Qed.

End step.

(** *** Instances: runs of the test chain *)

(** Builds a run call by call, evaluating each call. *)
Ltac run_steps :=
  repeat (eapply steps_cons;
          [by (cbn; try apply (bool_decide_unpack _))
          |econstructor; try by vm_compute|]);
  apply steps_nil.

(** A stale position is still a position: [next], the removal of the node
    it arrived at, and [next] again. *)
Lemma steps_current_node_is_Some_witness :
  is_Some (MarkovChain.current_node
             (MarkovChain.remove_node (demo (Some 2%N)) 2, ()).1).
Proof.
  apply (steps_current_node_is_Some (R:=unit) (demo (Some 1%N), ())
           [Next (Ok ()); RemoveNode 2; Next (Err NodeHasNoEdgesError)]);
    [run_steps|done].
Defined.

(** The test chain, an edge added from node 3, a move along it, and an
    edge removed: the next call of [next] does not panic. *)
Lemma steps_no_panic_witness :
  MarkovChain.next
    (MarkovChain.mk demo_nodes
       [Edge.new 1 2 (f32_of_Z 1); Edge.new 2 3 (f32_of_Z 1);
        Edge.new 3 1 (f32_of_ratio 1 2)] (Some 1%N)) () ≠ Panics.
Proof.
  apply (steps_no_panic (R:=unit) (demo (Some 2%N), ())
           [AddEdge (Edge.new 3 1 (f32_of_ratio 1 2)); Next (Ok ());
            Next (Ok ()); RemoveEdge 1 3] (_, ()));
    [|apply (bool_decide_unpack _); by vm_compute].
  repeat (eapply steps_cons;
          [cbn; try apply (bool_decide_unpack _); by vm_compute
          |econstructor; try by vm_compute|]);
  apply steps_nil.
Defined.

(** The test chain with an edge from node 3 back to node 1 is live. *)
Lemma next_runs_forever_witness :
  ∃ s', steps any_call
          (MarkovChain.mk demo_nodes
             (demo_edges ++ [Edge.new 3 1 (f32_of_ratio 1 2)]) (Some 1%N), ())
          (replicate 5 (Next (Ok ()))) s'.
Proof.
  apply (next_runs_forever (R:=unit) 5);
    [by apply (bool_decide_unpack _)
    |split; by apply (bool_decide_unpack _)|by eexists].
Defined.

(** Two runs of the same calls from node 1 end in the same state. *)
Lemma steps_deterministic_witness :
  (demo (Some 3%N), ()) = (demo (Some 3%N), ()).
Proof.
  apply (steps_deterministic (R:=unit) any_call (demo (Some 1%N), ())
           [Next (Ok ()); Next (Ok ()); Next (Err NodeHasNoEdgesError)]);
    run_steps.
Defined.

Lemma steps_move_frame_witness :
  MarkovChain.nodes (demo (Some 3%N), ()).1
  = MarkovChain.nodes (demo (Some 1%N), ()).1
  ∧ MarkovChain.edges (demo (Some 3%N), ()).1
    = MarkovChain.edges (demo (Some 1%N), ()).1.
Proof.
  apply (steps_move_frame (R:=unit) (demo (Some 1%N), ())
           [SetCurrentNode 4 (Err NodeDoesNotExistError); Next (Ok ());
            Next (Ok ())]); run_steps.
Defined.


(** Node 3 of the test chain is neither current nor, once the edges to it
    are removed, a target: it can be removed. *)
Lemma steps_graph_ok_witness :
  graph_ok
    (MarkovChain.mk [Node.new 1 None; Node.new 2 None]
       [Edge.new 1 2 (f32_of_Z 1)] (Some 2%N), ()).1.
Proof.
  apply (steps_graph_ok (R:=unit) (demo (Some 1%N), ())
           [RemoveEdge 1 3; RemoveEdge 2 3; RemoveNode 3; Next (Ok ())]);
    [run_steps|].
  split; by apply (bool_decide_unpack _).
Defined.
