(* ===== verification/ChainMap.v ===== *)
(** * ChainMap: the chain as finite maps

    The lookups of the chain return the first match, so a chain answers
    them as two finite maps do: the nodes by id and the edges by
    endpoints, each key bound to its first occurrence in the [Vec].
    [abs] is that abstraction; [graph_step] says what each call of the API
    does to the maps, and every sequence of calls on the chain is a
    sequence of steps of its maps ([steps_refine]).

    The maps forget the order of the edges and the edges that an earlier
    edge with the same endpoints hides, which [next] still draws from:
    [graph_step] therefore lets [next] move along any edge that leaves the
    current node, and the weights are not part of the abstraction.

    Chains with the same maps are equivalent ([≡]): every lookup and
    every call but [next] respects the equivalence ([Proper] instances),
    so that equivalent chains can be rewritten for one another and stay
    equivalent along any sequence of such calls ([chain_equiv_steps]);
    [next] tells them apart ([next_not_proper]). *)

From stdpp Require Import base tactics decidable option numbers list gmap.
From S2P Require Import Prelude Float32 Json action node edge Random.
From S2P Require Import markov_chain transition.

(** ** Definitions *)

(** The first element of each key. *)
Definition keyed_map `{Countable K} {A} (key : A → K) (l : list A)
    : gmap K A :=
  list_to_map ((λ x, (key x, x)) <$> l).

Definition edge_key (e : Edge) : u32 * u32 := (Edge.from e, Edge.to e).

Record Graph : Type := {
  g_nodes : gmap u32 Node;
  g_edges : gmap (u32 * u32) Edge;
  g_current : option u32;
}.

Definition abs (mc : MarkovChain) : Graph :=
  {| g_nodes := keyed_map Node.id (MarkovChain.nodes mc);
     g_edges := keyed_map edge_key (MarkovChain.edges mc);
     g_current := MarkovChain.current_node mc |}.

Definition with_nodes (g : Graph) (ns : gmap u32 Node) : Graph :=
  {| g_nodes := ns; g_edges := g_edges g; g_current := g_current g |}.

Definition with_edges (g : Graph) (es : gmap (u32 * u32) Edge) : Graph :=
  {| g_nodes := g_nodes g; g_edges := es; g_current := g_current g |}.

Definition with_current (g : Graph) (i : u32) : Graph :=
  {| g_nodes := g_nodes g; g_edges := g_edges g; g_current := Some i |}.

(** What a call does to the maps.  An added node or edge does not replace
    one that is already bound to its key. *)
Inductive graph_step : Graph → label → Graph → Prop :=
| graph_add_node g n :
    graph_step g (AddNode n) (with_nodes g (g_nodes g ∪ {[Node.id n := n]}))
| graph_add_nodes g ns :
    graph_step g (AddNodes ns)
      (with_nodes g (g_nodes g ∪ keyed_map Node.id ns))
| graph_add_edge g e :
    graph_step g (AddEdge e) (with_edges g (g_edges g ∪ {[edge_key e := e]}))
| graph_remove_node g i :
    graph_step g (RemoveNode i) (with_nodes g (delete i (g_nodes g)))
| graph_remove_edge g f t :
    graph_step g (RemoveEdge f t) (with_edges g (delete (f, t) (g_edges g)))
| graph_add_node_actions g i acts :
    graph_step g (AddNodeActions i acts)
      (with_nodes g (alter (Node.extend_actions acts) i (g_nodes g)))
| graph_set_current_node_Ok g i :
    is_Some (g_nodes g !! i) →
    graph_step g (SetCurrentNode i (Ok ())) (with_current g i)
| graph_set_current_node_Err g i :
    g_nodes g !! i = None →
    graph_step g (SetCurrentNode i (Err NodeDoesNotExistError)) g
| graph_next_Ok g i t :
    g_current g = Some i → is_Some (g_nodes g !! i) →
    is_Some (g_edges g !! (i, t)) →
    graph_step g (Next (Ok ())) (with_current g t)
| graph_next_no_current g :
    g_current g = None →
    graph_step g (Next (Err NodeDoesNotExistError)) g
| graph_next_no_edges g i :
    g_current g = Some i →
    g_nodes g !! i = None ∨ (∀ t, g_edges g !! (i, t) = None) →
    graph_step g (Next (Err NodeHasNoEdgesError)) g
| graph_next_failed g i t :
    g_current g = Some i → is_Some (g_nodes g !! i) →
    is_Some (g_edges g !! (i, t)) →
    graph_step g (Next (Err TransitionFailedError)) g.

Inductive graph_steps : Graph → list label → Graph → Prop :=
| graph_steps_nil g : graph_steps g [] g
| graph_steps_cons g l g' ls g'' :
    graph_step g l g' → graph_steps g' ls g'' → graph_steps g (l :: ls) g''.

(** Two chains are equivalent when they are the same maps with the same
    current node: they answer every lookup alike. *)
#[export] Instance chain_equiv : Equiv MarkovChain :=
  λ mc mc', abs mc = abs mc'.

(** The calls other than [next]. *)
Definition update_call (_ : MarkovChain) (l : label) : Prop :=
  match l with Next _ => False | _ => True end.

Arguments keyed_map : simpl never.

(** ** Lists as maps of first occurrences *)

Section keyed.
Context `{Countable K} {A : Type} (key : A → K).
Implicit Types (l : list A) (k : K).

Lemma keyed_map_lookup l k :
  keyed_map key l !! k = iter_find (λ x, key x = k) l.
Proof.
  unfold keyed_map. induction l as [|x l IH]; [done|].
  rewrite fmap_cons, list_to_map_cons, lookup_insert, iter_find_cons, IH.
  by repeat case_decide.
Qed.

Lemma keyed_map_app l1 l2 :
  keyed_map key (l1 ++ l2) = keyed_map key l1 ∪ keyed_map key l2.
Proof. unfold keyed_map. by rewrite fmap_app, list_to_map_app. Qed.

Lemma keyed_map_snoc l x :
  keyed_map key (l ++ [x]) = keyed_map key l ∪ {[key x := x]}.
Proof.
  rewrite keyed_map_app. unfold keyed_map at 2. cbn. by rewrite insert_empty.
Qed.

(** [retain] of the elements of the other keys deletes the key. *)
Lemma keyed_map_retain (Q : A → Prop) `{!∀ x, Decision (Q x)} l k :
  (∀ x, Q x ↔ key x ≠ k) →
  keyed_map key (filter Q l) = delete k (keyed_map key l).
Proof.
  intros HQ. apply map_eq. intros j.
  rewrite lookup_delete, !keyed_map_lookup. case_decide as Hj.
  - subst j. apply iter_find_filter_None. naive_solver.
  - apply iter_find_filter. naive_solver.
Qed.

(** A change of the first element of a key, which keeps the key, alters
    the binding of the key. *)
Lemma keyed_map_alter l k i x (f : A → A) :
  (∀ y, key (f y) = key y) →
  list_find (λ y, key y = k) l = Some (i, x) →
  keyed_map key (<[i := f x]> l) = alter f k (keyed_map key l).
Proof.
  intros Hf Hfind. apply map_eq. intros j.
  pose proof Hfind as (Hi & Hk & _)%list_find_Some.
  rewrite lookup_alter, !keyed_map_lookup. case_decide as Hj.
  - subst j. rewrite (list_find_iter_find _ _ _ _ Hfind). cbn.
    apply (iter_find_insert_first _ _ _ _ _ Hfind). by rewrite Hf.
  - apply (iter_find_insert_other _ _ _ x); [done|congruence|].
    rewrite Hf. congruence.
Qed.

Lemma keyed_map_alter_None l k (f : A → A) :
  list_find (λ y, key y = k) l = None →
  alter f k (keyed_map key l) = keyed_map key l.
Proof.
  intros Hfind. apply map_eq. intros j. rewrite lookup_alter.
  case_decide as Hj; [subst j|done].
  rewrite keyed_map_lookup. unfold iter_find. by rewrite Hfind.
Qed.

Lemma keyed_map_is_Some l x : x ∈ l → is_Some (keyed_map key l !! key x).
Proof.
  intros Hx. rewrite keyed_map_lookup. apply iter_find_is_Some, Exists_exists.
  by exists x.
Qed.

End keyed.

(** ** The lookups are lookups in the maps *)

Lemma get_node_abs mc i : MarkovChain.get_node mc i = g_nodes (abs mc) !! i.
Proof.
  unfold MarkovChain.get_node, abs. cbn. rewrite keyed_map_lookup.
  by apply iter_find_ext.
Qed.

Lemma get_edge_abs mc f t :
  MarkovChain.get_edge mc f t = g_edges (abs mc) !! (f, t).
Proof.
  unfold MarkovChain.get_edge, abs. cbn. rewrite keyed_map_lookup.
  apply iter_find_ext. intros e. unfold MarkovChain.edge_is, edge_key.
  naive_solver.
Qed.

Lemma node_exists_abs mc i :
  MarkovChain.node_exists mc i = bool_decide (is_Some (g_nodes (abs mc) !! i)).
Proof. by rewrite <-get_node_abs, MarkovChain.node_exists_get_node. Qed.

Lemma node_exists_is_Some mc i :
  MarkovChain.node_exists mc i = true ↔ is_Some (g_nodes (abs mc) !! i).
Proof. by rewrite node_exists_abs, bool_decide_eq_true. Qed.

Lemma edge_exists_abs mc f t :
  MarkovChain.edge_exists mc f t
  = bool_decide (is_Some (g_edges (abs mc) !! (f, t))).
Proof. by rewrite <-get_edge_abs, MarkovChain.edge_exists_get_edge. Qed.

(** ** The calls are operations on the maps *)

Lemma abs_add_node mc n :
  abs (MarkovChain.add_node mc n)
  = with_nodes (abs mc) (g_nodes (abs mc) ∪ {[Node.id n := n]}).
Proof. unfold abs, with_nodes. cbn. by rewrite keyed_map_snoc. Qed.

Lemma abs_add_nodes mc ns :
  abs (MarkovChain.add_nodes mc ns)
  = with_nodes (abs mc) (g_nodes (abs mc) ∪ keyed_map Node.id ns).
Proof. unfold abs, with_nodes. cbn. by rewrite keyed_map_app. Qed.

Lemma abs_add_edge mc e :
  abs (MarkovChain.add_edge mc e)
  = with_edges (abs mc) (g_edges (abs mc) ∪ {[edge_key e := e]}).
Proof. unfold abs, with_edges. cbn. by rewrite keyed_map_snoc. Qed.

Lemma abs_remove_node mc i :
  abs (MarkovChain.remove_node mc i)
  = with_nodes (abs mc) (delete i (g_nodes (abs mc))).
Proof. unfold abs, with_nodes. cbn. by rewrite (keyed_map_retain _ _ _ i). Qed.

Lemma abs_remove_edge mc f t :
  abs (MarkovChain.remove_edge mc f t)
  = with_edges (abs mc) (delete (f, t) (g_edges (abs mc))).
Proof.
  unfold abs, with_edges. cbn. rewrite (keyed_map_retain _ _ _ (f, t)); [done|].
  intros e. unfold edge_key. naive_solver.
Qed.

Lemma abs_add_node_actions mc i acts :
  abs (MarkovChain.add_node_actions mc i acts)
  = with_nodes (abs mc) (alter (Node.extend_actions acts) i (g_nodes (abs mc))).
Proof.
  unfold MarkovChain.add_node_actions.
  rewrite (list_find_ext (MarkovChain.node_is i) (λ n, Node.id n = i)) by done.
  destruct (list_find _ _) as [[k n]|] eqn:Hfind; unfold abs, with_nodes; cbn.
  - by rewrite (keyed_map_alter _ _ i k n).
  - by rewrite keyed_map_alter_None.
Qed.

(** No edge leaves [i] in the list: no key of the map starts with [i]. *)
Lemma outgoing_nil_abs mc i t :
  outgoing mc i = [] → g_edges (abs mc) !! (i, t) = None.
Proof.
  intros Hout. rewrite <-get_edge_abs. apply iter_find_None, Forall_forall.
  intros e He [Hf _]. assert (e ∈ outgoing mc i) as Hin
    by (by apply list_elem_of_filter).
  rewrite Hout in Hin. by apply elem_of_nil in Hin.
Qed.

(** An edge that leaves [i] in the list: its endpoints are a key. *)
Lemma outgoing_elem_abs mc i e :
  e ∈ outgoing mc i → is_Some (g_edges (abs mc) !! (i, Edge.to e)).
Proof.
  intros [<- He]%list_elem_of_filter.
  by apply (keyed_map_is_Some edge_key).
Qed.

(** [set_current_node] looks the id up in the node map. *)
Lemma set_current_node_abs mc i :
  MarkovChain.set_current_node mc i
  = if g_nodes (abs mc) !! i is Some _
    then (Ok (), MarkovChain.mk (MarkovChain.nodes mc) (MarkovChain.edges mc)
                   (Some i))
    else (Err NodeDoesNotExistError, mc).
Proof.
  unfold MarkovChain.set_current_node. rewrite <-get_node_abs.
  unfold MarkovChain.get_node. by destruct (iter_find _ _).
Qed.

(** ** Equivalent chains *)

#[export] Instance chain_equiv_equivalence : Equivalence (≡@{MarkovChain}).
Proof.
  unfold equiv, chain_equiv. split; [done|by intros ???|].
  intros ???. apply transitivity.
Qed.

#[export] Instance abs_proper : Proper ((≡) ==> (=)) abs.
Proof. by intros ???. Qed.

#[export] Instance get_node_proper :
  Proper ((≡) ==> (=) ==> (=)) MarkovChain.get_node.
Proof. intros mc mc' Heq i ? <-. by rewrite !get_node_abs, Heq. Qed.

#[export] Instance get_edge_proper :
  Proper ((≡) ==> (=) ==> (=) ==> (=)) MarkovChain.get_edge.
Proof. intros mc mc' Heq f ? <- t ? <-. by rewrite !get_edge_abs, Heq. Qed.

#[export] Instance node_exists_proper :
  Proper ((≡) ==> (=) ==> (=)) MarkovChain.node_exists.
Proof. intros mc mc' Heq i ? <-. by rewrite !node_exists_abs, Heq. Qed.

#[export] Instance edge_exists_proper :
  Proper ((≡) ==> (=) ==> (=) ==> (=)) MarkovChain.edge_exists.
Proof. intros mc mc' Heq f ? <- t ? <-. by rewrite !edge_exists_abs, Heq. Qed.

#[export] Instance get_node_actions_proper :
  Proper ((≡) ==> (=) ==> (=)) MarkovChain.get_node_actions.
Proof.
  intros mc mc' Heq i ? <-.
  change (Node.actions <$> MarkovChain.get_node mc i
          = Node.actions <$> MarkovChain.get_node mc' i).
  by rewrite Heq.
Qed.

#[export] Instance get_current_node_proper :
  Proper ((≡) ==> (=)) MarkovChain.get_current_node.
Proof.
  intros mc mc' Heq. change (g_current (abs mc) = g_current (abs mc')).
  by rewrite Heq.
Qed.

#[export] Instance add_node_proper :
  Proper ((≡) ==> (=) ==> (≡)) MarkovChain.add_node.
Proof.
  intros mc mc' Heq n ? <-. unfold equiv, chain_equiv.
  by rewrite !abs_add_node, Heq.
Qed.

#[export] Instance add_nodes_proper :
  Proper ((≡) ==> (=) ==> (≡)) MarkovChain.add_nodes.
Proof.
  intros mc mc' Heq n ? <-. unfold equiv, chain_equiv.
  by rewrite !abs_add_nodes, Heq.
Qed.

#[export] Instance add_edge_proper :
  Proper ((≡) ==> (=) ==> (≡)) MarkovChain.add_edge.
Proof.
  intros mc mc' Heq n ? <-. unfold equiv, chain_equiv.
  by rewrite !abs_add_edge, Heq.
Qed.

#[export] Instance remove_node_proper :
  Proper ((≡) ==> (=) ==> (≡)) MarkovChain.remove_node.
Proof.
  intros mc mc' Heq n ? <-. unfold equiv, chain_equiv.
  by rewrite !abs_remove_node, Heq.
Qed.

#[export] Instance remove_edge_proper :
  Proper ((≡) ==> (=) ==> (=) ==> (≡)) MarkovChain.remove_edge.
Proof.
  intros mc mc' Heq f ? <- t ? <-. unfold equiv, chain_equiv.
  by rewrite !abs_remove_edge, Heq.
Qed.

#[export] Instance add_node_actions_proper :
  Proper ((≡) ==> (=) ==> (=) ==> (≡)) MarkovChain.add_node_actions.
Proof.
  intros mc mc' Heq i ? <- acts ? <-. unfold equiv, chain_equiv.
  by rewrite !abs_add_node_actions, Heq.
Qed.

#[export] Instance set_current_node_proper :
  Proper ((≡) ==> (=) ==> prod_relation (=) (≡)) MarkovChain.set_current_node.
Proof.
  intros mc mc' Heq i ? <-. rewrite !set_current_node_abs, Heq.
  destruct (g_nodes (abs mc') !! i); split; cbn; try done.
  unfold equiv, chain_equiv, abs in *. cbn in *.
  injection Heq as -> -> _. done.
Qed.

(** *** Laws of the calls, up to equivalence *)

(** A node added under an id that is taken changes no answer. *)
Lemma add_node_shadow mc n :
  MarkovChain.node_exists mc (Node.id n) = true → MarkovChain.add_node mc n ≡ mc.
Proof.
  intros [m Hm]%node_exists_is_Some. unfold equiv, chain_equiv.
  rewrite abs_add_node. destruct (abs mc) as [ns es cur] eqn:Habs.
  unfold with_nodes. cbn in *. f_equal. apply map_eq. intros j.
  rewrite lookup_union, lookup_singleton. case_decide; [subst j|].
  - by rewrite Hm.
  - by destruct (ns !! j).
Qed.

(** A node that is added and removed was never there. *)
Lemma remove_add_node mc n :
  MarkovChain.remove_node (MarkovChain.add_node mc n) (Node.id n)
  ≡ MarkovChain.remove_node mc (Node.id n).
Proof.
  unfold equiv, chain_equiv.
  rewrite !abs_remove_node, abs_add_node. unfold with_nodes. cbn. f_equal.
  apply map_eq. intros j. rewrite !lookup_delete. case_decide; [done|].
  rewrite lookup_union, lookup_singleton_ne by done.
  by destruct (_ !! j).
Qed.

(** Removals commute. *)
Lemma remove_node_comm mc i j :
  MarkovChain.remove_node (MarkovChain.remove_node mc i) j
  ≡ MarkovChain.remove_node (MarkovChain.remove_node mc j) i.
Proof.
  unfold equiv, chain_equiv. rewrite !abs_remove_node. unfold with_nodes. cbn.
  f_equal. apply delete_delete.
Qed.

(** After a shadowed addition every later call and lookup is as without
    it: the equivalence is rewritten under the calls. *)
Lemma add_node_shadow_later mc n i j :
  MarkovChain.node_exists mc (Node.id n) = true →
  MarkovChain.get_node
    (MarkovChain.remove_node (MarkovChain.add_node mc n) i) j
  = MarkovChain.get_node (MarkovChain.remove_node mc i) j.
Proof. intros Hn. by rewrite (add_node_shadow mc n Hn). Qed.

Section refines.
Context `{RandomSource R}.

(** C25. The lookups of the chain are the lookups of its maps. *)
Theorem lookup_refines mc :
  (∀ i, MarkovChain.get_node mc i = g_nodes (abs mc) !! i)
  ∧ (∀ f t, MarkovChain.get_edge mc f t = g_edges (abs mc) !! (f, t))
  ∧ (∀ i, MarkovChain.get_node_actions mc i
          = Node.actions <$> g_nodes (abs mc) !! i)
  ∧ (∀ i, MarkovChain.node_exists mc i = true ↔ i ∈ dom (g_nodes (abs mc)))
  ∧ (∀ f t, MarkovChain.edge_exists mc f t = true
            ↔ (f, t) ∈ dom (g_edges (abs mc)))
  ∧ MarkovChain.get_current_node mc = g_current (abs mc).
Proof.
  split_and!; [apply get_node_abs|apply get_edge_abs| | | |done].
  - intros i. by rewrite <-get_node_abs.
  - intros i. by rewrite node_exists_is_Some, elem_of_dom.
  - intros f t. by rewrite edge_exists_abs, bool_decide_eq_true, elem_of_dom.
Qed.

(** One call of the API is the operation of its name on the maps. *)
Lemma step_graph_step mc g l mc' g' :
  step (mc, g) l (mc', g') → graph_step (abs mc) l (abs mc').
Proof.
  inversion 1 as [| | | | | |? ? i|? ? res ? ? Hnext]; subst.
  - rewrite abs_add_node. constructor.
  - rewrite abs_add_nodes. constructor.
  - rewrite abs_add_edge. constructor.
  - rewrite abs_remove_node. constructor.
  - rewrite abs_remove_edge. constructor.
  - rewrite abs_add_node_actions. constructor.
  - unfold MarkovChain.set_current_node.
    pose proof (get_node_abs mc i) as Hi. unfold MarkovChain.get_node in Hi.
    destruct (iter_find _ _); cbn; constructor; by rewrite <-Hi.
  - revert Hnext. next_cases mc g; intros [= <- <- <-].
    + apply (graph_next_no_edges _ i); [done|right].
      intros t. by apply outgoing_nil_abs.
    + apply MarkovChain.select_edge_elem in Hsel as (e & He & <-).
      apply (graph_next_Ok (abs mc) i); [done| |by apply outgoing_elem_abs].
      by apply node_exists_is_Some.
    + apply MarkovChain.select_edge_Err in Hsel as ->.
      destruct (outgoing mc i) as [|e es] eqn:Hes; [done|].
      apply (graph_next_failed _ i (Edge.to e)); [done| |].
      * by apply node_exists_is_Some.
      * apply outgoing_elem_abs. rewrite Hes. left.
    + apply (graph_next_no_edges _ i); [done|left].
      rewrite <-get_node_abs. by apply MarkovChain.get_node_None.
    + by apply graph_next_no_current.
Qed.

(** C14. Every sequence of calls of the API acts on the chain as the
    operations of their names act on the maps: an insertion that keeps what
    is bound, a deletion, an alteration, a move of the current node to a
    key of the node map, or for [next] to the target of a key of the edge
    map. *)
Theorem steps_refine G s ls s' :
  steps G s ls s' → graph_steps (abs s.1) ls (abs s'.1).
Proof.
  induction 1 as [s|[mc g] l [mc' g'] ls s'' _ Hstep _ IH]; [constructor|].
  econstructor; [|done]. by eapply step_graph_step.
Qed.

(** A call other than [next] takes equivalent chains to equivalent
    chains, with the same result. *)
Lemma chain_equiv_step mc1 mc2 g l mc1' g' :
  mc1 ≡ mc2 → update_call mc1 l → step (mc1, g) l (mc1', g') →
  ∃ mc2', step (mc2, g) l (mc2', g') ∧ mc1' ≡ mc2'.
Proof.
  intros Heq Hl. inversion 1 as [| | | | | |? ? i|]; subst; try done;
    try (eexists; split; [constructor|by rewrite Heq]).
  destruct (set_current_node_proper _ _ Heq i i eq_refl) as [Hres Hmc].
  rewrite Hres. eexists. split; [constructor|done].
Qed.

(** C15. Chains with the same maps cannot be told apart by the calls other
    than [next]: a sequence of such calls on one of them is a sequence of
    calls on the other, with the same results of [set_current_node], and
    the chains it ends in are equivalent again; [get_node], [get_edge] and
    [get_current_node] answer alike on them. *)
Theorem chain_equiv_steps s1 s2 ls s1' :
  s1.1 ≡ s2.1 → s1.2 = s2.2 → steps update_call s1 ls s1' →
  ∃ s2', steps update_call s2 ls s2' ∧ s1'.1 ≡ s2'.1 ∧ s1'.2 = s2'.2
    ∧ (∀ i, MarkovChain.get_node s1'.1 i = MarkovChain.get_node s2'.1 i)
    ∧ (∀ f t, MarkovChain.get_edge s1'.1 f t = MarkovChain.get_edge s2'.1 f t)
    ∧ MarkovChain.get_current_node s1'.1 = MarkovChain.get_current_node s2'.1.
Proof.
  intros Heq Hg Hsteps. revert s2 Heq Hg.
  induction Hsteps as [s|[mc g] l [mc' g'] ls s'' Hl Hstep _ IH];
    intros [mc2 g2] Heq Hg; cbn in *; subst g2.
  - exists (mc2, s.2). cbn.
    split_and!; [constructor|done..| | |]; intros; by rewrite Heq.
  - destruct (chain_equiv_step _ _ _ _ _ _ Heq Hl Hstep) as (mc2' & ? & Heq').
    destruct (IH (mc2', g') Heq' eq_refl) as (s2' & ? & ?).
    exists s2'. split; [|done]. econstructor; [|done..]. by destruct l.
Qed.

End refines.

(** A node added under an id that is taken, then removed by that id. *)
Lemma steps_refine_witness :
  let n := Node.new 1 (Some [Action.new 7 None]) in
  let mc := MarkovChain.new (Some [Node.new 1 None]) None in
  let mc' := MarkovChain.remove_node (MarkovChain.add_node mc n) 1 in
  graph_steps (abs mc) [AddNode n; RemoveNode 1] (abs mc')
  ∧ g_nodes (abs (MarkovChain.add_node mc n)) = g_nodes (abs mc)
  ∧ g_nodes (abs mc') = ∅.
Proof.
  intros n mc mc'. split; [|by vm_compute].
  apply (steps_refine (R:=unit) any_call (mc, ()) _ (mc', ())).
  repeat (econstructor; [done|constructor|]). constructor.
Defined.

(** A chain that holds a node twice and a chain that holds it once. *)
Lemma chain_equiv_steps_witness :
  let n := Node.new 1 None in
  let n' := Node.new 1 (Some [Action.new 7 None]) in
  let mc1 := MarkovChain.new (Some [n; n']) None in
  let mc2 := MarkovChain.new (Some [n]) None in
  let ls := [AddNode (Node.new 2 None); SetCurrentNode 2 (Ok ());
             SetCurrentNode 3 (Err NodeDoesNotExistError); RemoveNode 1] in
  ∃ s2', steps update_call (mc2, ()) ls s2'
    ∧ MarkovChain.get_node s2'.1 1 = None
    ∧ MarkovChain.get_current_node s2'.1 = Some 2%N.
Proof.
  intros n n' mc1 mc2 ls.
  destruct (chain_equiv_steps (R:=unit) (mc1, ()) (mc2, ()) ls
              (MarkovChain.mk [Node.new 2 None] [] (Some 2%N), ()))
    as (s2' & Hsteps & _ & _ & Hnode & _ & Hcur);
    [by vm_compute|done| |].
  - repeat (eapply steps_cons; [done|econstructor|]); apply steps_nil.
  - exists s2'. by rewrite <-Hnode, <-Hcur.
Defined.

(** [next] tells equivalent chains apart: it draws from every edge that
    leaves the current node, also from those that an earlier edge with
    the same endpoints hides from [get_edge]. *)
Example next_not_proper :
  let ns := [Node.new 1 None; Node.new 2 None] in
  let mc := MarkovChain.mk ns [Edge.new 1 2 f32_zero] (Some 1%N) in
  let mc' := MarkovChain.mk ns [Edge.new 1 2 f32_zero; Edge.new 1 2 (f32_of_Z 1)]
               (Some 1%N) in
  mc ≡ mc' ∧ MarkovChain.next mc () = Panics
  ∧ MarkovChain.next mc' () = Returns (Ok (), MarkovChain.mk ns
        [Edge.new 1 2 f32_zero; Edge.new 1 2 (f32_of_Z 1)] (Some 2%N), ()).
Proof. by vm_compute. Qed.
