(* ===== verification/tests.v ===== *)
(** * tests: the unit tests of [markov_chain.rs] and the sample of [main.rs]

    Each [#[test]] function is the boolean "every assertion of the test
    holds", built from the same calls in the same order; [assert_eq!]
    compares with the derived [PartialEq] of the operands.  The tests that
    call [next] take the source of randomness as an argument: they are
    evaluated on the executable generators and, in Section
    [every_generator], proved for every generator that honours the range
    contract.  [test_next_edge_distribution] is the loop of the test of
    that name and [test_next_edge_distribution_asserts] the whole test: the
    two assertions on the observed ratios are computed in binary64
    ([ratio_within]), as the code computes them.  [main_chain] is the chain
    [main] builds and [main] the document it serialises. *)

From Stdlib Require Import SpecFloat.
From stdpp Require Import base tactics decidable option numbers list.
From Stdlib Require Import ZArith Lia String.
From stdpp Require Import strings.
From S2P Require Import Prelude Float32 Rounding Float32Exact Float64 Json Serde.
From S2P Require Import action node edge.
From S2P Require Import Random markov_chain WeightedChoice transition.

Module tests.

(** The literal [1.0]. *)
Definition one : f32 := f32_of_Z 1.

Definition create_test_nodes : list Node :=
  [ {| Node.id := 1; Node.actions := [] |};
    {| Node.id := 2; Node.actions := [] |};
    {| Node.id := 3; Node.actions := [] |} ].

Definition create_test_edges : list Edge :=
  [ {| Edge.from := 1; Edge.to := 2; Edge.weight := one |};
    {| Edge.from := 1; Edge.to := 3; Edge.weight := one |};
    {| Edge.from := 2; Edge.to := 3; Edge.weight := one |} ].

(** [assert_eq!] on [Option<&Node>], [Option<&Edge>]: the derived
    [PartialEq] of [Option] over that of the element. *)
Definition option_eq {A} (eq : A → A → bool) (a b : option A) : bool :=
  match a, b with
  | Some x, Some y => eq x y
  | None, None => true
  | _, _ => false
  end.

(** [Vec::contains]: some element is [==] to the argument. *)
Definition contains (l : list Edge) (e : Edge) : bool :=
  existsb (λ x, Edge.eq x e) l.

Definition test_add_node : bool :=
  let mc := MarkovChain.new None None in
  let node := {| Node.id := 1; Node.actions := [] |} in
  let mc := MarkovChain.add_node mc node in
  option_eq Node.eq (MarkovChain.get_node mc 1) (Some node).

Definition test_add_nodes : bool :=
  let mc := MarkovChain.new None None in
  let nodes := create_test_nodes in
  let mc := MarkovChain.add_nodes mc nodes in
  option_eq Node.eq (MarkovChain.get_node mc 1) (nodes !! 0)
  && option_eq Node.eq (MarkovChain.get_node mc 2) (nodes !! 1)
  && option_eq Node.eq (MarkovChain.get_node mc 3) (nodes !! 2).

Definition test_remove_node : bool :=
  let mc := MarkovChain.new (Some create_test_nodes) None in
  let mc := MarkovChain.remove_node mc 1 in
  option_eq Node.eq (MarkovChain.get_node mc 1) None.

Definition test_add_edge : bool :=
  let mc := MarkovChain.new None None in
  let edge := {| Edge.from := 1; Edge.to := 2; Edge.weight := one |} in
  let mc := MarkovChain.add_edge mc edge in
  option_eq Edge.eq (MarkovChain.get_edge mc 1 2) (Some edge).

Definition test_remove_edge : bool :=
  let mc := MarkovChain.new None (Some create_test_edges) in
  let mc := MarkovChain.remove_edge mc 1 2 in
  option_eq Edge.eq (MarkovChain.get_edge mc 1 2) None.

Definition test_set_current_node : bool :=
  let mc := MarkovChain.new (Some create_test_nodes) None in
  let '(r1, mc) := MarkovChain.set_current_node mc 1 in
  let '(r2, mc) := MarkovChain.set_current_node mc 4 in
  bool_decide (r1 = Ok ())
  && bool_decide (r2 = Err NodeDoesNotExistError)
  && match MarkovChain.get_current_node mc with
     | Some id => bool_decide (id = 1%N)
     | None => false
     end.

(** [test_next]: [None] when a call panicked (also the [unwrap] of an
    error), otherwise whether both assertions hold. *)
Definition test_next `{RandomSource R} (rng : R) : option bool :=
  let mc := MarkovChain.new (Some create_test_nodes) (Some create_test_edges) in
  match MarkovChain.next mc rng with
  | Panics => None
  | Returns (r1, mc, rng) =>
      match MarkovChain.set_current_node mc 1 with
      | (Err _, _) => None
      | (Ok _, mc) =>
          match MarkovChain.next mc rng with
          | Panics => None
          | Returns (r2, _, _) =>
              Some (bool_decide (r1 = Err NodeDoesNotExistError) && is_ok r2)
          end
      end
  end.

Definition test_get_node_edges : option bool :=
  let mc := MarkovChain.new (Some create_test_nodes) (Some create_test_edges) in
  match MarkovChain.get_node_edges mc 1 with
  | Err _ => None
  | Ok edges =>
      Some (bool_decide (length edges = 2)
            && contains edges
                 {| Edge.from := 1; Edge.to := 2; Edge.weight := one |}
            && contains edges
                 {| Edge.from := 1; Edge.to := 3; Edge.weight := one |})
  end.

(** The loop of [test_next_edge_distribution]: [iterations] rounds of
    [next] from node 1, counting the arrivals at 2 and at 3.  [None] stands
    for a panic: of [gen_range], of an [unwrap], or "Unexpected node". *)
Fixpoint distribution_loop `{RandomSource R} (iterations : nat)
    (mc : MarkovChain) (rng : R) (count_to_2 count_to_3 : nat)
    : option (nat * nat) :=
  match iterations with
  | O => Some (count_to_2, count_to_3)
  | S iterations =>
      match MarkovChain.next mc rng with
      | Returns (Ok _, mc, rng) =>
          match MarkovChain.current_node mc with
          | Some 2%N =>
              match MarkovChain.set_current_node mc 1 with
              | (Ok _, mc) =>
                  distribution_loop iterations mc rng (S count_to_2) count_to_3
              | _ => None
              end
          | Some 3%N =>
              match MarkovChain.set_current_node mc 1 with
              | (Ok _, mc) =>
                  distribution_loop iterations mc rng count_to_2 (S count_to_3)
              | _ => None
              end
          | _ => None
          end
      | _ => None
      end
  end.

Definition test_next_edge_distribution `{RandomSource R} (iterations : nat)
    (rng : R) : option (nat * nat) :=
  let mc := MarkovChain.new (Some create_test_nodes) (Some create_test_edges) in
  match MarkovChain.set_current_node mc 1 with
  | (Ok _, mc) => distribution_loop iterations mc rng 0 0
  | _ => None
  end.

(** One of the two assertions that end [test_next_edge_distribution]:
    [(count as f64 / iterations as f64 - 0.5).abs() < 0.05]. *)
Definition ratio_within (count iterations : Z) : bool :=
  let ratio := f64_div (f64_of_Z count) (f64_of_Z iterations) in
  let expected_ratio := f64_lit 1 2 in
  f64_lt (f64_abs (f64_sub ratio expected_ratio)) (f64_lit 5 100).

(** [let iterations = 10000]. *)
Definition iterations : Z := 10000.

(** The whole test: the loop, then the two assertions on the counts. *)
Definition test_next_edge_distribution_asserts `{RandomSource R} (rng : R)
  : option bool :=
  match test_next_edge_distribution (Z.to_nat iterations) rng with
  | Some (count_to_2, count_to_3) =>
      Some (ratio_within (Z.of_nat count_to_2) iterations
            && ratio_within (Z.of_nat count_to_3) iterations)
  | None => None
  end.

(** [P] holds of the [n] integers from [z] on. *)
Fixpoint check_range (P : Z → bool) (n : nat) (z : Z) : bool :=
  match n with
  | O => true
  | S n => P z && check_range P n (z + 1)
  end.

(** The chain [main] builds. *)
Definition main_chain : MarkovChain :=
  let mc := MarkovChain.new None None in
  let n1 := Node.new 1 None in
  let n2 := Node.new 2 None in
  let n3 := Node.new 3 None in
  let mc := MarkovChain.add_nodes mc [n1; n2; n3] in
  let a1 := Action.new 100 (Some (Json.Num (Json.Float (Json.f64_of_ratio 1005 10)))) in
  let a2 := Action.new 200 (Some (Json.Num (Json.Float (Json.f64_of_ratio 2005 10)))) in
  let a3 := Action.new 300 (Some (Json.Num (Json.Float (Json.f64_of_ratio 3005 10)))) in
  let mc := MarkovChain.add_node_actions mc 1 [a1] in
  let mc := MarkovChain.add_node_actions mc 2 [a2; a3] in
  let mc := MarkovChain.add_edge mc (Edge.new 1 2 (f32_of_ratio 2 10)) in
  let mc := MarkovChain.add_edge mc (Edge.new 2 3 (f32_of_ratio 4 10)) in
  let mc := MarkovChain.add_edge mc (Edge.new 3 1 (f32_of_ratio 8 10)) in
  let mc := MarkovChain.add_edge mc (Edge.new 3 2 (f32_of_ratio 4 10)) in
  mc.


(** The test chain after [set_current_node(1)], and the result of that
    call. *)
Definition at_node_1 : MarkovChain :=
  MarkovChain.mk create_test_nodes create_test_edges (Some 1%N).

Definition set_ok : Result unit MarkovChainError := Ok ().

(** ** The tests pass *)

Example test_add_node_passes : test_add_node = true.
Proof. vm_compute. reflexivity. Qed.

Example test_add_nodes_passes : test_add_nodes = true.
Proof. vm_compute. reflexivity. Qed.

Example test_remove_node_passes : test_remove_node = true.
Proof. vm_compute. reflexivity. Qed.

Example test_add_edge_passes : test_add_edge = true.
Proof. vm_compute. reflexivity. Qed.

Example test_remove_edge_passes : test_remove_edge = true.
Proof. vm_compute. reflexivity. Qed.

Example test_set_current_node_passes : test_set_current_node = true.
Proof. vm_compute. reflexivity. Qed.

Example test_get_node_edges_passes : test_get_node_edges = Some true.
Proof. vm_compute. reflexivity. Qed.

(** With the source that always draws the lower bound, and with a scripted
    draw of [1.0], [test_next] passes. *)
Example test_next_passes_lowest : test_next (R:=unit) () = Some true.
Proof. vm_compute. reflexivity. Qed.

Example test_next_passes_scripted : test_next [one] = Some true.
Proof. vm_compute. reflexivity. Qed.

(** Four rounds of the distribution loop with the draws 0.5, 1.5, 1.0 and
    0.25: two arrivals at node 2 and two at node 3. *)
Example distribution_four_rounds :
  test_next_edge_distribution 4
    [f32_of_ratio 1 2; f32_of_ratio 3 2; one; f32_of_ratio 1 4]
  = Some (2, 2).
Proof. vm_compute. reflexivity. Qed.

(** ** The assertions of the distribution test *)

Lemma check_range_spec P n z c :
  check_range P n z = true → (z ≤ c < z + Z.of_nat n)%Z → P c = true.
Proof.
  revert z. induction n as [|n IH]; intros z; cbn [check_range]; [lia|].
  intros [Hz Hn]%andb_prop Hc. destruct (Z.eq_dec c z) as [->|]; [done|].
  apply (IH (z + 1)%Z); [done|lia].
Qed.

(** In binary64 the assertion on a count out of 10000 holds from 4500 to
    5499.  The count 4500 passes although 0.45 is 0.05 away from 0.5:
    [0.45 - 0.5] rounds to a float just below the float [0.05]; the count
    5500 does not. *)
Lemma ratio_within_spec c :
  (0 ≤ c ≤ 10000)%Z →
  ratio_within c 10000 = (4500 <=? c)%Z && (c <=? 5499)%Z.
Proof.
  intros Hc.
  apply Bool.eqb_prop.
  apply (check_range_spec
           (λ c, Bool.eqb (ratio_within c 10000)
                          ((4500 <=? c)%Z && (c <=? 5499)%Z)) 10001 0);
    [by vm_compute|].
  replace (Z.of_nat 10001) with 10001%Z by (vm_compute; reflexivity). lia.
Qed.

(** The two assertions, on counts that add up to the number of
    iterations. *)
Lemma asserts_on_counts (c2 c3 : nat) :
  (Z.of_nat c2 + Z.of_nat c3 = iterations)%Z →
  ratio_within (Z.of_nat c2) iterations && ratio_within (Z.of_nat c3) iterations
  = bool_decide (4501 ≤ Z.of_nat c2 ≤ 5499)%Z.
Proof.
  unfold iterations. intros Hc. rewrite !ratio_within_spec by lia.
  case_bool_decide; lia.
Qed.

(** ** The tests of [next], for every generator *)

Section every_generator.
Context `{RandomSource R}.

(** From node 1 of the test chain [next] moves to node 2 or to node 3,
    whatever the generator draws. *)
Lemma next_at_node_1 (rng : R) :
  ∃ j rng', (j = 2%N ∨ j = 3%N)
            ∧ MarkovChain.next at_node_1 rng
              = Returns (Ok (), MarkovChain.mk create_test_nodes
                                  create_test_edges (Some j), rng').
Proof.
  destruct (next_spaced at_node_1 rng 1) as (e & rng' & He & ->);
    [done|done|by vm_compute..|].
  exists (Edge.to e), rng'. split; [|done].
  apply list_elem_of_filter in He as [_ He]. cbn in He.
  repeat (apply elem_of_cons in He as [->|He]; [cbn; by auto|]).
  by apply elem_of_nil in He.
Qed.

(** C26. [test_next] passes for every generator: the first [next] fails
    with [NodeDoesNotExistError], and after [set_current_node(1)] the
    second succeeds, whatever is drawn. *)
Theorem test_next_passes (rng : R) : test_next rng = Some true.
Proof.
  unfold test_next. rewrite next_eq. cbn [MarkovChain.current_node MarkovChain.new].
  change (MarkovChain.set_current_node _ 1) with (set_ok, at_node_1).
  cbn match. by destruct (next_at_node_1 rng) as (j & rng' & _ & ->).
Qed.

(** The loop of [test_next_edge_distribution] never panics and counts
    every round. *)
Lemma distribution_loop_total (iterations : nat) (rng : R) c2 c3 :
  ∃ c2' c3', distribution_loop iterations at_node_1 rng c2 c3 = Some (c2', c3')
             ∧ c2' + c3' = c2 + c3 + iterations.
Proof.
  revert rng c2 c3. induction iterations as [|n IH]; intros rng c2 c3.
  { exists c2, c3. split; [done|lia]. }
  cbn [distribution_loop].
  destruct (next_at_node_1 rng) as (j & rng' & [-> | ->] & ->);
    cbn [MarkovChain.current_node];
    change (MarkovChain.set_current_node _ 1) with (set_ok, at_node_1);
    cbn match.
  - destruct (IH rng' (S c2) c3) as (c2' & c3' & -> & ?). exists c2', c3'.
    split; [done|lia].
  - destruct (IH rng' c2 (S c3)) as (c2' & c3' & -> & ?). exists c2', c3'.
    split; [done|lia].
Qed.

(** The same, from the start of the test and in [Z]. *)
Lemma distribution_from_node_1 (n : nat) (rng : R) :
  ∃ c2 c3, test_next_edge_distribution n rng = Some (c2, c3)
           ∧ (Z.of_nat c2 + Z.of_nat c3 = Z.of_nat n)%Z.
Proof.
  unfold test_next_edge_distribution.
  change (MarkovChain.set_current_node _ 1) with (set_ok, at_node_1).
  cbn match.
  destruct (distribution_loop_total n rng 0 0) as (c2 & c3 & -> & Hc).
  exists c2, c3. split; [done|lia].
Qed.

(** C27. The loop of [test_next_edge_distribution] runs to its end for
    every generator and every number of iterations: no call fails, no
    unexpected node is reached, and the two counts add up to the number of
    iterations. *)
Theorem test_next_edge_distribution_total (iterations : nat) (rng : R) :
  ∃ count_to_2 count_to_3,
    test_next_edge_distribution iterations rng = Some (count_to_2, count_to_3)
    ∧ count_to_2 + count_to_3 = iterations.
Proof.
  unfold test_next_edge_distribution.
  change (MarkovChain.set_current_node _ 1) with (set_ok, at_node_1).
  cbn match. apply (distribution_loop_total iterations rng 0 0).
Qed.

(** C21. The whole of [test_next_edge_distribution], for every generator: the
    loop runs to its end, and the test passes exactly when the arrivals at
    node 2 number from 4501 to 5499 out of 10000. *)
Theorem test_next_edge_distribution_asserts_spec (rng : R) :
  ∃ count_to_2 count_to_3,
    test_next_edge_distribution (Z.to_nat iterations) rng
    = Some (count_to_2, count_to_3)
    ∧ (Z.of_nat count_to_2 + Z.of_nat count_to_3 = iterations)%Z
    ∧ test_next_edge_distribution_asserts rng
      = Some (bool_decide (4501 ≤ Z.of_nat count_to_2 ≤ 5499)%Z).
Proof.
  unfold test_next_edge_distribution_asserts.
  destruct (distribution_from_node_1 (Z.to_nat iterations) rng)
    as (c2 & c3 & -> & Hc).
  exists c2, c3. split_and!; [done..|]. f_equal. by apply asserts_on_counts.
Qed.

End every_generator.


(** ** The sample chain of [main] *)

Example main_chain_wf : MarkovChain.wf main_chain.
Proof. apply (bool_decide_unpack _). vm_compute. exact I. Qed.

Example main_chain_graph_ok : graph_ok main_chain.
Proof. split; by apply (bool_decide_unpack _). Qed.

(** The edges leaving node 3, in insertion order. *)
Example main_chain_edges_3 :
  MarkovChain.get_node_edges main_chain 3
  = Ok [Edge.new 3 1 (f32_of_ratio 8 10); Edge.new 3 2 (f32_of_ratio 4 10)].
Proof. vm_compute. reflexivity. Qed.

(** The actions of node 2, in insertion order; no current node. *)
Example main_chain_actions_2 :
  fmap (M:=list) Action.id <$> MarkovChain.get_node_actions main_chain 2
  = Some [200%N; 300%N]
  ∧ MarkovChain.get_current_node main_chain = None.
Proof. split; vm_compute; reflexivity. Qed.


End tests.
